(** * Authorino core: credential locator, auth pipeline, pattern matching

    A shallow embedding of

      - [pkg/common/auth_credentials]  (the credential locator),
      - [pkg/service/auth_pipeline.go] (the three-phase auth pipeline),

    together with the pattern-matching authorization evaluator that the
    test [TestCall] exercises, and the properties of the specification
    that speak about them.

    Go strings are byte sequences and are modelled by [string] (a list of
    8-bit [ascii]); Go maps by [gmap]; [interface{}] values by the tagged
    variant [value]; Go's [(T, error)] results by [result], which also has
    a constructor for a run-time panic. *)

From Stdlib Require Import ZArith Ascii String List Lia Bool.
From stdpp Require Import base option list gmap strings fin_maps.

Import ListNotations.
Set Warnings "-register-all".
Local Open Scope string_scope.
Local Open Scope list_scope.

(** ** Errors and results *)

(** [fmt.Errorf(msg)]: an error value carrying its message. *)
Inductive error : Type :=
| Errorf (msg : string).

(** The run-time panics that the embedded code can raise. *)
Inductive panic : Type :=
| IndexOutOfRange (index : Z) (len : nat)
| MustCompilePanic (msg : string).

(** Outcome of a Go function returning [(T, error)].  [OutsideModel] marks an
    input on which a library routine (regexp, Unicode case mapping) leaves the
    fragment of the library that this development models; no theorem below
    is stated about such inputs. *)
Inductive result (A : Type) : Type :=
| Ok (a : A)
| Err (e : error)
| Panic (p : panic)
| OutsideModel.

Arguments Ok {A} a.
Arguments Err {A} e.
Arguments Panic {A} p.
Arguments OutsideModel {A}.

(** ** Go's [strings] package, on byte strings *)

Module strings.

(** [len(s)] *)
Definition len (s : string) : nat := String.length s.

(** [strings.HasPrefix(s, prefix)]:
    [len(s) >= len(prefix) && s[0:len(prefix)] == prefix]. *)
Definition HasPrefix (s prefix : string) : bool :=
  (len prefix <=? len s)%nat && String.eqb (substring 0 (len prefix) s) prefix.

(** [strings.TrimPrefix(s, prefix)]:
    [if HasPrefix(s, prefix) { return s[len(prefix):] }; return s]. *)
Definition TrimPrefix (s prefix : string) : string :=
  if HasPrefix s prefix then substring (len prefix) (len s - len prefix) s else s.

(** [strings.Split(s, sep)] for a one-byte separator [sep]: the substrings
    between the occurrences of [sep]; a string without [sep] (the empty
    string included) yields the one-element slice [[s]]. *)
Fixpoint Split (s : string) (sep : ascii) : list string :=
  match s with
  | EmptyString => [EmptyString]
  | String c s' =>
      if Ascii.eqb c sep then EmptyString :: Split s' sep
      else match Split s' sep with
           | [] => [String c EmptyString]
           | p :: ps => String c p :: ps
           end
  end.

(** The byte [sep] does not occur in [s]. *)
Fixpoint free_of (sep : ascii) (s : string) : Prop :=
  match s with
  | EmptyString => True
  | String c s' => c <> sep /\ free_of sep s'
  end.

Definition byte (n : N) : ascii := ascii_of_N n.

Definition bytes (l : list N) : string := string_of_list_ascii (map byte l).

(** The ASCII white space of [strings.TrimSpace]:
    ['\t'], ['\n'], ['\v'], ['\f'], ['\r'], [' ']. *)
Definition asciiSpace (c : ascii) : bool :=
  let n := N_of_ascii c in
  ((9 <=? n) && (n <=? 13))%N || (n =? 32)%N.

(** UTF-8 encodings of the white space runes above U+007F for which
    [unicode.IsSpace] holds: U+0085, U+00A0, U+1680, U+2000..U+200A,
    U+2028, U+2029, U+202F, U+205F, U+3000. *)
Definition unicodeSpaces : list string :=
  map bytes
    ([ [194; 133]; [194; 160]; [225; 154; 128] ]
     ++ map (fun k => [226; 128; k]) [128; 129; 130; 131; 132; 133; 134; 135; 136; 137; 138]
     ++ [ [226; 128; 168]; [226; 128; 169]; [226; 128; 175];
          [226; 129; 159]; [227; 128; 128] ])%N.

Definition HasSuffix (s suffix : string) : bool :=
  (len suffix <=? len s)%nat
  && String.eqb (substring (len s - len suffix) (len suffix) s) suffix.

(** One white space rune removed from the left, if there is one. *)
Definition dropSpaceLeft (s : string) : option string :=
  match s with
  | EmptyString => None
  | String c s' =>
      if asciiSpace c then Some s'
      else match filter (fun u => Is_true (HasPrefix s u)) unicodeSpaces with
           | u :: _ => Some (TrimPrefix s u)
           | [] => None
           end
  end.

(** One white space rune removed from the right, if there is one. *)
Definition dropSpaceRight (s : string) : option string :=
  match filter (fun u => Is_true (HasSuffix s u))
               (map (fun c => String c EmptyString)
                    (map byte [9; 10; 11; 12; 13; 32]%N) ++ unicodeSpaces) with
  | u :: _ => Some (substring 0 (len s - len u) s)
  | [] => None
  end.

Fixpoint iter_drop (drop : string -> option string) (fuel : nat) (s : string) : string :=
  match fuel with
  | O => s
  | S fuel' =>
      match drop s with
      | Some s' => iter_drop drop fuel' s'
      | None => s
      end
  end.

(** [strings.TrimSpace(s)]: all leading and trailing white space removed,
    as defined by Unicode.  Every removal shortens the string, so
    [len s] rounds suffice on each side. *)
Definition TrimSpace (s : string) : string :=
  let l := iter_drop dropSpaceLeft (len s) s in
  iter_drop dropSpaceRight (len l) l.

(** [strings.ToLower(s)] on strings of ASCII bytes; [None] when [s] has a
    byte above 0x7F, where Go maps whole runes by the Unicode tables. *)
Definition lowerByte (c : ascii) : ascii :=
  let n := N_of_ascii c in
  if ((65 <=? n) && (n <=? 90))%N then ascii_of_N (n + 32) else c.

Definition isASCII (s : string) : bool :=
  forallb (fun c => (N_of_ascii c <? 128)%N) (list_ascii_of_string s).

Definition ToLower (s : string) : option string :=
  if isASCII s
  then Some (string_of_list_ascii (map lowerByte (list_ascii_of_string s)))
  else None.

End strings.

(** ** Go's [regexp] package: the modelled fragment

    The query locator and the [matches] operator hand a pattern to Go's
    [regexp] (RE2 syntax, Perl flags, leftmost-first matching).  The fragment
    modelled here: patterns and subjects of ASCII bytes; literals, [.],
    bracket classes with ranges and negation, the Perl classes
    [\d \s \w \D \S \W], escaped punctuation, [^] and [$], capturing groups,
    named groups [(?P<name>...)], non-capturing groups [(?:...)],
    alternation, and the greedy operators [*], [+], [?] (the first two over
    a body that cannot match the empty string).  Everything else is
    reported as [Unsupported], never as an error or as a match. *)

Module regexp.

Inductive Syntax : Type :=
| EmptyMatch
| CharClass (negate : bool) (ranges : list (N * N))
| BeginText
| EndText
| Concat (a b : Syntax)
| Alternate (a b : Syntax)
| Star (a : Syntax)
| Plus (a : Syntax)
| Quest (a : Syntax)
| Capture (index : nat) (name : string) (a : Syntax).

Inductive parsed (A : Type) : Type :=
| Parsed (a : A)
| SyntaxError (code : string)
| Unsupported.

Arguments Parsed {A} a.
Arguments SyntaxError {A} code.
Arguments Unsupported {A}.

(** The error codes of [regexp/syntax] that the fragment can raise. *)
Definition ErrMissingBracket : string := "missing closing ]".
Definition ErrMissingParen : string := "missing closing )".
Definition ErrUnexpectedParen : string := "unexpected )".
Definition ErrInvalidCharRange : string := "invalid character class range".
Definition ErrMissingRepeatArgument : string := "missing argument to repetition operator".
Definition ErrInvalidRepeatOp : string := "invalid nested repetition operator".
Definition ErrTrailingBackslash : string := "trailing backslash at end of expression".

Definition code (c : ascii) : N := N_of_ascii c.

Definition isRepeatOp (c : ascii) : bool :=
  Ascii.eqb c "*" || Ascii.eqb c "+" || Ascii.eqb c "?".

Definition isDigit (c : ascii) : bool := ((48 <=? code c) && (code c <=? 57))%N.

Definition isAlpha (c : ascii) : bool :=
  (((65 <=? code c) && (code c <=? 90)) || ((97 <=? code c) && (code c <=? 122)))%N.

Definition isWordChar (c : ascii) : bool := isDigit c || isAlpha c || Ascii.eqb c "_".

(** Parser state: the number of capturing groups opened so far and the
    names already given to groups. *)
Record pstate : Type := { numCap : nat; groupNames : list string }.

(** The name of [(?P<name>...)], up to the closing [>]. *)
Fixpoint parseName (s : string) : option (string * string) :=
  match s with
  | EmptyString => None
  | String c s' =>
      if Ascii.eqb c ">" then Some (EmptyString, s')
      else if isWordChar c
           then match parseName s' with
                | Some (n, rest) => Some (String c n, rest)
                | None => None
                end
           else None
  end.

(** The items of a bracket class after [[] or [[^], up to the closing []]. *)
Fixpoint parseClass (first : bool) (s : string) (acc : list (N * N))
  : parsed (list (N * N) * string) :=
  match s with
  | EmptyString => SyntaxError ErrMissingBracket
  | String c s' =>
      if Ascii.eqb c "]" && negb first then Parsed (acc, s')
      else if Ascii.eqb c "\" then Unsupported
      else if Ascii.eqb c "[" && strings.HasPrefix s' ":" then Unsupported
      else
        match s' with
        | String d (String h s'') =>
            if Ascii.eqb d "-" && negb (Ascii.eqb h "]")
            then if Ascii.eqb h "\" then Unsupported
                 else if (code h <? code c)%N then SyntaxError ErrInvalidCharRange
                 else parseClass false s'' (acc ++ [(code c, code h)])
            else parseClass false s' (acc ++ [(code c, code c)])
        | _ => parseClass false s' (acc ++ [(code c, code c)])
        end
  end.

Definition perlDigit : list (N * N) := [(48, 57)]%N.
Definition perlSpace : list (N * N) := [(9, 10); (12, 13); (32, 32)]%N.
Definition perlWord : list (N * N) := [(48, 57); (65, 90); (95, 95); (97, 122)]%N.

(** What follows a backslash outside a bracket class. *)
Definition parseEscape (s : string) : parsed (Syntax * string) :=
  match s with
  | EmptyString => SyntaxError ErrTrailingBackslash
  | String c rest =>
      if Ascii.eqb c "d" then Parsed (CharClass false perlDigit, rest)
      else if Ascii.eqb c "D" then Parsed (CharClass true perlDigit, rest)
      else if Ascii.eqb c "s" then Parsed (CharClass false perlSpace, rest)
      else if Ascii.eqb c "S" then Parsed (CharClass true perlSpace, rest)
      else if Ascii.eqb c "w" then Parsed (CharClass false perlWord, rest)
      else if Ascii.eqb c "W" then Parsed (CharClass true perlWord, rest)
      else if (code c <? 128)%N && negb (isDigit c || isAlpha c)
           then Parsed (CharClass false [(code c, code c)], rest)
           else Unsupported
  end.

Fixpoint nullable (r : Syntax) : bool :=
  match r with
  | EmptyMatch | BeginText | EndText | Star _ | Quest _ => true
  | CharClass _ _ => false
  | Concat a b => nullable a && nullable b
  | Alternate a b => nullable a || nullable b
  | Plus a => nullable a
  | Capture _ _ a => nullable a
  end.

(** A repetition operator after the atom [a], if there is one. *)
Definition parseRepeat (a : Syntax) (s : string) : parsed (Syntax * string) :=
  match s with
  | String op rest =>
      if isRepeatOp op
      then match rest with
           | String c2 _ =>
               if Ascii.eqb c2 "?" then Unsupported
               else if isRepeatOp c2 then SyntaxError ErrInvalidRepeatOp
               else if Ascii.eqb op "?" then Parsed (Quest a, rest)
               else if nullable a then Unsupported
               else if Ascii.eqb op "*" then Parsed (Star a, rest)
               else Parsed (Plus a, rest)
           | EmptyString =>
               if Ascii.eqb op "?" then Parsed (Quest a, rest)
               else if nullable a then Unsupported
               else if Ascii.eqb op "*" then Parsed (Star a, rest)
               else Parsed (Plus a, rest)
           end
      else Parsed (a, s)
  | EmptyString => Parsed (a, s)
  end.

Definition mkConcat (a b : Syntax) : Syntax :=
  match b with
  | EmptyMatch => a
  | _ => Concat a b
  end.

(** The group body has been parsed; a [)] must follow. *)
Definition closeGroup (wrap : Syntax -> Syntax) (r : parsed (Syntax * string * pstate))
  : parsed (Syntax * string * pstate) :=
  match r with
  | Parsed (a, String c rest, st) =>
      if Ascii.eqb c ")" then Parsed (wrap a, rest, st) else Unsupported
  | Parsed (_, EmptyString, _) => SyntaxError ErrMissingParen
  | SyntaxError e => SyntaxError e
  | Unsupported => Unsupported
  end.

Fixpoint parseAlternation (fuel : nat) (s : string) (st : pstate) {struct fuel}
  : parsed (Syntax * string * pstate) :=
  match fuel with
  | O => Unsupported
  | S fuel' =>
      match parseConcat fuel' s st with
      | Parsed (a, String c rest, st1) =>
          if Ascii.eqb c "|"
          then match parseAlternation fuel' rest st1 with
               | Parsed (b, rest', st2) => Parsed (Alternate a b, rest', st2)
               | other => other
               end
          else Parsed (a, String c rest, st1)
      | other => other
      end
  end

with parseConcat (fuel : nat) (s : string) (st : pstate) {struct fuel}
  : parsed (Syntax * string * pstate) :=
  match fuel with
  | O => Unsupported
  | S fuel' =>
      match s with
      | EmptyString => Parsed (EmptyMatch, s, st)
      | String c _ =>
          if Ascii.eqb c "|" || Ascii.eqb c ")" then Parsed (EmptyMatch, s, st)
          else if isRepeatOp c then SyntaxError ErrMissingRepeatArgument
          else
            match parseAtom fuel' s st with
            | Parsed (a, rest, st1) =>
                match parseRepeat a rest with
                | Parsed (a', rest') =>
                    match parseConcat fuel' rest' st1 with
                    | Parsed (b, rest'', st2) => Parsed (mkConcat a' b, rest'', st2)
                    | other => other
                    end
                | SyntaxError e => SyntaxError e
                | Unsupported => Unsupported
                end
            | other => other
            end
      end
  end

with parseAtom (fuel : nat) (s : string) (st : pstate) {struct fuel}
  : parsed (Syntax * string * pstate) :=
  match fuel with
  | O => Unsupported
  | S fuel' =>
      match s with
      | EmptyString => Unsupported
      | String c rest =>
          if Ascii.eqb c "("
          then match rest with
               | String "?" (String ":" body) =>
                   closeGroup (fun a => a) (parseAlternation fuel' body st)
               | String "?" (String "P" (String "<" named)) =>
                   match parseName named with
                   | Some (String n0 n, body) =>
                       let name := String n0 n in
                       if bool_decide (name ∈ groupNames st) then Unsupported
                       else
                         let index := S (numCap st) in
                         closeGroup (Capture index name)
                           (parseAlternation fuel' body
                              {| numCap := index; groupNames := groupNames st ++ [name] |})
                   | _ => Unsupported
                   end
               | String "?" _ => Unsupported
               | _ =>
                   let index := S (numCap st) in
                   closeGroup (Capture index EmptyString)
                     (parseAlternation fuel' rest
                        {| numCap := index; groupNames := groupNames st |})
               end
          else if Ascii.eqb c "["
          then match rest with
               | String "^" items =>
                   match parseClass true items [] with
                   | Parsed (rs, rest') => Parsed (CharClass true rs, rest', st)
                   | SyntaxError e => SyntaxError e
                   | Unsupported => Unsupported
                   end
               | _ =>
                   match parseClass true rest [] with
                   | Parsed (rs, rest') => Parsed (CharClass false rs, rest', st)
                   | SyntaxError e => SyntaxError e
                   | Unsupported => Unsupported
                   end
               end
          else if Ascii.eqb c "." then Parsed (CharClass true [(10, 10)%N], rest, st)
          else if Ascii.eqb c "^" then Parsed (BeginText, rest, st)
          else if Ascii.eqb c "$" then Parsed (EndText, rest, st)
          else if Ascii.eqb c "\"
          then match parseEscape rest with
               | Parsed (a, rest') => Parsed (a, rest', st)
               | SyntaxError e => SyntaxError e
               | Unsupported => Unsupported
               end
          else if Ascii.eqb c "{" then Unsupported
          else Parsed (CharClass false [(code c, code c)], rest, st)
      end
  end.

(** A compiled expression: its syntax tree and the number of its groups. *)
Record Regexp : Type := { syntax : Syntax; numSubexp : nat }.

(** [regexp.Compile(expr)] *)
Definition Compile (expr : string) : parsed Regexp :=
  if negb (strings.isASCII expr) || (1000 <? String.length expr)%nat then Unsupported
  else
    match parseAlternation (3 * String.length expr + 3) expr
            {| numCap := 0; groupNames := [] |} with
    | Parsed (a, EmptyString, st) => Parsed {| syntax := a; numSubexp := numCap st |}
    | Parsed (_, String c _, _) =>
        if Ascii.eqb c ")" then SyntaxError ErrUnexpectedParen else Unsupported
    | SyntaxError e => SyntaxError e
    | Unsupported => Unsupported
    end.

(** *** Matching: leftmost-first, as a backtracking search *)

Fixpoint size (r : Syntax) : nat :=
  match r with
  | EmptyMatch | CharClass _ _ | BeginText | EndText => 1
  | Concat a b | Alternate a b => S (size a + size b)
  | Star a | Quest a | Capture _ _ a => S (size a)
  | Plus a => S (S (size a))
  end.

Definition inRanges (c : ascii) (ranges : list (N * N)) : bool :=
  existsb (fun '(lo, hi) => (lo <=? code c)%N && (code c <=? hi)%N) ranges.

(** Positions of the groups that took part in a match, latest first. *)
Definition captures : Type := list (nat * (nat * nat)).

Inductive outcome : Type :=
| NoMatch
| Matched (stop : nat) (caps : captures)
| OutOfFuel.

(** [run fuel r pos s caps k]: match [r] at offset [pos], where [s] is the
    rest of the subject, then continue with [k]. *)
Fixpoint run (fuel : nat) (r : Syntax) (pos : nat) (s : string) (caps : captures)
    (k : nat -> string -> captures -> outcome) {struct fuel} : outcome :=
  match fuel with
  | O => OutOfFuel
  | S fuel' =>
      match r with
      | EmptyMatch => k pos s caps
      | CharClass negate ranges =>
          match s with
          | EmptyString => NoMatch
          | String c s' =>
              if xorb negate (inRanges c ranges) then k (S pos) s' caps else NoMatch
          end
      | BeginText => if (pos =? 0)%nat then k pos s caps else NoMatch
      | EndText =>
          match s with
          | EmptyString => k pos s caps
          | String _ _ => NoMatch
          end
      | Concat a b =>
          run fuel' a pos s caps (fun p1 s1 c1 => run fuel' b p1 s1 c1 k)
      | Alternate a b =>
          match run fuel' a pos s caps k with
          | NoMatch => run fuel' b pos s caps k
          | other => other
          end
      | Star a =>
          match run fuel' a pos s caps
                  (fun p1 s1 c1 =>
                     if (pos <? p1)%nat then run fuel' (Star a) p1 s1 c1 k else NoMatch) with
          | NoMatch => k pos s caps
          | other => other
          end
      | Plus a =>
          run fuel' a pos s caps (fun p1 s1 c1 => run fuel' (Star a) p1 s1 c1 k)
      | Quest a =>
          match run fuel' a pos s caps k with
          | NoMatch => k pos s caps
          | other => other
          end
      | Capture index _ a =>
          run fuel' a pos s caps (fun p1 s1 c1 => k p1 s1 ((index, (pos, p1)) :: c1))
      end
  end.

Inductive found : Type :=
| NotFound
| Found (start stop : nat) (caps : captures)
| GaveUp.

(** The leftmost offset at which [r] matches. *)
Fixpoint search (fuel : nat) (r : Syntax) (pos : nat) (s : string) : found :=
  match run fuel r pos s [] (fun p _ c => Matched p c) with
  | Matched stop caps => Found pos stop caps
  | OutOfFuel => GaveUp
  | NoMatch =>
      match s with
      | EmptyString => NotFound
      | String _ s' => search fuel r (S pos) s'
      end
  end.

Definition matchFuel (re : Regexp) (s : string) : nat :=
  S (S (size (syntax re)) * S (String.length s)).

Definition slice (s : string) (lo hi : nat) : string := substring lo (hi - lo) s.

Definition submatch (s : string) (caps : captures) (index : nat) : string :=
  match list_find (fun e => e.1 = index) caps with
  | Some (_, (_, (lo, hi))) => slice s lo hi
  | None => EmptyString
  end.

(** [re.FindStringSubmatch(s)]: the text of the leftmost match and of its
    groups (the empty string for a group that took no part); the empty
    slice when there is no match. *)
Definition FindStringSubmatch (re : Regexp) (s : string) : option (list string) :=
  if negb (strings.isASCII s) then None
  else
    match search (matchFuel re s) (syntax re) 0 s with
    | NotFound => Some []
    | Found start stop caps =>
        Some (slice s start stop :: map (submatch s caps) (seq 1 (numSubexp re)))
    | GaveUp => None
    end.

(** [re.MatchString(s)] *)
Definition MatchString (re : Regexp) (s : string) : option bool :=
  match FindStringSubmatch re s with
  | Some [] => Some false
  | Some (_ :: _) => Some true
  | None => None
  end.

(** The names of the groups in the order of their indices ([SubexpNames]
    without its leading entry for the whole match). *)
Fixpoint subexpNames (r : Syntax) : list string :=
  match r with
  | EmptyMatch | CharClass _ _ | BeginText | EndText => []
  | Concat a b | Alternate a b => subexpNames a ++ subexpNames b
  | Star a | Plus a | Quest a => subexpNames a
  | Capture _ name a => name :: subexpNames a
  end.

(** [re.SubexpIndex(name)]: the index of the first group of that name,
    [-1] if there is none or the name is empty. *)
Definition SubexpIndex (re : Regexp) (name : string) : Z :=
  if String.eqb name EmptyString then (-1)%Z
  else
    match list_find (fun n => n = name) (subexpNames (syntax re)) with
    | Some (i, _) => Z.of_nat (S i)
    | None => (-1)%Z
    end.

(** The expression for the bytes of [s] one after the other, followed by
    [tail]: what the parser makes of a run of plain bytes. *)
Fixpoint literal (s : string) (tail : Syntax) : Syntax :=
  match s with
  | EmptyString => tail
  | String c s' => mkConcat (CharClass false [(code c, code c)]) (literal s' tail)
  end.

(** The bytes of [s] are letters, digits or underscores. *)
Definition isWord (s : string) : bool := forallb isWordChar (list_ascii_of_string s).

(** The class of the byte [=] and the class of every byte but [&]. *)
Definition equals : Syntax := CharClass false [(61, 61)]%N.
Definition notAmp : Syntax := CharClass true [(38, 38)]%N.

(** The syntax tree of the pattern that [getCredFromQuery] compiles, when
    the key is a run of plain bytes: a first group of [?] or [&], the key
    and [=], then the group named credValue of the bytes up to the next
    [&]. *)
Definition querySyntax (key : string) : Syntax :=
  Concat
    (Capture 1 EmptyString
       (Concat (CharClass false [(63, 63); (38, 38)]%N)
               (literal key (CharClass false [(61, 61)]%N))))
    (Capture 2 "credValue"%string (Star (CharClass true [(38, 38)]%N))).

End regexp.

(** ** Dynamic values and the Envoy request *)

(** A Go [interface{}] holding a JSON-serializable object; [VNull] is the
    nil interface. *)
Inductive value : Type :=
| VNull
| VBool (b : bool)
| VNumber (literal : string)
| VString (s : string)
| VArray (items : list value)
| VObject (fields : list (string * value)).

(** [obj != nil] *)
Definition notNil (obj : value) : bool :=
  match obj with
  | VNull => false
  | _ => true
  end.

(** The specification's "truthy": neither null nor the boolean false. *)
Definition truthy (obj : value) : bool :=
  match obj with
  | VNull | VBool false => false
  | _ => true
  end.

Module envoy_auth.

(** The part of [AttributeContext_HttpRequest] that the code reads, through
    [GetHeaders()] and [GetPath()]. *)
Record HttpRequest : Type := { Headers : gmap string string; Path : string }.

Record AttributeContext_Request : Type := { Http : HttpRequest }.

Record AttributeContext : Type := { Request : AttributeContext_Request }.

Record CheckRequest : Type := { Attributes : AttributeContext }.

End envoy_auth.

(** ** The credential locator ([package auth_credentials]) *)

Module auth_credentials.

(** [AuthCredential] struct implements the [AuthCredentials] interface. *)
Record AuthCredential : Type := { KeySelector : string; In : string }.

Definition inCustomHeader : string := "custom_header".
Definition inAuthHeader : string := "authorization_header".
Definition inCookieHeader : string := "cookie".
Definition inQuery : string := "query".

Definition defaultKeySelector : string := "Bearer".

Definition credentialNotFoundMsg : string := "credential not found".
Definition credentialLocationNotSupportedMsg : string :=
  "the credential location is not supported".

Definition notFoundErr : error := Errorf credentialNotFoundMsg.

(** [NewAuthCredential] creates a new instance of [AuthCredential]. *)
Definition NewAuthCredential (selector location : string) : AuthCredential :=
  let keySelector := if String.eqb selector EmptyString then defaultKeySelector else selector in
  let in_ := if String.eqb location EmptyString then inAuthHeader else location in
  {| KeySelector := keySelector; In := in_ |}.

Definition getCredFromCustomHeader (headers : gmap string string) (keyName : string)
  : result string :=
  match strings.ToLower keyName with
  | None => OutsideModel
  | Some lower =>
      match headers !! lower with
      | None => Err notFoundErr
      | Some cred => Ok cred
      end
  end.

Definition getCredFromAuthHeader (headers : gmap string string) (keyName : string)
  : result string :=
  match headers !! "authorization" with
  | None => Err notFoundErr
  | Some authHeader =>
      let prefix := (keyName ++ " ")%string in
      if strings.HasPrefix authHeader prefix
      then Ok (strings.TrimPrefix authHeader prefix)
      else Err notFoundErr
  end.

(** [keyAndValue[i]] on a slice: a panic when [i] is out of range. *)
Definition index (l : list string) (i : nat) : result string :=
  match l !! i with
  | Some x => Ok x
  | None => Panic (IndexOutOfRange (Z.of_nat i) (length l))
  end.

(** The [for _, part := range strings.Split(header, ";")] loop. *)
Fixpoint cookieParts (parts : list string) (keyName : string) : result string :=
  match parts with
  | [] => Err notFoundErr
  | part :: rest =>
      let keyAndValue := strings.Split (strings.TrimSpace part) "=" in
      match index keyAndValue 0 with
      | Ok key =>
          if String.eqb key keyName then index keyAndValue 1
          else cookieParts rest keyName
      | other => other
      end
  end.

Definition getFromCookieHeader (headers : gmap string string) (keyName : string)
  : result string :=
  match headers !! "cookie" with
  | None => Err notFoundErr
  | Some header => cookieParts (strings.Split header ";") keyName
  end.

Definition credValue : string := "credValue".

(** [matches[i]] for a signed index. *)
Definition indexZ (l : list string) (i : Z) : result string :=
  if (i <? 0)%Z then Panic (IndexOutOfRange i (length l))
  else index l (Z.to_nat i).

Definition getCredFromQuery (path keyName : string) : result string :=
  match regexp.Compile ("([?&]" ++ keyName ++ "=)(?P<" ++ credValue ++ ">[^&]*)")%string with
  | regexp.SyntaxError e => Panic (MustCompilePanic e)
  | regexp.Unsupported => OutsideModel
  | regexp.Parsed regex =>
      match regexp.FindStringSubmatch regex path with
      | None => OutsideModel
      | Some matches =>
          if (length matches =? 0)%nat then Err notFoundErr
          else indexZ matches (regexp.SubexpIndex regex credValue)
      end
  end.

(** [GetCredentialsFromReq] will retrieve the secrets from a given location. *)
Definition GetCredentialsFromReq (c : AuthCredential) (httpReq : envoy_auth.HttpRequest)
  : result string :=
  if String.eqb (In c) inCustomHeader
  then getCredFromCustomHeader (envoy_auth.Headers httpReq) (KeySelector c)
  else if String.eqb (In c) inAuthHeader
  then getCredFromAuthHeader (envoy_auth.Headers httpReq) (KeySelector c)
  else if String.eqb (In c) inCookieHeader
  then getFromCookieHeader (envoy_auth.Headers httpReq) (KeySelector c)
  else if String.eqb (In c) inQuery
  then getCredFromQuery (envoy_auth.Path httpReq) (KeySelector c)
  else Err (Errorf credentialLocationNotSupportedMsg).

(** The specification's [extract]: the locator configured with [keySelector]
    and [in], applied to a request with the given headers and path. *)
Definition extract (keySelector location : string) (headers : gmap string string)
    (path : string) : result string :=
  GetCredentialsFromReq {| KeySelector := keySelector; In := location |}
    {| envoy_auth.Headers := headers; envoy_auth.Path := path |}.

(** The query rule as the specification words it, for comparison with
    [getCredFromQuery]: the first occurrence of [?] or [&], then the
    literal [keySelector], then [=]; the value runs to the next [&] or to
    the end. *)
Fixpoint untilAmp (s : string) : string :=
  match s with
  | EmptyString => EmptyString
  | String c s' => if Ascii.eqb c "&" then EmptyString else String c (untilAmp s')
  end.

Fixpoint spec_literalQuery (path keySelector : string) : result string :=
  match path with
  | EmptyString => Err notFoundErr
  | String c rest =>
      if (Ascii.eqb c "?" || Ascii.eqb c "&")
         && strings.HasPrefix rest (keySelector ++ "=")%string
      then Ok (untilAmp (strings.TrimPrefix rest (keySelector ++ "=")%string))
      else spec_literalQuery rest keySelector
  end.

End auth_credentials.

(** ** The auth pipeline ([package service]) *)

Module service.

(** A pointer to a config object; [nilPtr] is Go's [nil]. *)
Definition ptr : Type := N.
Definition nilPtr : ptr := 0%N.

(** A [common.AuthConfigEvaluator] interface value: its dynamic type and the
    pointer it holds. *)
Inductive AuthConfigEvaluator : Type :=
| IdentityConfig (p : ptr)
| MetadataConfig (p : ptr)
| AuthorizationConfig (p : ptr)
| OtherEvaluator (p : ptr).

(** The type assertion [conf, _ := resp.Evaluator.(T)] for [T] a pointer to
    [config.IdentityConfig], and its two siblings: the pointer when the
    dynamic type is the asserted one, the zero value, the nil pointer, otherwise. *)
Definition asIdentityConfig (e : AuthConfigEvaluator) : ptr :=
  match e with
  | IdentityConfig p => p
  | _ => nilPtr
  end.

Definition asMetadataConfig (e : AuthConfigEvaluator) : ptr :=
  match e with
  | MetadataConfig p => p
  | _ => nilPtr
  end.

Definition asAuthorizationConfig (e : AuthConfigEvaluator) : ptr :=
  match e with
  | AuthorizationConfig p => p
  | _ => nilPtr
  end.

Record EvaluationResponse : Type := {
  Evaluator : AuthConfigEvaluator;
  Object : value;
  Error : option error
}.

Definition Success (evresp : EvaluationResponse) : bool :=
  match Error evresp with
  | None => true
  | Some _ => false
  end.

Definition newEvaluationResponse (evaluator : AuthConfigEvaluator) (obj : value)
    (err : option error) : EvaluationResponse :=
  {| Evaluator := evaluator; Object := obj; Error := err |}.

(** [config.APIConfig]: the three lists of evaluators that the pipeline
    reads. *)
Record APIConfig : Type := {
  IdentityConfigs : list AuthConfigEvaluator;
  MetadataConfigs : list AuthConfigEvaluator;
  AuthorizationConfigs : list AuthConfigEvaluator
}.

(** [AuthPipeline] evaluates the context of an auth request upon the auth
    configs defined for the requested API. *)
Record AuthPipeline : Type := {
  Request : envoy_auth.CheckRequest;
  API : APIConfig;
  Identity : gmap ptr value;
  Metadata : gmap ptr value;
  Authorization : gmap ptr value
}.

(** [NewAuthPipeline] creates an [AuthPipeline] instance.  The parent
    context is not a field of the model: its cancellation is an event of
    the runner below. *)
Definition NewAuthPipeline (req : envoy_auth.CheckRequest) (apiConfig : APIConfig)
  : AuthPipeline :=
  {| Request := req; API := apiConfig; Identity := ∅; Metadata := ∅; Authorization := ∅ |}.

Definition setIdentity (pipeline : AuthPipeline) (conf : ptr) (obj : value) : AuthPipeline :=
  {| Request := Request pipeline; API := API pipeline;
     Identity := <[conf := obj]> (Identity pipeline);
     Metadata := Metadata pipeline;
     Authorization := Authorization pipeline |}.

Definition setMetadata (pipeline : AuthPipeline) (conf : ptr) (obj : value) : AuthPipeline :=
  {| Request := Request pipeline; API := API pipeline;
     Identity := Identity pipeline;
     Metadata := <[conf := obj]> (Metadata pipeline);
     Authorization := Authorization pipeline |}.

Definition setAuthorization (pipeline : AuthPipeline) (conf : ptr) (obj : value)
  : AuthPipeline :=
  {| Request := Request pipeline; API := API pipeline;
     Identity := Identity pipeline;
     Metadata := Metadata pipeline;
     Authorization := <[conf := obj]> (Authorization pipeline) |}.

(** *** The concurrent runner *)

(** The only function ever passed as a callback is the [cancel] of the
    context derived in [evaluateAuthConfigs]. *)
Inductive callback : Type := cancel.

(** Modelled from the spec: [common.CheckContext], which is not part of the
    sources at hand; "a task that observes cancellation before invoking
    Call must skip". *)
Definition CheckContext (cancelled : bool) : option error :=
  if cancelled then Some (Errorf "context canceled") else None.

(** [evaluateAuthConfig], given what [CheckContext] answered and what
    [config.Call] returns when it is invoked: the response sent on the
    channel, if any, and the callback invoked, if any. *)
Definition evaluateAuthConfig (config : AuthConfigEvaluator) (ctxErr : option error)
    (call : value * option error) (successCallback failureCallback : option callback)
  : option EvaluationResponse * option callback :=
  match ctxErr with
  | Some _ => (None, None)
  | None =>
      match call with
      | (_, Some err) => (Some (newEvaluationResponse config VNull (Some err)), failureCallback)
      | (authObj, None) => (Some (newEvaluationResponse config authObj None), successCallback)
      end
  end.

(** The three strategies, named after the functions that install them. *)
Inductive strategy : Type :=
| evaluateOneAuthConfig
| evaluateAllAuthConfigs
| evaluateAnyAuthConfig.

(** The [(successCallback, failureCallback)] that each strategy passes. *)
Definition callbacks (es : strategy) : option callback * option callback :=
  match es with
  | evaluateOneAuthConfig => (Some cancel, None)
  | evaluateAllAuthConfigs => (None, Some cancel)
  | evaluateAnyAuthConfig => (None, None)
  end.

(** A goroutine of [evaluateAuthConfigs]: spawned and not yet past
    [CheckContext], or inside [config.Call]. *)
Inductive goroutine : Type :=
| Spawned (config : AuthConfigEvaluator)
| Calling (config : AuthConfigEvaluator).

Definition configOf (g : goroutine) : AuthConfigEvaluator :=
  match g with
  | Spawned c | Calling c => c
  end.

(** The state of one [evaluateAuthConfigs]: whether the derived context is
    cancelled, the goroutines the wait group still waits for, and what has
    been sent on the response channel. *)
Record runner : Type := {
  ctxCancelled : bool;
  waitGroup : list goroutine;
  respChannel : list EvaluationResponse
}.

Definition fire (cb : option callback) (cancelled : bool) : bool :=
  match cb with
  | Some cancel => true
  | None => cancelled
  end.

Definition send (resp : option EvaluationResponse) (ch : list EvaluationResponse)
  : list EvaluationResponse :=
  match resp with
  | Some r => ch ++ [r]
  | None => ch
  end.

(** One scheduling step: the parent context is cancelled from outside; a
    goroutine passes [CheckContext] (and returns at once when the context
    is cancelled); a [config.Call] returns, the response is sent and the
    callback runs.  What a [config.Call] returns is left open: the
    evaluators are not part of the pipeline.  The channel is buffered to the
    number of configs, so a send never blocks. *)
Inductive step (es : strategy) : runner -> runner -> Prop :=
| step_parent_cancel r :
    step es r {| ctxCancelled := true; waitGroup := waitGroup r;
                 respChannel := respChannel r |}
| step_skip r before after config err :
    waitGroup r = before ++ Spawned config :: after ->
    CheckContext (ctxCancelled r) = Some err ->
    step es r {| ctxCancelled := ctxCancelled r; waitGroup := before ++ after;
                 respChannel := respChannel r |}
| step_enter r before after config :
    waitGroup r = before ++ Spawned config :: after ->
    CheckContext (ctxCancelled r) = None ->
    step es r {| ctxCancelled := ctxCancelled r;
                 waitGroup := before ++ Calling config :: after;
                 respChannel := respChannel r |}
| step_return r before after config call resp cb :
    waitGroup r = before ++ Calling config :: after ->
    evaluateAuthConfig config None call (callbacks es).1 (callbacks es).2 = (resp, cb) ->
    step es r {| ctxCancelled := fire cb (ctxCancelled r); waitGroup := before ++ after;
                 respChannel := send resp (respChannel r) |}.

(** [evaluateAuthConfigs authConfigs respChannel es]: one goroutine per
    config; [waitGroup.Wait()] returns when all are done.  The relation
    gives the contents of the channel at that moment, when it is closed. *)
Definition spawn (authConfigs : list AuthConfigEvaluator) : runner :=
  {| ctxCancelled := false; waitGroup := map Spawned authConfigs; respChannel := [] |}.

Definition evaluateAuthConfigs (authConfigs : list AuthConfigEvaluator) (es : strategy)
    (closed : list EvaluationResponse) : Prop :=
  exists final : runner,
    rtc (step es) (spawn authConfigs) final
    /\ waitGroup final = [] /\ respChannel final = closed.

(** Invariant of the runner: what the channel and the wait group hold
    together never exceeds the configs the runner started from. *)
Definition accounted (authConfigs : list AuthConfigEvaluator) (r : runner) : Prop :=
  map Evaluator (respChannel r) ++ map configOf (waitGroup r) ⊆+ authConfigs.

(** The response reports a failure. *)
Definition failed (resp : EvaluationResponse) : Prop := Success resp = false.

(** The [Metadata] and [Authorization] maps after storing a response. *)
Definition storeMetadata (m : gmap ptr value) (resp : EvaluationResponse) : gmap ptr value :=
  <[asMetadataConfig (Evaluator resp) := Object resp]> m.

Definition storeAuthorization (m : gmap ptr value) (resp : EvaluationResponse)
  : gmap ptr value :=
  <[asAuthorizationConfig (Evaluator resp) := Object resp]> m.

(** A failed response carries no object. *)
Definition well_formed (resp : EvaluationResponse) : Prop :=
  Success resp = false -> Object resp = VNull.

(** One schedule among the many: the goroutines run to completion one after
    the other, in the order of the configs; [call] gives what each
    [config.Call] returns. *)
Fixpoint sequential (es : strategy) (call : AuthConfigEvaluator -> value * option error)
    (authConfigs : list AuthConfigEvaluator) (cancelled : bool) : list EvaluationResponse :=
  match authConfigs with
  | [] => []
  | config :: rest =>
      let '(resp, cb) :=
        evaluateAuthConfig config (CheckContext cancelled) (call config)
          (callbacks es).1 (callbacks es).2 in
      send resp [] ++ sequential es call rest (fire cb cancelled)
  end.

(** *** The three phases

    Each phase ranges over its response channel while the goroutines run.
    The channel is a FIFO, so what the loop does is a function of the
    sequence [ch] of responses that the channel carries until it is closed;
    the loops return, with their result, the responses they left unread. *)

(** The [for resp := range respChannel] loop of [evaluateIdentityConfigs]. *)
Fixpoint identityLoop (ch : list EvaluationResponse) (lastError : option error)
    (pipeline : AuthPipeline) : AuthPipeline * option error * list EvaluationResponse :=
  match ch with
  | [] => (pipeline, lastError, [])
  | resp :: ch' =>
      let conf := asIdentityConfig (Evaluator resp) in
      let obj := Object resp in
      if Success resp
      then (setIdentity pipeline conf obj, None, ch')
      else identityLoop ch' (Error resp) pipeline
  end.

Definition evaluateIdentityConfigs (ch : list EvaluationResponse) (pipeline : AuthPipeline)
  : AuthPipeline * option error * list EvaluationResponse :=
  identityLoop ch None pipeline.

(** The loop of [evaluateMetadataConfigs]; it reads the channel to its end
    and returns nothing. *)
Fixpoint evaluateMetadataConfigs (ch : list EvaluationResponse) (pipeline : AuthPipeline)
  : AuthPipeline :=
  match ch with
  | [] => pipeline
  | resp :: ch' =>
      let conf := asMetadataConfig (Evaluator resp) in
      let obj := Object resp in
      if Success resp
      then evaluateMetadataConfigs ch' (setMetadata pipeline conf obj)
      else evaluateMetadataConfigs ch' pipeline
  end.

(** The loop of [evaluateAuthorizationConfigs]. *)
Fixpoint evaluateAuthorizationConfigs (ch : list EvaluationResponse)
    (pipeline : AuthPipeline) : AuthPipeline * option error * list EvaluationResponse :=
  match ch with
  | [] => (pipeline, None, [])
  | resp :: ch' =>
      let conf := asAuthorizationConfig (Evaluator resp) in
      let obj := Object resp in
      if Success resp
      then evaluateAuthorizationConfigs ch' (setAuthorization pipeline conf obj)
      else (pipeline, Error resp, ch')
  end.

(** [Evaluate] evaluates all steps of the auth pipeline (identity, metadata,
    policy enforcement), given the channel contents of the three phases. *)
Definition Evaluate (identityCh metadataCh authorizationCh : list EvaluationResponse)
    (pipeline : AuthPipeline) : AuthPipeline * option error :=
  match evaluateIdentityConfigs identityCh pipeline with
  | (pipeline1, Some err, _) => (pipeline1, Some err)
  | (pipeline1, None, _) =>
      let pipeline2 := evaluateMetadataConfigs metadataCh pipeline1 in
      match evaluateAuthorizationConfigs authorizationCh pipeline2 with
      | (pipeline3, Some err, _) => (pipeline3, Some err)
      | (pipeline3, None, _) => (pipeline3, None)
      end
  end.

(** A run of [Evaluate]: each phase that is reached reads a channel that
    its own runner fills, over the configs of the pipeline's API. *)
Inductive Evaluate_run (pipeline : AuthPipeline) : AuthPipeline -> option error -> Prop :=
| run_identity_denied identityCh pipeline1 err rest :
    evaluateAuthConfigs (IdentityConfigs (API pipeline)) evaluateOneAuthConfig identityCh ->
    evaluateIdentityConfigs identityCh pipeline = (pipeline1, Some err, rest) ->
    Evaluate_run pipeline pipeline1 (Some err)
| run_authorization identityCh metadataCh authorizationCh pipeline1 rest pipeline3 result :
    evaluateAuthConfigs (IdentityConfigs (API pipeline)) evaluateOneAuthConfig identityCh ->
    evaluateIdentityConfigs identityCh pipeline = (pipeline1, None, rest) ->
    evaluateAuthConfigs (MetadataConfigs (API pipeline)) evaluateAnyAuthConfig metadataCh ->
    evaluateAuthConfigs (AuthorizationConfigs (API pipeline)) evaluateAllAuthConfigs
      authorizationCh ->
    Evaluate identityCh metadataCh authorizationCh pipeline = (pipeline3, result) ->
    Evaluate_run pipeline pipeline3 result.

(** *** Reading the resolved state *)

(** [for k, v := range m]: Go visits the entries of a map in an order that
    it does not specify; [ranges m order] holds of every order it may take. *)
Definition ranges (m : gmap ptr value) (order : list (ptr * value)) : Prop :=
  order ≡ₚ map_to_list m.

(** [GetResolvedIdentity], for the order in which the loop visits
    [pipeline.Identity]; [(None, VNull)] is the pair [(nil, nil)]. *)
Fixpoint GetResolvedIdentity (order : list (ptr * value)) : option ptr * value :=
  match order with
  | [] => (None, VNull)
  | (identityConfig, identityObj) :: order' =>
      if notNil identityObj then (Some identityConfig, identityObj)
      else GetResolvedIdentity order'
  end.

(** [GetResolvedMetadata], for the order in which the loop visits
    [pipeline.Metadata]. *)
Fixpoint resolvedMetadataLoop (order : list (ptr * value)) (m : gmap ptr value)
  : gmap ptr value :=
  match order with
  | [] => m
  | (metadataCfg, metadataObj) :: order' =>
      if notNil metadataObj
      then resolvedMetadataLoop order' (<[metadataCfg := metadataObj]> m)
      else resolvedMetadataLoop order' m
  end.

Definition GetResolvedMetadata (order : list (ptr * value)) : gmap ptr value :=
  resolvedMetadataLoop order ∅.

(** The [map[string]interface{}] behind [AuthData], which is given exactly
    the keys ["identity"] and ["metadata"], the latter a
    [map[string]interface{}]. *)
Record authData : Type := { identity : value; metadata : gmap string value }.

(** The value behind the pointer that [GetDataForAuthorization] returns;
    its fields are serialized as ["context"] and ["auth"]. *)
Record authorizationData : Type := {
  Context : envoy_auth.AttributeContext;
  AuthData : authData
}.

Section GetDataForAuthorization.

(** [GetName()] of the config behind a pointer; the config types are not
    part of the sources at hand. *)
Variable GetName : ptr -> string.

(** The loop over [pipeline.GetResolvedMetadata()]. *)
Fixpoint namedMetadataLoop (order : list (ptr * value)) (resolvedMetadata : gmap string value)
  : gmap string value :=
  match order with
  | [] => resolvedMetadata
  | (config, obj) :: order' =>
      namedMetadataLoop order' (<[GetName config := obj]> resolvedMetadata)
  end.

(** [GetDataForAuthorization], for the orders in which the loops visit
    [pipeline.Identity] and the map that [GetResolvedMetadata] returns. *)
Definition GetDataForAuthorization (pipeline : AuthPipeline)
    (identityOrder resolvedOrder : list (ptr * value)) : authorizationData :=
  {| Context := envoy_auth.Attributes (Request pipeline);
     AuthData := {| identity := (GetResolvedIdentity identityOrder).2;
                    metadata := namedMetadataLoop resolvedOrder ∅ |} |}.

(** What a call of [GetDataForAuthorization] may return. *)
Definition GetDataForAuthorization_returns (pipeline : AuthPipeline)
    (data : authorizationData) : Prop :=
  exists identityOrder metadataOrder resolvedOrder,
    ranges (Identity pipeline) identityOrder
    /\ ranges (Metadata pipeline) metadataOrder
    /\ ranges (GetResolvedMetadata metadataOrder) resolvedOrder
    /\ data = GetDataForAuthorization pipeline identityOrder resolvedOrder.

End GetDataForAuthorization.

(** [GetRequest], [GetHttp] and [GetAPI]. *)
Definition GetRequest (pipeline : AuthPipeline) : envoy_auth.CheckRequest :=
  Request pipeline.

Definition GetHttp (pipeline : AuthPipeline) : envoy_auth.HttpRequest :=
  envoy_auth.Http (envoy_auth.Request (envoy_auth.Attributes (Request pipeline))).

Definition GetAPI (pipeline : AuthPipeline) : APIConfig := API pipeline.

(** The number of goroutines of a wait group that are inside
    [config.Call]. *)
Fixpoint inFlight (wg : list goroutine) : nat :=
  match wg with
  | [] => 0
  | Calling _ :: wg' => S (inFlight wg')
  | Spawned _ :: wg' => inFlight wg'
  end.

(** Whether the context is cancelled at the end of the schedule
    [sequential]. *)
Fixpoint sequentialCancelled (es : strategy)
    (call : AuthConfigEvaluator -> value * option error)
    (authConfigs : list AuthConfigEvaluator) (cancelled : bool) : bool :=
  match authConfigs with
  | [] => cancelled
  | config :: rest =>
      let '(_, cb) :=
        evaluateAuthConfig config (CheckContext cancelled) (call config)
          (callbacks es).1 (callbacks es).2 in
      sequentialCancelled es call rest (fire cb cancelled)
  end.

(** The runner whose goroutines start under a context that is cancelled
    already. *)
Definition spawnCancelled (authConfigs : list AuthConfigEvaluator) : runner :=
  {| ctxCancelled := true; waitGroup := map Spawned authConfigs; respChannel := [] |}.

End service.

(** ** The pattern-matching evaluator ([package authorization])

    Its source is not among the files at hand, only its test [TestCall];
    the definitions of this module follow the specification. *)

Module authorization.

(** Modelled from the spec: the operators of a [JSONPatternMatchingRule],
    "one of eq, neq, incl, excl, matches". *)
Inductive operator : Type := OpEq | OpNeq | OpIncl | OpExcl | OpMatches.

(** Modelled from the spec: [JSONPatternMatchingRule], "selector: dot-path
    string, operator, value: string". *)
Record JSONPatternMatchingRule : Type := {
  Selector : string;
  Operator : operator;
  Value : string
}.

(** Modelled from the spec: the regular expressions of [matches], "value is
    compiled as a regular expression and must match string(actual); a
    compile error is returned as-is".  The specification names no dialect
    and no error text: the evaluator is modelled over any engine that
    compiles a text to an expression or to an error, and tells whether an
    expression matches a text. *)
Record engine : Type := {
  Regexp : Type;
  Compile : string -> Regexp + error;
  MatchString : Regexp -> string -> bool
}.

(** *** The selector engine *)

Definition digitValue (c : ascii) : nat := N.to_nat (N_of_ascii c) - 48.

(** Modelled from the spec: the text of a purely numeric segment as an
    index, read digit by digit from the left. *)
Fixpoint digits (s : string) (acc : nat) : option nat :=
  match s with
  | EmptyString => Some acc
  | String c s' => if regexp.isDigit c then digits s' (10 * acc + digitValue c) else None
  end.

Definition numeric (segment : string) : option nat :=
  match segment with
  | EmptyString => None
  | _ => digits segment 0
  end.

Fixpoint field (key : string) (fields : list (string * value)) : option value :=
  match fields with
  | [] => None
  | (k, v) :: fields' => if String.eqb k key then Some v else field key fields'
  end.

(** Modelled from the spec: the selector engine, which "descends one segment
    at a time.  On a mapping, the segment is the key.  On a sequence
    followed by a purely numeric segment, the segment is the index.  Absent
    paths produce a missing sentinel" ([None]). *)
Fixpoint descend (segments : list string) (node : value) : option value :=
  match segments with
  | [] => Some node
  | segment :: segments' =>
      match node with
      | VObject fields =>
          match field segment fields with
          | Some child => descend segments' child
          | None => None
          end
      | VArray items =>
          match numeric segment with
          | Some i =>
              match items !! i with
              | Some child => descend segments' child
              | None => None
              end
          | None => None
          end
      | _ => None
      end
  end.

Definition resolve (selector : string) (json : value) : option value :=
  descend (strings.Split selector ".") json.

(** Modelled from the spec: "a purely numeric segment", one or more decimal
    digits, with the number they write in positional notation. *)
Inductive spec_numeral : string -> nat -> Prop :=
| numeral_digit c :
    regexp.isDigit c = true -> spec_numeral (String c EmptyString) (digitValue c)
| numeral_more c s n :
    regexp.isDigit c = true -> spec_numeral s n ->
    spec_numeral (String c s) (digitValue c * 10 ^ String.length s + n).

(** Modelled from the spec: what a path of segments selects in a tree of
    mappings, sequences and scalars, as a relation: nothing is related to a
    path that is absent.  A mapping is read at the first entry of the
    key. *)
Inductive spec_selects : list string -> value -> value -> Prop :=
| selects_node node : spec_selects [] node node
| selects_key key segments before child after node :
    Forall (fun entry : string * value => entry.1 <> key) before ->
    spec_selects segments child node ->
    spec_selects (key :: segments) (VObject (before ++ (key, child) :: after)) node
| selects_index segment segments items i child node :
    spec_numeral segment i -> items !! i = Some child ->
    spec_selects segments child node ->
    spec_selects (segment :: segments) (VArray items) node.

(** *** The operators *)

(** Modelled from the spec: [string(actual)], "the natural JSON-string
    representation of the resolved node for scalars".  The specification
    gives a string form to scalars only: a sequence or a mapping has none
    here, as a missing selector has none. *)
Definition stringOf (node : value) : option string :=
  match node with
  | VString s => Some s
  | VNumber literal => Some literal
  | VBool true => Some "true"
  | VBool false => Some "false"
  | VNull => Some "null"
  | VArray _ | VObject _ => None
  end.

(** [string(actual) == expected]; "missing selectors yield an empty/absent
    value that fails equality checks and membership checks alike". *)
Definition equal (actual : option value) (expected : string) : bool :=
  match actual with
  | Some node =>
      match stringOf node with
      | Some s => String.eqb s expected
      | None => false
      end
  | None => false
  end.

(** Whether the sequence [actual] has an element whose string form is
    [expected]; [None] when [actual] is not a sequence. *)
Definition contains (actual : option value) (expected : string) : option bool :=
  match actual with
  | Some (VArray items) => Some (existsb (fun item => equal (Some item) expected) items)
  | _ => None
  end.

Definition unauthorizedErrorMsg : string := "Unauthorized".

Section JSONPatternMatching.

Variable E : engine.

(** [re.MatchString(string(actual))] *)
Definition matched (re : Regexp E) (actual : option value) : bool :=
  match actual with
  | Some node =>
      match stringOf node with
      | Some s => MatchString E re s
      | None => false
      end
  | None => false
  end.

(** Modelled from the spec: the operator table.  [inl b]: the rule holds or
    not; [inr err]: the regular expression of a [matches] rule does not
    compile, and [err] is the error of the engine. *)
Definition evaluateRule (json : value) (rule : JSONPatternMatchingRule) : bool + error :=
  let actual := resolve (Selector rule) json in
  match Operator rule with
  | OpEq => inl (equal actual (Value rule))
  | OpNeq => inl (negb (equal actual (Value rule)))
  | OpIncl =>
      match contains actual (Value rule) with
      | Some b => inl b
      | None => inl false
      end
  | OpExcl =>
      match contains actual (Value rule) with
      | Some b => inl (negb b)
      | None => inl false
      end
  | OpMatches =>
      match Compile E (Value rule) with
      | inr err => inr err
      | inl re => inl (matched re actual)
      end
  end.

(** Modelled from the spec: [JSONPatternMatching.Call] over the parsed
    authorization JSON, rule by rule: "If every rule holds, return (true,
    nil).  If any rule fails, return (false, Unauthorized).  If the regex
    fails to compile, return (false, parse error)." *)
Fixpoint Call (rules : list JSONPatternMatchingRule) (json : value) : bool * option error :=
  match rules with
  | [] => (true, None)
  | rule :: rules' =>
      match evaluateRule json rule with
      | inl true => Call rules' json
      | inl false => (false, Some (Errorf unauthorizedErrorMsg))
      | inr err => (false, Some err)
      end
  end.

(** *** The operator table, row by row *)

(** The selector resolves to a node whose string form is [s]. *)
Definition spec_string (selector : string) (json : value) (s : string) : Prop :=
  exists node,
    spec_selects (strings.Split selector ".") json node /\ stringOf node = Some s.

(** Modelled from the spec: the rule's "operator holds for its resolved
    selector value", one constructor per row of the table:
    eq, [string(actual) == value];
    neq, [string(actual) != value];
    incl, "actual is a sequence containing an element whose string form
    equals value";
    excl, "actual is a sequence that does NOT contain value";
    matches, "value is compiled as a regular expression and must match
    string(actual)". *)
Inductive spec_holds (json : value) (rule : JSONPatternMatchingRule) : Prop :=
| holds_eq :
    Operator rule = OpEq ->
    spec_string (Selector rule) json (Value rule) ->
    spec_holds json rule
| holds_neq :
    Operator rule = OpNeq ->
    ~ spec_string (Selector rule) json (Value rule) ->
    spec_holds json rule
| holds_incl items item :
    Operator rule = OpIncl ->
    spec_selects (strings.Split (Selector rule) ".") json (VArray items) ->
    item ∈ items -> stringOf item = Some (Value rule) ->
    spec_holds json rule
| holds_excl items :
    Operator rule = OpExcl ->
    spec_selects (strings.Split (Selector rule) ".") json (VArray items) ->
    (forall item, item ∈ items -> stringOf item <> Some (Value rule)) ->
    spec_holds json rule
| holds_matches re s :
    Operator rule = OpMatches ->
    Compile E (Value rule) = inl re ->
    spec_string (Selector rule) json s ->
    MatchString E re s = true ->
    spec_holds json rule.

(** "A matches rule's value does not compile as a regular expression";
    [err] is "the regex parse error". *)
Definition spec_invalid (rule : JSONPatternMatchingRule) (err : error) : Prop :=
  Operator rule = OpMatches /\ Compile E (Value rule) = inr err.

(** The rule fails: its regular expression compiles, if it has one, and its
    operator does not hold. *)
Definition spec_fails (json : value) (rule : JSONPatternMatchingRule) : Prop :=
  ~ spec_holds json rule /\ forall err, ~ spec_invalid rule err.

End JSONPatternMatching.

End authorization.

(** ** Data of the scenarios *)

Module scenario.

Import service.
Local Open Scope N_scope.

Definition request : envoy_auth.CheckRequest :=
  {| envoy_auth.Attributes :=
       {| envoy_auth.Request :=
            {| envoy_auth.Http :=
                 {| envoy_auth.Headers := {[ "x-secret-header" := "no-one-knows" ]};
                    envoy_auth.Path := "/p" |} |} |} |}.

(** An API without any config. *)
Definition noConfigs : APIConfig :=
  {| IdentityConfigs := []; MetadataConfigs := []; AuthorizationConfigs := [] |}.

(** An API without identity configs and with one authorization config. *)
Definition authorizationOnly : APIConfig :=
  {| IdentityConfigs := []; MetadataConfigs := [];
     AuthorizationConfigs := [AuthorizationConfig 7] |}.

(** An API with two configs of each kind. *)
Definition api : APIConfig :=
  {| IdentityConfigs := [IdentityConfig 1; IdentityConfig 2];
     MetadataConfigs := [MetadataConfig 3; MetadataConfig 4];
     AuthorizationConfigs := [AuthorizationConfig 5; AuthorizationConfig 6] |}.

(** Evaluators: identity 1 fails and 2 succeeds, metadata 3 succeeds and 4
    fails, the authorization evaluators allow. *)
Definition call (config : AuthConfigEvaluator) : value * option error :=
  match config with
  | IdentityConfig 1 => (VNull, Some (Errorf "credential not found"))
  | IdentityConfig _ => (VString "alice", None)
  | MetadataConfig 3 => (VString "geo", None)
  | MetadataConfig _ => (VNull, Some (Errorf "timeout"))
  | _ => (VBool true, None)
  end.

(** Evaluators that all fail. *)
Definition deny (config : AuthConfigEvaluator) : value * option error :=
  match config with
  | IdentityConfig 1 => (VNull, Some (Errorf "credential not found"))
  | _ => (VNull, Some (Errorf "invalid token"))
  end.

(** An authorization evaluator that reports success with the object
    [false]. *)
Definition allowFalse (config : AuthConfigEvaluator) : value * option error :=
  (VBool false, None).

(** The authorization JSON of [TestCall]. *)
Definition authJSON : value :=
  VObject
    [ ("context",
       VObject
         [ ("request",
            VObject
              [ ("http",
                 VObject
                   [ ("headers",
                      VObject [ ("x-secret-header", VString "no-one-knows");
                                ("x-origin", VString "some-origin") ]) ]) ]) ]);
      ("auth",
       VObject
         [ ("identity", VString "some-user-data");
           ("metadata",
            VObject [ ("letters", VArray [VString "a"; VString "b"; VString "c"]) ]) ]) ].

Definition rule (selector : string) (op : authorization.operator) (expected : string)
  : authorization.JSONPatternMatchingRule :=
  {| authorization.Selector := selector; authorization.Operator := op;
     authorization.Value := expected |}.

Definition secretHeader : string := "context.request.http.headers.x-secret-header".
Definition letters : string := "auth.metadata.letters".

(** The rule lists "multiple rules" and "multiple rules with at least one
    unauthorized" of [TestCall]. *)
Definition rulesAllowed : list authorization.JSONPatternMatchingRule :=
  [ rule secretHeader authorization.OpEq "no-one-knows";
    rule secretHeader authorization.OpNeq "other-expected";
    rule letters authorization.OpIncl "a";
    rule letters authorization.OpIncl "c";
    rule letters authorization.OpExcl "d" ].

Definition rulesDenied : list authorization.JSONPatternMatchingRule :=
  [ rule secretHeader authorization.OpEq "no-one-knows";
    rule secretHeader authorization.OpNeq "no-one-knows";
    rule letters authorization.OpIncl "xxxxx";
    rule letters authorization.OpIncl "c";
    rule letters authorization.OpExcl "d" ].

(** A rule that fails on [authJSON], and the [matches] rule of [TestCall]
    whose value does not compile. *)
Definition failing : authorization.JSONPatternMatchingRule :=
  rule secretHeader authorization.OpEq "other-expected".

Definition invalid : authorization.JSONPatternMatchingRule :=
  rule secretHeader authorization.OpMatches "$$^[not-a-regex".

(** The text of a [regexp/syntax] error: [error parsing regexp: ], the code
    and, between backquotes, the offending part of the expression. *)
Definition parseError (code expr : string) : error :=
  Errorf ("error parsing regexp: " ++ code ++ ": `" ++ expr ++ "`")%string.

(** The engine of the examples: Go's [regexp] on the patterns and texts of
    the modelled fragment.  [offending] gives the part of an expression
    that Go quotes in a parse error, which the parser above does not keep.
    This engine refuses what lies beyond the fragment; no example has such
    a pattern or text. *)
Definition fragment (offending : string -> string) : authorization.engine :=
  {| authorization.Regexp := regexp.Regexp;
     authorization.Compile expr :=
       match regexp.Compile expr with
       | regexp.Parsed re => inl re
       | regexp.SyntaxError code => inr (parseError code (offending expr))
       | regexp.Unsupported => inr (Errorf "beyond the modelled fragment")
       end;
     authorization.MatchString re s :=
       match regexp.MatchString re s with
       | Some b => b
       | None => false
       end |}.

(** What Go quotes of the invalid expression of [TestCall]: the range
    [t-a] of its bracket. *)
Definition quoted (expr : string) : string := "t-a".

(** [jsonAuth.Call(pipelineMock, nil)] of [TestCall]. *)
Definition testCall (rules : list authorization.JSONPatternMatchingRule)
  : bool * option error :=
  authorization.Call (fragment quoted) rules authJSON.

Definition allowed : bool * option error := (true, None).

Definition unauthorized : bool * option error := (false, Some (Errorf "Unauthorized")).

(** A pipeline after its identity and metadata phases: metadata config 4
    resolved to a null object. *)
Definition resolved : AuthPipeline :=
  {| Request := request; API := api;
     Identity := {[ 2 := VString "alice" ]};
     Metadata := <[ 3 := VString "DE" ]> {[ 4 := VNull ]};
     Authorization := ∅ |}.

(** The names of the metadata configs. *)
Definition name (config : ptr) : string :=
  if config =? 3 then "geo" else "other".

End scenario.

(** * Properties *)

(** ** Byte strings *)

Section StringFacts.

Local Open Scope string_scope.

Lemma substring_zero_append (p rest : string) :
  substring 0 (String.length p) (p ++ rest) = p.
Proof. induction p as [|c p IH]; simpl; [by destruct rest | by rewrite IH]. Qed.

Lemma substring_full (s : string) : substring 0 (String.length s) s = s.
Proof. induction s as [|c s IH]; simpl; [done | by f_equal]. Qed.

Lemma substring_skip_append (p rest : string) :
  substring (String.length p) (String.length rest) (p ++ rest) = rest.
Proof. induction p as [|c p IH]; simpl; [apply substring_full | done]. Qed.

Lemma length_append (p rest : string) :
  String.length (p ++ rest) = (String.length p + String.length rest)%nat.
Proof. induction p as [|c p IH]; simpl; [done | by rewrite IH]. Qed.

Lemma substring_split (n : nat) (s : string) :
  (n <= String.length s)%nat ->
  s = substring 0 n s ++ substring n (String.length s - n) s.
Proof.
  revert s. induction n as [|n IH]; intros s Hn.
  - rewrite Nat.sub_0_r, substring_full. by destruct s.
  - destruct s as [|c s]; simpl in *; [lia|].
    change (String c s = String c (substring 0 n s ++ substring n (String.length s - n) s)).
    f_equal. apply IH. lia.
Qed.

Lemma HasPrefix_append (p rest : string) : strings.HasPrefix (p ++ rest) p = true.
Proof.
  unfold strings.HasPrefix, strings.len.
  rewrite substring_zero_append, String.eqb_refl, length_append.
  rewrite andb_true_r. apply Nat.leb_le. lia.
Qed.

Lemma HasPrefix_inv (s p : string) :
  strings.HasPrefix s p = true -> exists rest, s = p ++ rest.
Proof.
  unfold strings.HasPrefix, strings.len.
  intros [Hlen Heq]%andb_true_iff.
  apply Nat.leb_le in Hlen. apply String.eqb_eq in Heq.
  exists (substring (String.length p) (String.length s - String.length p) s).
  rewrite <- Heq at 1. by apply substring_split.
Qed.

Lemma TrimPrefix_append (p rest : string) : strings.TrimPrefix (p ++ rest) p = rest.
Proof.
  unfold strings.TrimPrefix. rewrite HasPrefix_append.
  unfold strings.len. rewrite length_append.
  replace (String.length p + String.length rest - String.length p)%nat
    with (String.length rest) by lia.
  apply substring_skip_append.
Qed.

Lemma Split_free_of (sep : ascii) (s : string) :
  strings.free_of sep s -> strings.Split s sep = [s].
Proof.
  induction s as [|c s IH]; simpl; [done|].
  intros [Hc Hs]. apply Ascii.eqb_neq in Hc. rewrite Hc, (IH Hs). done.
Qed.

Lemma append_assoc (a b c : string) : (a ++ b) ++ c = a ++ b ++ c.
Proof.
  induction a as [|x a IH]; [done|].
  change (String x ((a ++ b) ++ c) = String x (a ++ b ++ c)). by f_equal.
Qed.

Lemma Split_nonempty (sep : ascii) (s : string) : strings.Split s sep <> [].
Proof.
  induction s as [|c s IH]; simpl; [done|].
  destruct (Ascii.eqb c sep); [done|].
  by destruct (strings.Split s sep).
Qed.

Lemma Split_append (sep : ascii) (a b : string) :
  strings.free_of sep a ->
  strings.Split (a ++ String sep b) sep = a :: strings.Split b sep.
Proof.
  induction a as [|c a IH]; intros Hfree.
  - change (strings.Split (String sep b) sep = EmptyString :: strings.Split b sep).
    simpl. by rewrite Ascii.eqb_refl.
  - destruct Hfree as [Hc Hfree]. apply Ascii.eqb_neq in Hc.
    change (strings.Split (String c (a ++ String sep b)) sep
            = String c a :: strings.Split b sep).
    simpl. by rewrite Hc, (IH Hfree).
Qed.

Example TrimSpace_ascii : strings.TrimSpace "  token=xyz	 " = "token=xyz".
Proof. vm_compute. reflexivity. Qed.

(** A no-break space in front and a line separator behind. *)
Example TrimSpace_unicode :
  strings.TrimSpace (strings.bytes [194; 160; 97; 226; 128; 168]%N) = "a".
Proof. vm_compute. reflexivity. Qed.

End StringFacts.

(** ** The credential locator *)

Section Locator.

Import auth_credentials.
Local Open Scope string_scope.

Variable headers : gmap string string.
Variable path : string.
Variable keySelector : string.

Lemma extract_authorization_header :
  extract keySelector "authorization_header" headers path
  = getCredFromAuthHeader headers keySelector.
Proof. reflexivity. Qed.

Lemma extract_cookie :
  extract keySelector "cookie" headers path = getFromCookieHeader headers keySelector.
Proof. reflexivity. Qed.

Lemma extract_query :
  extract keySelector "query" headers path = getCredFromQuery path keySelector.
Proof. reflexivity. Qed.

(** C6.  With [in = "authorization_header"], the locator returns what
    follows the prefix [keySelector] plus a space in the [authorization]
    header; it fails with the credential-not-found error when the header
    is absent, and when the header does not begin with that prefix. *)
Theorem authorization_header_extraction :
  (forall rest : string,
      headers !! "authorization" = Some (keySelector ++ " " ++ rest) ->
      extract keySelector "authorization_header" headers path = Ok rest)
  /\ (headers !! "authorization" = None ->
      extract keySelector "authorization_header" headers path = Err notFoundErr)
  /\ (forall header : string,
      headers !! "authorization" = Some header ->
      (forall rest : string, header <> keySelector ++ " " ++ rest) ->
      extract keySelector "authorization_header" headers path = Err notFoundErr).
Proof.
  rewrite extract_authorization_header. unfold getCredFromAuthHeader.
  split; [|split].
  - intros rest ->.
    by rewrite <- append_assoc, HasPrefix_append, TrimPrefix_append.
  - by intros ->.
  - intros header -> Hno.
    destruct (strings.HasPrefix header (keySelector ++ " ")) eqn:Hp; [|done].
    apply HasPrefix_inv in Hp as [rest ->].
    exfalso. apply (Hno rest), append_assoc.
Qed.

(** C9.  When the part of the cookie header that is reached first with the
    key [keySelector] has no [=] at all, [keyAndValue] has one element and
    [keyAndValue[1]] is out of range: the locator neither returns a
    credential nor the credential-not-found error. *)
Theorem cookie_without_equals_panics (header part : string) (before after : list string) :
  headers !! "cookie" = Some header ->
  strings.Split header ";" = (before ++ part :: after)%list ->
  Forall (fun p => head (strings.Split (strings.TrimSpace p) "=") <> Some keySelector) before ->
  strings.TrimSpace part = keySelector ->
  strings.free_of "=" keySelector ->
  extract keySelector "cookie" headers path = Panic (IndexOutOfRange 1 1).
Proof.
  intros Hcookie Hsplit Hbefore Htrim Hfree.
  rewrite extract_cookie. unfold getFromCookieHeader. rewrite Hcookie, Hsplit.
  clear Hcookie Hsplit.
  induction Hbefore as [|p before Hp _ IH]; simpl.
  - rewrite Htrim, (Split_free_of _ _ Hfree). simpl.
    by rewrite String.eqb_refl.
  - pose proof (Split_nonempty "=" (strings.TrimSpace p)) as Hne.
    destruct (strings.Split (strings.TrimSpace p) "=") as [|key values]; simpl in *.
    + done.
    + destruct (String.eqb_spec key keySelector) as [->|_]; [done | exact IH].
Qed.

(** Where the value holds no [=], the cookie loop returns it whole. *)
Lemma cookie_single_pair (value : string) :
  headers !! "cookie" = Some (keySelector ++ String "=" value) ->
  strings.free_of ";" (keySelector ++ String "=" value) ->
  strings.TrimSpace (keySelector ++ String "=" value) = keySelector ++ String "=" value ->
  strings.free_of "=" keySelector ->
  strings.free_of "=" value ->
  extract keySelector "cookie" headers path = Ok value.
Proof.
  intros Hcookie Hsemi Htrim Hkey Hvalue.
  rewrite extract_cookie. unfold getFromCookieHeader.
  rewrite Hcookie, (Split_free_of _ _ Hsemi). simpl.
  rewrite Htrim, (Split_append _ _ _ Hkey), (Split_free_of _ _ Hvalue). simpl.
  by rewrite String.eqb_refl.
Qed.

End Locator.

Section LocatorScenarios.

Import auth_credentials.
Local Open Scope string_scope.

Lemma authorization_header_extraction_witness :
  extract "Bearer" "authorization_header" {[ "authorization" := "Bearer abc" ]} "/" = Ok "abc"
  /\ extract "Bearer" "authorization_header" ∅ "/" = Err notFoundErr
  /\ extract "Bearer" "authorization_header" {[ "authorization" := "Basic abc" ]} "/"
     = Err notFoundErr.
Proof.
  split; [|split].
  - apply (proj1 (authorization_header_extraction
                    {[ "authorization" := "Bearer abc" ]} "/" "Bearer")).
    vm_compute. reflexivity.
  - apply (proj1 (proj2 (authorization_header_extraction ∅ "/" "Bearer"))).
    vm_compute. reflexivity.
  - apply (proj2 (proj2 (authorization_header_extraction
                           {[ "authorization" := "Basic abc" ]} "/" "Bearer"))
             "Basic abc").
    + vm_compute. reflexivity.
    + intros rest H. vm_compute in H. discriminate H.
Defined.

Lemma cookie_without_equals_panics_witness :
  extract "token" "cookie" {[ "cookie" := "token" ]} "/" = Panic (IndexOutOfRange 1 1).
Proof.
  apply (cookie_without_equals_panics {[ "cookie" := "token" ]} "/" "token"
           "token" "token" [] []).
  - vm_compute. reflexivity.
  - vm_compute. reflexivity.
  - constructor.
  - vm_compute. reflexivity.
  - simpl. repeat split; discriminate.
Defined.

(** The same panic behind a well-formed cookie. *)
Example cookie_flag_after_pair :
  extract "token" "cookie" {[ "cookie" := "a=1; token; b=2" ]} "/"
  = Panic (IndexOutOfRange 1 1).
Proof. vm_compute. reflexivity. Qed.

(** C5.  The cookie loop splits a part on every [=], not on the first one:
    for the cookie [token=x=y] it returns the text between the first and
    the second [=], where the value of the cookie is [x=y]. *)
Theorem cookie_value_cut_at_second_equals :
  extract "token" "cookie" {[ "cookie" := "a=1; token=x=y; b=2" ]} "/" = Ok "x"
  /\ strings.Split "token=x=y" "=" = ["token"; "x"; "y"].
Proof. split; vm_compute; reflexivity. Qed.

(** The scenarios of the specification for the locator. *)
Example scenario_authorization_header :
  extract "Bearer" "authorization_header" {[ "authorization" := "Bearer abc" ]} "/" = Ok "abc".
Proof. vm_compute. reflexivity. Qed.

Example scenario_cookie :
  extract "token" "cookie" {[ "cookie" := "a=1; token=xyz; b=2" ]} "/" = Ok "xyz".
Proof. vm_compute. reflexivity. Qed.

Example scenario_query :
  extract "token" "query" ∅ "/p?foo=1&token=xyz&bar=2" = Ok "xyz".
Proof. vm_compute. reflexivity. Qed.

Example scenario_custom_header :
  extract "X-API-Key" "custom_header" {[ "x-api-key" := "k" ]} "/" = Ok "k".
Proof. vm_compute. reflexivity. Qed.

Example scenario_unsupported_location :
  extract "token" "body" ∅ "/" = Err (Errorf credentialLocationNotSupportedMsg).
Proof. vm_compute. reflexivity. Qed.

(** C10.  The query locator splices [keySelector] into a regular
    expression.  With the key [a.c] it finds a credential in a path where
    the literal text [a.c=] does not occur; with the key [(] the expression
    does not compile and [MustCompile] panics. *)
Theorem query_key_is_a_regexp :
  (extract "a.c" "query" ∅ "/p?abc=1" = Ok "1"
   /\ spec_literalQuery "/p?abc=1" "a.c" = Err notFoundErr)
  /\ extract "(" "query" ∅ "/p?a=1" = Panic (MustCompilePanic regexp.ErrMissingParen).
Proof. repeat split; vm_compute; reflexivity. Qed.

(** With the key [a[] the expression does compile: the bracket opens a
    class that the [[^&]] of the pattern closes, the named group is gone,
    and the panic comes from [matches[-1]]. *)
Remark query_key_open_bracket :
  (exists re, regexp.Compile "([?&]a[=)(?P<credValue>[^&]*)" = regexp.Parsed re
              /\ regexp.SubexpIndex re credValue = (-1)%Z)
  /\ extract "a[" "query" ∅ "/p?a=1" = Panic (IndexOutOfRange (-1) 2)
  /\ extract "a[" "query" ∅ "/p" = Err notFoundErr.
Proof.
  split; [|split; vm_compute; reflexivity].
  eexists. split; vm_compute; reflexivity.
Qed.

(** On keys and paths without metacharacters the two readings agree. *)
Example query_literal_agrees :
  spec_literalQuery "/p?foo=1&token=xyz&bar=2" "token" = Ok "xyz".
Proof. vm_compute. reflexivity. Qed.

End LocatorScenarios.

(** ** The concurrent runner *)

Section Runner.

Import service.

Variable es : strategy.

(** A call that was made sends one response, for its own config; a failed
    call sends no object. *)
Lemma evaluateAuthConfig_called config call successCallback failureCallback resp cb :
  evaluateAuthConfig config None call successCallback failureCallback = (resp, cb) ->
  exists r, resp = Some r /\ Evaluator r = config
            /\ (Success r = true /\ Object r = call.1 /\ call.2 = None /\ cb = successCallback
                \/ Success r = false /\ Object r = VNull /\ Error r = call.2
                   /\ cb = failureCallback).
Proof.
  destruct call as [authObj [err|]]; simpl; intros [= <- <-]; eexists;
    (split; [done|]); (split; [done|]); [right | left]; done.
Qed.

Lemma step_accounted authConfigs r r' :
  step es r r' -> accounted authConfigs r -> accounted authConfigs r'.
Proof.
  unfold accounted.
  intros Hstep Hacc. destruct Hstep as
      [r | r before after config err Hwg _ | r before after config Hwg _
       | r before after config call resp cb Hwg Hcall]; simpl.
  - done.
  - rewrite Hwg in Hacc. etrans; [|exact Hacc].
    apply submseteq_skips_l. rewrite !map_app. simpl.
    apply submseteq_skips_l. by apply submseteq_cons.
  - rewrite Hwg in Hacc. by rewrite !map_app in *.
  - apply evaluateAuthConfig_called in Hcall as (resp' & -> & Hev & _).
    rewrite Hwg in Hacc. etrans; [|exact Hacc]. simpl.
    apply Permutation_submseteq.
    rewrite !map_app. simpl. rewrite Hev.
    rewrite <- !(assoc_L (++)). apply Permutation_app_head. simpl.
    by rewrite Permutation_middle.
Qed.

Lemma reachable_accounted authConfigs r :
  rtc (step es) (spawn authConfigs) r -> accounted authConfigs r.
Proof.
  intros Hrtc.
  eapply (rtc_ind_r (accounted authConfigs)); [| |exact Hrtc].
  - unfold accounted, spawn. simpl. rewrite <- list_fmap_compose.
    by rewrite list_fmap_id.
  - intros r1 r2 _ Hstep IH. by eapply step_accounted.
Qed.

(** The closed channel carries at most one response per config. *)
Lemma closed_channel_accounted authConfigs closed :
  evaluateAuthConfigs authConfigs es closed ->
  map Evaluator closed ⊆+ authConfigs.
Proof.
  intros (final & Hrtc & Hwg & <-).
  apply reachable_accounted in Hrtc. unfold accounted in Hrtc.
  by rewrite Hwg, app_nil_r in Hrtc.
Qed.

Lemma closed_channel_length authConfigs closed :
  evaluateAuthConfigs authConfigs es closed -> length closed <= length authConfigs.
Proof.
  intros H%closed_channel_accounted%submseteq_length.
  by rewrite length_map in H.
Qed.

Lemma closed_channel_evaluator authConfigs closed resp :
  evaluateAuthConfigs authConfigs es closed ->
  resp ∈ closed -> Evaluator resp ∈ authConfigs.
Proof.
  intros H%closed_channel_accounted Hin.
  eapply elem_of_submseteq; [|exact H]. by apply list_elem_of_fmap_2.
Qed.

(** Without configs nothing is ever sent. *)
Lemma closed_channel_empty closed : evaluateAuthConfigs [] es closed -> closed = [].
Proof.
  intros H%closed_channel_length. destruct closed; [done | simpl in H; lia].
Qed.

Lemma closed_channel_well_formed authConfigs closed :
  evaluateAuthConfigs authConfigs es closed -> Forall well_formed closed.
Proof.
  intros (final & Hrtc & _ & <-).
  eapply (rtc_ind_r (fun r => Forall well_formed (respChannel r))); [| |exact Hrtc];
    [by constructor|].
  clear final Hrtc. intros r r' _ Hstep IH.
  destruct Hstep as
      [r | r before after config err Hwg _ | r before after config Hwg _
       | r before after config call resp cb Hwg Hcall]; simpl; try done.
  apply evaluateAuthConfig_called in Hcall as (resp' & -> & _ & Hcase). simpl.
  apply Forall_app. split; [done|]. constructor; [|constructor].
  intros Hfail. destruct Hcase as [(Hs & _) | (_ & Hobj & _)]; [congruence | done].
Qed.

Lemma sequential_cons call config rest cancelled :
  sequential es call (config :: rest) cancelled
  = let '(resp, cb) :=
      evaluateAuthConfig config (CheckContext cancelled) (call config)
        (callbacks es).1 (callbacks es).2 in
    send resp [] ++ sequential es call rest (fire cb cancelled).
Proof. reflexivity. Qed.

(** The sequential schedule is a run: the runner always terminates. *)
Lemma sequential_from call authConfigs cancelled sent :
  exists cancelled',
    rtc (step es)
      {| ctxCancelled := cancelled; waitGroup := map Spawned authConfigs;
         respChannel := sent |}
      {| ctxCancelled := cancelled'; waitGroup := [];
         respChannel := sent ++ sequential es call authConfigs cancelled |}.
Proof.
  revert cancelled sent.
  induction authConfigs as [|config rest IH]; intros cancelled sent.
  - exists cancelled. simpl. by rewrite app_nil_r.
  - rewrite sequential_cons. destruct cancelled.
    + simpl. destruct (IH true sent) as [cancelled' Hrest]. exists cancelled'.
      eapply rtc_l; [|exact Hrest].
      by apply (step_skip es
                  {| ctxCancelled := true; waitGroup := map Spawned (config :: rest);
                     respChannel := sent |} [] (map Spawned rest) config
                  (Errorf "context canceled")).
    + unfold CheckContext.
      destruct (evaluateAuthConfig config None (call config) (callbacks es).1
                  (callbacks es).2) as [resp cb] eqn:Hcall.
      destruct (IH (fire cb false) (send resp sent)) as [cancelled' Hrest].
      exists cancelled'.
      eapply rtc_l.
      { by apply (step_enter es
                    {| ctxCancelled := false; waitGroup := map Spawned (config :: rest);
                       respChannel := sent |} [] (map Spawned rest) config). }
      eapply rtc_l.
      { by apply (step_return es
                    {| ctxCancelled := false;
                       waitGroup := Calling config :: map Spawned rest;
                       respChannel := sent |} [] (map Spawned rest) config
                    (call config) resp cb). }
      simpl.
      replace (sent ++ send resp [] ++ sequential es call rest (fire cb false))
        with (send resp sent ++ sequential es call rest (fire cb false));
        [exact Hrest|].
      destruct resp; simpl; [by rewrite <- (assoc_L (++)) | done].
Qed.

(** From every state the goroutines can run to completion, and the channel
    keeps what it had: what a loop has read from the channel so far is a
    prefix of what the closed channel holds. *)
Lemma runner_finishes (call : AuthConfigEvaluator -> value * option error) r :
  exists final,
    rtc (step es) r final /\ waitGroup final = []
    /\ respChannel r `prefix_of` respChannel final.
Proof.
  destruct r as [cancelled wg sent]. revert cancelled sent.
  induction wg as [|g wg IH]; intros cancelled sent.
  - eexists. by repeat split.
  - assert (forall config cancelled0,
               exists final,
                 rtc (step es)
                   {| ctxCancelled := cancelled0; waitGroup := Calling config :: wg;
                      respChannel := sent |} final
                 /\ waitGroup final = [] /\ sent `prefix_of` respChannel final) as Hcalling.
    { intros config cancelled0.
      destruct (evaluateAuthConfig config None (call config) (callbacks es).1
                  (callbacks es).2) as [resp cb] eqn:Hcall.
      destruct (IH (fire cb cancelled0) (send resp sent)) as (final & Hrtc & Hwg & Hpre).
      exists final. split; [|split; [done|]].
      - eapply rtc_l; [|exact Hrtc].
        by apply (step_return es
                    {| ctxCancelled := cancelled0; waitGroup := Calling config :: wg;
                       respChannel := sent |} [] wg config (call config) resp cb).
      - simpl in Hpre. etrans; [|exact Hpre].
        destruct resp; simpl; [by apply prefix_app_r | done]. }
    destruct g as [config | config]; [|apply Hcalling].
    destruct cancelled.
    + destruct (IH true sent) as (final & Hrtc & Hwg & Hpre).
      exists final. split; [|done].
      eapply rtc_l; [|exact Hrtc].
      by apply (step_skip es
                  {| ctxCancelled := true; waitGroup := Spawned config :: wg;
                     respChannel := sent |} [] wg config (Errorf "context canceled")).
    + destruct (Hcalling config false) as (final & Hrtc & Hwg & Hpre).
      exists final. split; [|done].
      eapply rtc_l; [|exact Hrtc].
      by apply (step_enter es
                  {| ctxCancelled := false; waitGroup := Spawned config :: wg;
                     respChannel := sent |} [] wg config).
Qed.

Lemma sequential_run call authConfigs :
  evaluateAuthConfigs authConfigs es (sequential es call authConfigs false).
Proof.
  destruct (sequential_from call authConfigs false []) as [cancelled' Hrun].
  by eexists.
Qed.

End Runner.

(** ** The three phases *)

Section Phases.

Import service.

Implicit Types (ch : list EvaluationResponse) (pipeline : AuthPipeline).

(** *** Identity *)

Lemma identityLoop_first_success before resp rest lastError pipeline :
  Forall failed before -> Success resp = true ->
  identityLoop (before ++ resp :: rest) lastError pipeline
  = (setIdentity pipeline (asIdentityConfig (Evaluator resp)) (Object resp), None, rest).
Proof.
  intros Hbefore Hresp. revert lastError.
  induction Hbefore as [|r before Hr _ IH]; intros lastError; simpl.
  - by rewrite Hresp.
  - unfold failed in Hr. rewrite Hr. apply IH.
Qed.

Lemma identityLoop_all_failed before resp lastError pipeline :
  Forall failed (before ++ [resp]) ->
  identityLoop (before ++ [resp]) lastError pipeline = (pipeline, Error resp, []).
Proof.
  revert lastError. induction before as [|r before IH]; intros lastError Hall; simpl.
  - apply Forall_cons in Hall as [Hr _]. unfold failed in Hr. by rewrite Hr.
  - apply Forall_cons in Hall as [Hr Hall]. unfold failed in Hr. rewrite Hr.
    by apply IH.
Qed.

Lemma failed_has_error resp : failed resp -> is_Some (Error resp).
Proof. unfold failed, Success. destruct (Error resp); [by eexists | done]. Qed.

(** Every way the identity loop can end. *)
Lemma identityLoop_cases ch lastError pipeline pipeline' err rest :
  identityLoop ch lastError pipeline = (pipeline', err, rest) ->
  (exists before resp,
      ch = before ++ resp :: rest /\ Forall failed before /\ Success resp = true
      /\ pipeline' = setIdentity pipeline (asIdentityConfig (Evaluator resp)) (Object resp)
      /\ err = None)
  \/ (Forall failed ch /\ pipeline' = pipeline /\ rest = []
      /\ (ch = [] /\ err = lastError
          \/ exists before resp, ch = before ++ [resp] /\ err = Error resp)).
Proof.
  revert lastError. induction ch as [|r ch IH]; intros lastError; simpl.
  - intros [= <- <- <-]. right. repeat split; [constructor | by left].
  - destruct (Success r) eqn:Hr.
    + intros [= <- <- <-]. left. exists [], r. repeat split; [constructor | done].
    + intros [(before & resp & -> & Hbefore & Hresp & -> & ->)
             | (Hall & -> & -> & Hlast)]%IH.
      * left. exists (r :: before), resp. repeat split; [by constructor | done].
      * right. repeat split; [by constructor|]. right.
        destruct Hlast as [[-> ->] | (before & resp & -> & ->)].
        -- by exists [], r.
        -- by exists (r :: before), resp.
Qed.

(** C3.  Over the channel that the first-success runner fills: the first
    successful response has its object stored in the identity map under its
    config, the phase returns no error and leaves the later responses
    unread; when every response is a failure, the phase returns the error
    of the last response read.  (A channel that is closed without any
    response leaves [lastError] nil.) *)
Theorem identity_phase_result authConfigs ch pipeline :
  evaluateAuthConfigs authConfigs evaluateOneAuthConfig ch ->
  (forall before resp rest,
      ch = before ++ resp :: rest -> Forall failed before -> Success resp = true ->
      Evaluator resp ∈ authConfigs
      /\ evaluateIdentityConfigs ch pipeline
         = (setIdentity pipeline (asIdentityConfig (Evaluator resp)) (Object resp),
            None, rest)
      /\ Identity (evaluateIdentityConfigs ch pipeline).1.1
           !! asIdentityConfig (Evaluator resp) = Some (Object resp))
  /\ (forall before resp,
      ch = before ++ [resp] -> Forall failed ch ->
      is_Some (Error resp)
      /\ evaluateIdentityConfigs ch pipeline = (pipeline, Error resp, []))
  /\ (ch = [] -> evaluateIdentityConfigs ch pipeline = (pipeline, None, [])).
Proof.
  intros Hrun. split; [|split; [|by intros ->]].
  - intros before resp rest -> Hbefore Hresp.
    unfold evaluateIdentityConfigs.
    rewrite (identityLoop_first_success _ _ _ _ _ Hbefore Hresp). simpl.
    split; [|split; [done | apply lookup_insert_eq]].
    eapply closed_channel_evaluator; [exact Hrun|].
    apply elem_of_app. right. apply list_elem_of_here.
  - intros before resp -> Hall. split.
    + apply failed_has_error. apply Forall_app in Hall as [_ Hresp].
      by apply Forall_cons in Hresp as [Hresp _].
    + by apply identityLoop_all_failed.
Qed.

(** *** Metadata *)

Lemma evaluateMetadataConfigs_fields ch pipeline :
  let pipeline' := evaluateMetadataConfigs ch pipeline in
  Metadata pipeline'
  = foldl storeMetadata (Metadata pipeline) (filter (fun r => Success r = true) ch)
  /\ Identity pipeline' = Identity pipeline
  /\ Authorization pipeline' = Authorization pipeline
  /\ Request pipeline' = Request pipeline
  /\ API pipeline' = API pipeline.
Proof.
  revert pipeline. induction ch as [|r ch IH]; intros pipeline; simpl; [done|].
  destruct (Success r) eqn:Hr.
  - rewrite filter_cons_True by done. simpl.
    destruct (IH (setMetadata pipeline (asMetadataConfig (Evaluator r)) (Object r)))
      as (-> & -> & -> & -> & ->). done.
  - rewrite filter_cons_False by (by rewrite Hr). apply IH.
Qed.

Lemma metadata_untouched ch pipeline k :
  Forall (fun r => Success r = true -> asMetadataConfig (Evaluator r) <> k) ch ->
  Metadata (evaluateMetadataConfigs ch pipeline) !! k = Metadata pipeline !! k.
Proof.
  intros Hall. revert pipeline.
  induction Hall as [|r ch Hr _ IH]; intros pipeline; simpl; [done|].
  destruct (Success r) eqn:Hs; [|apply IH].
  rewrite IH. simpl. apply lookup_insert_ne. by apply Hr.
Qed.

Lemma metadata_stored before resp after pipeline :
  Success resp = true ->
  Forall (fun r => Success r = true ->
                   asMetadataConfig (Evaluator r) <> asMetadataConfig (Evaluator resp)) after ->
  Metadata (evaluateMetadataConfigs (before ++ resp :: after) pipeline)
    !! asMetadataConfig (Evaluator resp) = Some (Object resp).
Proof.
  intros Hresp Hafter. revert pipeline.
  induction before as [|r before IH]; intros pipeline; simpl.
  - rewrite Hresp, (metadata_untouched _ _ _ Hafter). simpl. apply lookup_insert_eq.
  - destruct (Success r); apply IH.
Qed.

(** *** Authorization *)

(** The error that the authorization loop returns is read off the channel
    alone. *)
Lemma authorization_error_independent ch pipeline1 pipeline2 :
  (evaluateAuthorizationConfigs ch pipeline1).1.2
  = (evaluateAuthorizationConfigs ch pipeline2).1.2.
Proof.
  revert pipeline1 pipeline2. induction ch as [|r ch IH]; intros p1 p2; simpl; [done|].
  destruct (Success r); [apply IH | done].
Qed.

Lemma evaluateAuthorizationConfigs_cases ch pipeline pipeline' err rest :
  evaluateAuthorizationConfigs ch pipeline = (pipeline', err, rest) ->
  exists stored,
    Forall (fun r => Success r = true) stored
    /\ Authorization pipeline' = foldl storeAuthorization (Authorization pipeline) stored
    /\ Identity pipeline' = Identity pipeline
    /\ Metadata pipeline' = Metadata pipeline
    /\ (ch = stored /\ err = None /\ rest = []
        \/ exists resp, ch = stored ++ resp :: rest /\ failed resp /\ err = Error resp).
Proof.
  revert pipeline. induction ch as [|r ch IH]; intros pipeline; simpl.
  - intros [= <- <- <-]. exists []. repeat split; [constructor | by left].
  - destruct (Success r) eqn:Hr.
    + intros (stored & Hstored & -> & -> & -> & Hcase)%IH.
      exists (r :: stored). repeat split; [by constructor|].
      destruct Hcase as [(-> & -> & ->) | (resp & -> & Hresp & ->)]; [by left | right].
      by exists resp.
    + intros [= <- <- <-]. exists []. repeat split; [constructor|].
      right. by exists r.
Qed.

Lemma foldl_store_lookup (key : EvaluationResponse -> ptr) stored (m : gmap ptr value) k v :
  foldl (fun m r => <[key r := Object r]> m) m stored !! k = Some v ->
  m !! k = Some v \/ exists r, r ∈ stored /\ key r = k /\ Object r = v.
Proof.
  revert m. induction stored as [|r stored IH]; intros m; simpl; [by left|].
  intros [Hm | (r' & Hin & Hkey & Hobj)]%IH.
  - destruct (decide (key r = k)) as [<-|Hne].
    + rewrite lookup_insert_eq in Hm. injection Hm as <-.
      right. exists r. split; [apply list_elem_of_here | done].
    + rewrite lookup_insert_ne in Hm by done. by left.
  - right. exists r'. split; [by apply list_elem_of_further | done].
Qed.

End Phases.

Section Pipeline.

Import service.

Implicit Types (ch : list EvaluationResponse) (pipeline : AuthPipeline).

(** C7.  Whatever the metadata evaluators answer, the metadata phase stores
    the objects of the successful responses under their configs, in the
    order read, and nothing else: a successful response is found under its
    config unless a later successful one took the same key, and a key that
    no successful response bears keeps what it had.  The phase returns
    nothing, and the error that [Evaluate] returns is the same whatever the
    metadata channel carries. *)
Theorem metadata_phase_total authConfigs ch pipeline :
  evaluateAuthConfigs authConfigs evaluateAnyAuthConfig ch ->
  let pipeline' := evaluateMetadataConfigs ch pipeline in
  Metadata pipeline'
  = foldl storeMetadata (Metadata pipeline) (filter (fun r => Success r = true) ch)
  /\ (forall before resp after,
         ch = before ++ resp :: after -> Success resp = true ->
         Forall (fun r => Success r = true ->
                          asMetadataConfig (Evaluator r) <> asMetadataConfig (Evaluator resp))
           after ->
         Metadata pipeline' !! asMetadataConfig (Evaluator resp) = Some (Object resp))
  /\ (forall k,
         Forall (fun r => Success r = true -> asMetadataConfig (Evaluator r) <> k) ch ->
         Metadata pipeline' !! k = Metadata pipeline !! k)
  /\ Forall (fun r => Evaluator r ∈ authConfigs) ch
  /\ (Identity pipeline' = Identity pipeline
      /\ Authorization pipeline' = Authorization pipeline
      /\ Request pipeline' = Request pipeline /\ API pipeline' = API pipeline)
  /\ (forall identityCh authorizationCh otherCh,
         (Evaluate identityCh ch authorizationCh pipeline).2
         = (Evaluate identityCh otherCh authorizationCh pipeline).2).
Proof.
  intros Hrun pipeline'.
  destruct (evaluateMetadataConfigs_fields ch pipeline) as (Hm & Hi & Ha & Hr & Hapi).
  split; [exact Hm|].
  split; [by intros before resp after ->; apply metadata_stored|].
  split; [by intros k; apply metadata_untouched|].
  split; [|split; [done|]].
  - apply Forall_forall. intros r Hin. by eapply closed_channel_evaluator.
  - intros identityCh authorizationCh otherCh. unfold Evaluate.
    destruct (evaluateIdentityConfigs identityCh pipeline) as [[p1 [err|]] rest]; [done|].
    pose proof (authorization_error_independent authorizationCh
                  (evaluateMetadataConfigs ch p1) (evaluateMetadataConfigs otherCh p1)) as H.
    destruct (evaluateAuthorizationConfigs authorizationCh (evaluateMetadataConfigs ch p1))
      as [[p3 e3] r3].
    destruct (evaluateAuthorizationConfigs authorizationCh
                (evaluateMetadataConfigs otherCh p1)) as [[p3' e3'] r3'].
    simpl in H. subst e3'. by destruct e3.
Qed.

Lemma metadata_phase_total_witness :
  Metadata (evaluateMetadataConfigs
              (sequential evaluateAnyAuthConfig scenario.call
                 (MetadataConfigs scenario.api) false)
              (NewAuthPipeline scenario.request scenario.api))
  = <[3%N := VString "geo"]> ∅.
Proof.
  exact (proj1 (metadata_phase_total (MetadataConfigs scenario.api) _
                  (NewAuthPipeline scenario.request scenario.api)
                  (sequential_run evaluateAnyAuthConfig scenario.call
                     (MetadataConfigs scenario.api)))).
Defined.

(** C1, as the code has it.  An empty list of identity configs makes the
    identity phase return no error and store nothing; an empty list of
    metadata configs makes the metadata phase a no-op; an empty list of
    authorization configs makes the authorization phase return no error.
    With the two latter lists empty, [Evaluate] returns no error once the
    identity phase has returned none; with the three lists empty, it
    returns no error and leaves the pipeline as it was. *)
Theorem empty_list_laws pipeline :
  (forall ch,
      IdentityConfigs (API pipeline) = [] ->
      evaluateAuthConfigs (IdentityConfigs (API pipeline)) evaluateOneAuthConfig ch ->
      evaluateIdentityConfigs ch pipeline = (pipeline, None, []))
  /\ (forall ch,
      MetadataConfigs (API pipeline) = [] ->
      evaluateAuthConfigs (MetadataConfigs (API pipeline)) evaluateAnyAuthConfig ch ->
      evaluateMetadataConfigs ch pipeline = pipeline)
  /\ (forall ch,
      AuthorizationConfigs (API pipeline) = [] ->
      evaluateAuthConfigs (AuthorizationConfigs (API pipeline)) evaluateAllAuthConfigs ch ->
      evaluateAuthorizationConfigs ch pipeline = (pipeline, None, []))
  /\ (forall identityCh metadataCh authorizationCh pipeline1 rest,
      MetadataConfigs (API pipeline) = [] ->
      AuthorizationConfigs (API pipeline) = [] ->
      evaluateAuthConfigs (MetadataConfigs (API pipeline)) evaluateAnyAuthConfig metadataCh ->
      evaluateAuthConfigs (AuthorizationConfigs (API pipeline)) evaluateAllAuthConfigs
        authorizationCh ->
      evaluateIdentityConfigs identityCh pipeline = (pipeline1, None, rest) ->
      Evaluate identityCh metadataCh authorizationCh pipeline = (pipeline1, None))
  /\ (IdentityConfigs (API pipeline) = [] ->
      MetadataConfigs (API pipeline) = [] ->
      AuthorizationConfigs (API pipeline) = [] ->
      Evaluate_run pipeline pipeline None
      /\ forall pipeline' err,
          Evaluate_run pipeline pipeline' err -> pipeline' = pipeline /\ err = None).
Proof.
  repeat apply conj.
  - intros ch -> ->%closed_channel_empty. done.
  - intros ch -> ->%closed_channel_empty. done.
  - intros ch -> ->%closed_channel_empty. done.
  - intros identityCh metadataCh authorizationCh pipeline1 rest -> ->
      ->%closed_channel_empty ->%closed_channel_empty Hid.
    unfold Evaluate. by rewrite Hid.
  - intros Hi Hm Ha.
    assert (forall es, evaluateAuthConfigs [] es []) as Hnil.
    { intros es. exact (sequential_run es scenario.call []). }
    split.
    + eapply (run_authorization pipeline [] [] [] pipeline []);
        rewrite ?Hi, ?Hm, ?Ha; done.
    + intros pipeline' err Hrun.
      destruct Hrun as [identityCh p1 e rest Hrun Hid
                       | identityCh metadataCh authorizationCh p1 rest p3 result
                           Hrun Hid Hrunm Hruna Hev].
      * rewrite Hi in Hrun. apply closed_channel_empty in Hrun as ->. done.
      * rewrite Hi in Hrun. rewrite Hm in Hrunm. rewrite Ha in Hruna.
        apply closed_channel_empty in Hrun as ->.
        apply closed_channel_empty in Hrunm as ->.
        apply closed_channel_empty in Hruna as ->.
        by injection Hev as <- <-.
Qed.

Lemma empty_list_laws_witness :
  Evaluate_run (NewAuthPipeline scenario.request scenario.noConfigs)
    (NewAuthPipeline scenario.request scenario.noConfigs) None.
Proof.
  apply (proj2 (proj2 (proj2 (proj2
           (empty_list_laws (NewAuthPipeline scenario.request scenario.noConfigs))))));
    reflexivity.
Defined.

(** Against C1 as stated: without identity configs the identity phase
    reads an empty channel and returns no error, and [Evaluate] allows. *)
Lemma empty_identity_list_allows :
  IdentityConfigs (API (NewAuthPipeline scenario.request scenario.noConfigs)) = []
  /\ (forall ch,
        evaluateAuthConfigs [] evaluateOneAuthConfig ch ->
        (evaluateIdentityConfigs ch
           (NewAuthPipeline scenario.request scenario.noConfigs)).1.2 = None)
  /\ Evaluate_run (NewAuthPipeline scenario.request scenario.noConfigs)
       (NewAuthPipeline scenario.request scenario.noConfigs) None.
Proof.
  split; [done|]. split.
  - by intros ch ->%closed_channel_empty.
  - assert (forall es, evaluateAuthConfigs [] es []) as Hnil.
    { intros es. exact (sequential_run es scenario.call []). }
    by eapply (run_authorization _ [] [] [] _ []).
Qed.

Lemma identity_phase_result_witness :
  evaluateIdentityConfigs
    (sequential evaluateOneAuthConfig scenario.call (IdentityConfigs scenario.api) false)
    (NewAuthPipeline scenario.request scenario.api)
  = (setIdentity (NewAuthPipeline scenario.request scenario.api) 2%N (VString "alice"),
     None, [])
  /\ evaluateIdentityConfigs
       (sequential evaluateOneAuthConfig scenario.deny (IdentityConfigs scenario.api) false)
       (NewAuthPipeline scenario.request scenario.api)
     = (NewAuthPipeline scenario.request scenario.api,
        Some (Errorf "invalid token"), []).
Proof.
  split.
  - refine (proj1 (proj2 (proj1
       (identity_phase_result (IdentityConfigs scenario.api) _
          (NewAuthPipeline scenario.request scenario.api)
          (sequential_run evaluateOneAuthConfig scenario.call
             (IdentityConfigs scenario.api)))
       [newEvaluationResponse (IdentityConfig 1%N) VNull
          (Some (Errorf "credential not found"))]
       (newEvaluationResponse (IdentityConfig 2%N) (VString "alice") None)
       [] _ _ _))).
    + reflexivity.
    + repeat constructor.
    + reflexivity.
  - refine (proj2 (proj1 (proj2
       (identity_phase_result (IdentityConfigs scenario.api) _
          (NewAuthPipeline scenario.request scenario.api)
          (sequential_run evaluateOneAuthConfig scenario.deny
             (IdentityConfigs scenario.api))))
       [newEvaluationResponse (IdentityConfig 1%N) VNull
          (Some (Errorf "credential not found"))]
       (newEvaluationResponse (IdentityConfig 2%N) VNull (Some (Errorf "invalid token")))
       _ _)).
    + reflexivity.
    + repeat constructor.
Defined.

(** C2, as the code has it.  After a run of [Evaluate] on a fresh pipeline
    that returns no error, the identity map is empty when the identity
    channel carried no response, and otherwise holds exactly one entry: the
    object of the first successful identity response, under its config.
    Every authorization response was a success, every entry of the
    authorization map is the object of one of them, and the entries are
    truthy as soon as the successful responses carry truthy objects. *)
Theorem evaluate_success_invariant req api identityCh metadataCh authorizationCh pipeline' :
  evaluateAuthConfigs (IdentityConfigs api) evaluateOneAuthConfig identityCh ->
  evaluateAuthConfigs (MetadataConfigs api) evaluateAnyAuthConfig metadataCh ->
  evaluateAuthConfigs (AuthorizationConfigs api) evaluateAllAuthConfigs authorizationCh ->
  Evaluate identityCh metadataCh authorizationCh (NewAuthPipeline req api)
  = (pipeline', None) ->
  (identityCh = [] /\ Identity pipeline' = ∅
   \/ exists before resp rest,
       identityCh = before ++ resp :: rest /\ Forall failed before
       /\ Success resp = true /\ Evaluator resp ∈ IdentityConfigs api
       /\ Identity pipeline' = {[ asIdentityConfig (Evaluator resp) := Object resp ]})
  /\ Forall (fun r => Success r = true) authorizationCh
  /\ (forall k v,
         Authorization pipeline' !! k = Some v ->
         exists resp, resp ∈ authorizationCh /\ Success resp = true
                      /\ asAuthorizationConfig (Evaluator resp) = k /\ Object resp = v)
  /\ (Forall (fun r => Success r = true -> truthy (Object r) = true) authorizationCh ->
      forall k v, Authorization pipeline' !! k = Some v -> truthy v = true).
Proof.
  intros Hruni _ _. unfold Evaluate, evaluateIdentityConfigs.
  destruct (identityLoop identityCh None (NewAuthPipeline req api))
    as [[p1 e1] rest1] eqn:Hid.
  destruct e1 as [e1|]; [done|].
  destruct (evaluateAuthorizationConfigs authorizationCh (evaluateMetadataConfigs metadataCh p1))
    as [[p3 e3] rest3] eqn:Hauth.
  destruct e3 as [e3|]; [done|]. intros [= <-].
  apply evaluateAuthorizationConfigs_cases in Hauth
    as (stored & Hstored & Hauthz & Hident & _ & Hcase).
  destruct Hcase as [(-> & _ & ->) | (resp & _ & Hresp & Herr)];
    [|apply failed_has_error in Hresp as [e He]; congruence].
  destruct (evaluateMetadataConfigs_fields metadataCh p1) as (_ & Hi & Ha & _).
  rewrite Hi in Hident. rewrite Ha in Hauthz.
  assert (forall k v,
             Authorization p3 !! k = Some v ->
             exists resp, resp ∈ stored /\ Success resp = true
                          /\ asAuthorizationConfig (Evaluator resp) = k /\ Object resp = v)
    as Hentries.
  { intros k v Hkv. rewrite Hauthz in Hkv.
    apply (foldl_store_lookup (fun r => asAuthorizationConfig (Evaluator r))) in Hkv
      as [Hfresh | (resp & Hin & Hk & Hv)].
    - apply identityLoop_cases in Hid
        as [(? & ? & _ & _ & _ & -> & _) | (_ & -> & _)]; simpl in Hfresh;
        by rewrite lookup_empty in Hfresh.
    - exists resp. repeat split; try done.
      by eapply (proj1 (Forall_forall _ _) Hstored). }
  repeat apply conj; [|done|exact Hentries|].
  - apply identityLoop_cases in Hid
      as [(before & resp & -> & Hbefore & Hresp & -> & _) | (Hall & -> & _ & Hlast)].
    + right. exists before, resp, rest1. repeat split; try done.
      eapply closed_channel_evaluator; [exact Hruni|].
      apply elem_of_app. right. apply list_elem_of_here.
    + destruct Hlast as [[-> _] | (before & resp & -> & Hnone)].
      * left. by rewrite Hident.
      * exfalso.
        assert (failed resp) as [e He]%failed_has_error; [|congruence].
        apply Forall_app in Hall as [_ Hall]. by apply Forall_cons in Hall as [? _].
  - intros Htruthy k v (resp & Hin & Hs & _ & <-)%Hentries.
    by apply (proj1 (Forall_forall _ _) Htruthy).
Qed.

Lemma evaluate_success_invariant_witness :
  Forall (fun r => Success r = true)
    (sequential evaluateAllAuthConfigs scenario.call
       (AuthorizationConfigs scenario.api) false).
Proof.
  refine (proj1 (proj2
    (evaluate_success_invariant scenario.request scenario.api
       (sequential evaluateOneAuthConfig scenario.call (IdentityConfigs scenario.api) false)
       (sequential evaluateAnyAuthConfig scenario.call (MetadataConfigs scenario.api) false)
       (sequential evaluateAllAuthConfigs scenario.call
          (AuthorizationConfigs scenario.api) false)
       _
       (sequential_run evaluateOneAuthConfig scenario.call (IdentityConfigs scenario.api))
       (sequential_run evaluateAnyAuthConfig scenario.call (MetadataConfigs scenario.api))
       (sequential_run evaluateAllAuthConfigs scenario.call
          (AuthorizationConfigs scenario.api))
       _))).
  vm_compute. reflexivity.
Defined.

(** Against C2 as stated: a run of [Evaluate] that returns no error, after
    which the identity map has no entry at all and the authorization map
    holds the object [false]. *)
Lemma success_without_identity :
  exists pipeline',
    Evaluate_run (NewAuthPipeline scenario.request scenario.authorizationOnly)
      pipeline' None
    /\ Identity pipeline' = ∅
    /\ Authorization pipeline' !! 7%N = Some (VBool false)
    /\ truthy (VBool false) = false.
Proof.
  eexists. split; [|split; [|split]].
  - eapply (run_authorization _ [] []
              (sequential evaluateAllAuthConfigs scenario.allowFalse
                 (AuthorizationConfigs scenario.authorizationOnly) false)).
    + exact (sequential_run evaluateOneAuthConfig scenario.call []).
    + reflexivity.
    + exact (sequential_run evaluateAnyAuthConfig scenario.call []).
    + apply sequential_run.
    + reflexivity.
  - reflexivity.
  - vm_compute. reflexivity.
  - reflexivity.
Qed.

End Pipeline.

(** ** The authorization context *)

Section AuthorizationContext.

Import service.

Variable GetName : ptr -> string.

Implicit Types (order : list (ptr * value)) (m : gmap ptr value).

Lemma ranges_elem m order k v : ranges m order -> (k, v) ∈ order <-> m !! k = Some v.
Proof. unfold ranges. intros ->. apply elem_of_map_to_list. Qed.

Lemma ranges_NoDup m order : ranges m order -> NoDup order.*1.
Proof. unfold ranges. intros ->. apply NoDup_fst_map_to_list. Qed.

Lemma ranges_exists m : ranges m (map_to_list m).
Proof. unfold ranges. reflexivity. Qed.

Lemma notNil_true obj : notNil obj = true <-> obj <> VNull.
Proof. by destruct obj. Qed.

(** The loop of [GetResolvedIdentity] stops at the first object that is
    not nil. *)
Lemma GetResolvedIdentity_cases order :
  (Forall (fun e => e.2 = VNull) order /\ GetResolvedIdentity order = (None, VNull))
  \/ exists before k v after,
      order = before ++ (k, v) :: after /\ Forall (fun e => e.2 = VNull) before
      /\ v <> VNull /\ GetResolvedIdentity order = (Some k, v).
Proof.
  induction order as [|[k v] order IH]; simpl.
  - left. by split.
  - destruct (notNil v) eqn:Hv.
    + right. exists [], k, v, order. apply notNil_true in Hv. by repeat split.
    + assert (v = VNull) as -> by (by destruct v).
      destruct IH as [[Hall ->] | (before & k' & v' & after & -> & Hbefore & Hv' & ->)].
      * left. split; [by constructor | done].
      * right. exists ((k, VNull) :: before), k', v', after.
        repeat split; [by constructor | done].
Qed.

Lemma resolvedMetadataLoop_lookup order m k v :
  NoDup order.*1 ->
  resolvedMetadataLoop order m !! k = Some v
  <-> ((k, v) ∈ order /\ v <> VNull)
      \/ ((forall v', (k, v') ∈ order -> v' = VNull) /\ m !! k = Some v).
Proof.
  revert m. induction order as [|[k0 v0] order IH]; intros m Hnd; simpl.
  - split; [intros H; right; split; [by intros v' ?%elem_of_nil | done]|].
    intros [[[]%elem_of_nil _] | [_ H]]; done.
  - apply NoDup_cons in Hnd as [Hk0 Hnd]. simpl in Hk0.
    assert (forall v', (k0, v') ∉ order) as Hfresh.
    { intros v' Hin. apply Hk0. by apply (list_elem_of_fmap_2 fst) in Hin. }
    destruct (notNil v0) eqn:Hv0; rewrite (IH _ Hnd); clear IH.
    + apply notNil_true in Hv0. split.
      * intros [[Hin Hv] | [Hk Hm]].
        -- left. split; [by apply list_elem_of_further | done].
        -- destruct (decide (k0 = k)) as [->|Hne].
           ++ rewrite lookup_insert_eq in Hm. injection Hm as ->.
              left. split; [apply list_elem_of_here | done].
           ++ rewrite lookup_insert_ne in Hm by done. right. split; [|done].
              intros v' [[= ? ?]|?]%elem_of_cons; [congruence | by apply Hk].
      * intros [[[[= -> ->] | Hin]%elem_of_cons Hv] | [Hk Hm]].
        -- right. split; [|apply lookup_insert_eq].
           intros v' Hin. by apply Hfresh in Hin.
        -- left. by split.
        -- destruct (decide (k0 = k)) as [->|Hne].
           ++ exfalso. apply Hv0, Hk, list_elem_of_here.
           ++ right. rewrite lookup_insert_ne by done. split; [|done].
              intros v' Hin. by apply Hk, list_elem_of_further.
    + assert (v0 = VNull) as -> by (by destruct v0). split.
      * intros [[Hin Hv] | [Hk Hm]].
        -- left. split; [by apply list_elem_of_further | done].
        -- right. split; [|done].
           intros v' [[= ? ?]|?]%elem_of_cons; [congruence | by apply Hk].
      * intros [[[[= -> ->] | Hin]%elem_of_cons Hv] | [Hk Hm]]; [done | | ].
        -- left. by split.
        -- right. split; [|done].
           intros v' Hin. by apply Hk, list_elem_of_further.
Qed.

(** [GetResolvedMetadata] keeps the entries whose object is not nil,
    whatever the order of the visit. *)
Lemma GetResolvedMetadata_lookup m order k v :
  ranges m order ->
  GetResolvedMetadata order !! k = Some v <-> m !! k = Some v /\ v <> VNull.
Proof.
  intros Hr. unfold GetResolvedMetadata.
  rewrite (resolvedMetadataLoop_lookup _ _ _ _ (ranges_NoDup _ _ Hr)).
  rewrite (ranges_elem _ _ _ _ Hr), lookup_empty.
  split; [intros [H | [_ H]]; [exact H | done] | by left].
Qed.

(** The loop that renames the resolved metadata. *)
Lemma namedMetadataLoop_lookup order (named : gmap string value) name obj :
  namedMetadataLoop GetName order named !! name = Some obj ->
  named !! name = Some obj \/ exists config, (config, obj) ∈ order /\ GetName config = name.
Proof.
  revert named. induction order as [|[c v] order IH]; intros named; simpl; [by left|].
  intros [Hn | (config & Hin & Hname)]%IH.
  - destruct (decide (GetName c = name)) as [<-|Hne].
    + rewrite lookup_insert_eq in Hn. injection Hn as ->.
      right. exists c. split; [apply list_elem_of_here | done].
    + rewrite lookup_insert_ne in Hn by done. by left.
  - right. exists config. split; [by apply list_elem_of_further | done].
Qed.

Lemma namedMetadataLoop_keeps order (named : gmap string value) name :
  is_Some (named !! name) -> is_Some (namedMetadataLoop GetName order named !! name).
Proof.
  revert named. induction order as [|[c v] order IH]; intros named Hn; simpl; [done|].
  apply IH. destruct (decide (GetName c = name)) as [<-|Hne].
  - rewrite lookup_insert_eq. by eexists.
  - by rewrite lookup_insert_ne.
Qed.

Lemma namedMetadataLoop_present order (named : gmap string value) config obj :
  (config, obj) ∈ order ->
  is_Some (namedMetadataLoop GetName order named !! GetName config).
Proof.
  revert named. induction order as [|[c v] order IH]; intros named; simpl.
  - by intros ?%elem_of_nil.
  - intros [[= <- <-] | Hin]%elem_of_cons; [|by apply IH].
    apply namedMetadataLoop_keeps. rewrite lookup_insert_eq. by eexists.
Qed.

Lemma namedMetadataLoop_unshared order (named : gmap string value) name :
  (forall config v, (config, v) ∈ order -> GetName config <> name) ->
  namedMetadataLoop GetName order named !! name = named !! name.
Proof.
  revert named. induction order as [|[c v] order IH]; intros named Hfree; simpl; [done|].
  rewrite IH.
  - apply lookup_insert_ne. eapply Hfree, list_elem_of_here.
  - intros config v' Hin. eapply Hfree. by apply list_elem_of_further.
Qed.

Lemma namedMetadataLoop_unique order (named : gmap string value) config obj :
  NoDup order.*1 ->
  (config, obj) ∈ order ->
  (forall config' obj',
      (config', obj') ∈ order -> GetName config' = GetName config -> config' = config) ->
  namedMetadataLoop GetName order named !! GetName config = Some obj.
Proof.
  revert named. induction order as [|[c v] order IH]; intros named Hnd Hin Huniq; simpl.
  - by apply elem_of_nil in Hin.
  - apply NoDup_cons in Hnd as [Hc Hnd]. simpl in Hc.
    apply elem_of_cons in Hin as [[= <- <-] | Hin].
    + rewrite namedMetadataLoop_unshared; [apply lookup_insert_eq|].
      intros config' v' Hin' Hname.
      apply Hc. rewrite <- (Huniq config' v'); [|by apply list_elem_of_further | done].
      by apply (list_elem_of_fmap_2 fst) in Hin'.
    + apply IH; [done | done |].
      intros config' obj' Hin'. apply (Huniq config' obj').
      by apply list_elem_of_further.
Qed.

(** C8.  Whatever the order in which Go visits the maps, the data that
    [GetDataForAuthorization] returns has, as its context, the attribute
    context of the request; as its identity, the object of the first entry
    of the identity map that is not null in the order of the visit, and
    null when there is none; as its metadata, a map whose names are the
    names of the metadata configs with a non-null object and whose objects
    are such objects: the object of the config itself when no other config
    with a non-null object bears its name. *)
Theorem authorization_context_assembly pipeline data :
  GetDataForAuthorization_returns GetName pipeline data ->
  Context data = envoy_auth.Attributes (Request pipeline)
  /\ ((forall k v, Identity pipeline !! k = Some v -> v = VNull)
      /\ identity (AuthData data) = VNull
      \/ exists order before k v after,
          ranges (Identity pipeline) order
          /\ order = before ++ (k, v) :: after
          /\ Forall (fun e => e.2 = VNull) before
          /\ v <> VNull /\ identity (AuthData data) = v)
  /\ (forall name obj,
         metadata (AuthData data) !! name = Some obj ->
         obj <> VNull
         /\ exists config, Metadata pipeline !! config = Some obj /\ GetName config = name)
  /\ (forall config obj,
         Metadata pipeline !! config = Some obj -> obj <> VNull ->
         is_Some (metadata (AuthData data) !! GetName config))
  /\ (forall config obj,
         Metadata pipeline !! config = Some obj -> obj <> VNull ->
         (forall config' obj',
             Metadata pipeline !! config' = Some obj' -> obj' <> VNull ->
             GetName config' = GetName config -> config' = config) ->
         metadata (AuthData data) !! GetName config = Some obj).
Proof.
  intros (identityOrder & metadataOrder & resolvedOrder & Hi & Hm & Hr & ->).
  assert (forall config obj,
             (config, obj) ∈ resolvedOrder
             <-> Metadata pipeline !! config = Some obj /\ obj <> VNull) as Hres.
  { intros config obj.
    by rewrite (ranges_elem _ _ _ _ Hr), (GetResolvedMetadata_lookup _ _ _ _ Hm). }
  unfold GetDataForAuthorization. simpl. repeat apply conj.
  - done.
  - destruct (GetResolvedIdentity_cases identityOrder)
      as [[Hall ->] | (before & k & v & after & Horder & Hbefore & Hv & ->)]; simpl.
    + left. split; [|done]. intros k v Hkv.
      apply (ranges_elem _ _ _ _ Hi) in Hkv.
      by apply (proj1 (Forall_forall _ _) Hall) in Hkv.
    + right. by exists identityOrder, before, k, v, after.
  - intros name obj [Hempty | (config & Hin & Hname)]%namedMetadataLoop_lookup.
    + by rewrite lookup_empty in Hempty.
    + apply Hres in Hin as [Hin Hobj]. split; [done|]. by exists config.
  - intros config obj Hin Hobj.
    apply (namedMetadataLoop_present _ _ _ obj). by apply Hres.
  - intros config obj Hin Hobj Huniq.
    apply namedMetadataLoop_unique.
    + by eapply ranges_NoDup.
    + by apply Hres.
    + intros config' obj' [Hin' Hobj']%Hres. by apply (Huniq config' obj').
Qed.

End AuthorizationContext.

Lemma authorization_context_assembly_witness :
  service.metadata
    (service.AuthData
       (service.GetDataForAuthorization scenario.name scenario.resolved
          (map_to_list (service.Identity scenario.resolved))
          (map_to_list (service.GetResolvedMetadata
                          (map_to_list (service.Metadata scenario.resolved))))))
    !! "geo" = Some (VString "DE").
Proof.
  refine (proj2 (proj2 (proj2 (proj2
    (authorization_context_assembly scenario.name scenario.resolved _ _))))
    3%N (VString "DE") _ _ _).
  - exists (map_to_list (service.Identity scenario.resolved)),
      (map_to_list (service.Metadata scenario.resolved)),
      (map_to_list (service.GetResolvedMetadata
                      (map_to_list (service.Metadata scenario.resolved)))).
    repeat split; unfold service.ranges; reflexivity.
  - vm_compute. reflexivity.
  - discriminate.
  - intros config' obj' Hlookup Hobj' Hname.
    destruct (decide (config' = 3%N)) as [->|Hne3]; [done|].
    destruct (decide (config' = 4%N)) as [->|Hne4].
    + vm_compute in Hlookup. congruence.
    + unfold scenario.resolved in Hlookup. simpl in Hlookup.
      rewrite lookup_insert_ne, lookup_singleton_ne in Hlookup by done. done.
Defined.

(** The first entry that is not null wins, and the order of the visit
    decides which one that is. *)
Example identity_depends_on_order :
  service.GetResolvedIdentity [(1%N, VString "alice"); (2%N, VString "bob")]
  = (Some 1%N, VString "alice")
  /\ service.GetResolvedIdentity [(2%N, VString "bob"); (1%N, VString "alice")]
     = (Some 2%N, VString "bob").
Proof. split; reflexivity. Qed.

(** Two metadata configs of the same name leave one entry. *)
Example metadata_names_collide :
  service.namedMetadataLoop (fun _ => "geo") [(3%N, VString "DE"); (4%N, VString "FR")] ∅
  = {[ "geo" := VString "FR" ]}.
Proof. vm_compute. reflexivity. Qed.

(** ** The pattern-matching evaluator *)

Section SelectorEngine.

Import authorization.

Lemma digits_numeral s n :
  spec_numeral s n -> forall acc, digits s acc = Some (acc * 10 ^ String.length s + n).
Proof.
  induction 1 as [c Hc | c s n Hc _ IH]; intros acc.
  - simpl. rewrite Hc. f_equal. lia.
  - cbn [digits]. rewrite Hc, IH. f_equal.
    change (String.length (String c s)) with (S (String.length s)).
    rewrite Nat.pow_succ_r'. lia.
Qed.

Lemma numeral_digits s :
  s <> EmptyString ->
  forall acc m, digits s acc = Some m ->
  exists n, spec_numeral s n /\ m = acc * 10 ^ String.length s + n.
Proof.
  induction s as [|c s IH]; intros Hs acc m; [done|].
  cbn [digits]. destruct (regexp.isDigit c) eqn:Hc; [|done].
  destruct s as [|c' s'].
  - simpl. intros [= <-]. exists (digitValue c). split; [by constructor | lia].
  - intros Hdigits. destruct (IH ltac:(done) _ _ Hdigits) as (n & Hn & ->).
    exists (digitValue c * 10 ^ String.length (String c' s') + n).
    split; [by constructor|].
    change (String.length (String c (String c' s')))
      with (S (String.length (String c' s'))).
    rewrite Nat.pow_succ_r'. lia.
Qed.

(** The index that the engine reads in a segment is the number that the
    segment writes. *)
Lemma numeric_spec segment i : numeric segment = Some i <-> spec_numeral segment i.
Proof.
  split.
  - destruct segment as [|c s]; [done|]. unfold numeric. intros Hdigits.
    destruct (numeral_digits (String c s) ltac:(done) _ _ Hdigits) as (n & Hn & ->).
    by rewrite Nat.mul_0_l.
  - intros Hn. rewrite <- (Nat.add_0_l i), <- (Nat.mul_0_l (10 ^ String.length segment)).
    rewrite <- (digits_numeral _ _ Hn 0). by destruct Hn.
Qed.

Lemma field_spec key fields child :
  field key fields = Some child
  <-> exists before after,
        fields = before ++ (key, child) :: after
        /\ Forall (fun entry : string * value => entry.1 <> key) before.
Proof.
  induction fields as [|[k v] fields IH]; simpl.
  - split; [done|]. intros (before & after & Heq & _). by destruct before.
  - destruct (String.eqb_spec k key) as [-> | Hk].
    + split.
      * intros [= ->]. by exists [], fields.
      * intros (before & after & Heq & Hbefore). destruct before as [|[k' v'] before].
        -- by injection Heq as ->.
        -- injection Heq as -> -> _. by apply Forall_cons in Hbefore as [? _].
    + rewrite IH. split.
      * intros (before & after & -> & Hbefore). exists ((k, v) :: before), after.
        split; [done|]. by constructor.
      * intros (before & after & Heq & Hbefore). destruct before as [|[k' v'] before].
        -- by injection Heq as -> _.
        -- injection Heq as -> -> ->. apply Forall_cons in Hbefore as [_ Hbefore].
           by exists before, after.
Qed.

(** The selector engine finds a node exactly when the path selects it, and
    reports a missing path exactly when the path selects nothing. *)
Lemma descend_spec segments :
  forall node found, descend segments node = Some found <-> spec_selects segments node found.
Proof.
  induction segments as [|segment segments IH]; intros node found.
  - simpl. split; [intros [= ->]; constructor | by inversion 1].
  - split.
    + destruct node as [| | | |items|fields]; simpl; try done.
      * destruct (numeric segment) as [i|] eqn:Hi; [|done].
        destruct (items !! i) as [child|] eqn:Hchild; [|done].
        intros Hrest. apply numeric_spec in Hi. apply IH in Hrest.
        by econstructor.
      * destruct (field segment fields) as [child|] eqn:Hfield; [|done].
        intros Hrest. apply field_spec in Hfield as (before & after & -> & Hbefore).
        apply IH in Hrest. by constructor.
    + inversion 1 as [|? ? before child after ? Hbefore Hrest
                       |? ? items i child ? Hi Hchild Hrest]; subst; simpl.
      * assert (field segment (before ++ (segment, child) :: after) = Some child) as ->
          by (apply field_spec; eauto).
        by apply IH.
      * apply numeric_spec in Hi. rewrite Hi, Hchild. by apply IH.
Qed.

Lemma spec_selects_unique segments node found found' :
  spec_selects segments node found -> spec_selects segments node found' -> found = found'.
Proof. rewrite <- !descend_spec. congruence. Qed.

Lemma equal_spec selector json expected :
  equal (resolve selector json) expected = true <-> spec_string selector json expected.
Proof.
  unfold equal, resolve, spec_string. split.
  - destruct (descend _ json) as [node|] eqn:Hnode; [|done].
    destruct (stringOf node) as [s|] eqn:Hs; [|done].
    intros ->%String.eqb_eq. exists node. by rewrite <- descend_spec.
  - intros (node & Hnode%descend_spec & Hs). rewrite Hnode, Hs. apply String.eqb_refl.
Qed.

Lemma equal_item item expected :
  equal (Some item) expected = true <-> stringOf item = Some expected.
Proof.
  unfold equal. destruct (stringOf item) as [s|]; [|done].
  rewrite String.eqb_eq. split; congruence.
Qed.

Lemma contains_spec selector json expected b :
  contains (resolve selector json) expected = Some b
  <-> exists items,
        spec_selects (strings.Split selector ".") json (VArray items)
        /\ b = existsb (fun item => equal (Some item) expected) items.
Proof.
  unfold contains, resolve. split.
  - destruct (descend _ json) as [[| | | |items|]|] eqn:Hnode; try done.
    intros [= <-]. exists items. by rewrite <- descend_spec.
  - intros (items & Hnode%descend_spec & ->). by rewrite Hnode.
Qed.

Lemma existsb_equal items expected :
  existsb (fun item => equal (Some item) expected) items = true
  <-> exists item, item ∈ items /\ stringOf item = Some expected.
Proof.
  rewrite existsb_exists. split; intros (item & Hin & Hitem); exists item.
  - by rewrite <- equal_item, list_elem_of_In.
  - by rewrite equal_item, <- list_elem_of_In.
Qed.

End SelectorEngine.

Section PatternMatching.

Import authorization.

Variable E : engine.

Implicit Types (json : value) (rule : JSONPatternMatchingRule).

Lemma matched_spec re selector json :
  matched E re (resolve selector json) = true
  <-> exists s, spec_string selector json s /\ MatchString E re s = true.
Proof.
  unfold matched, resolve, spec_string. split.
  - destruct (descend _ json) as [node|] eqn:Hnode; [|done].
    destruct (stringOf node) as [s|] eqn:Hs; [|done].
    intros Hmatch. exists s. split; [|done]. exists node. by rewrite <- descend_spec.
  - intros (s & (node & Hnode%descend_spec & Hs) & Hmatch). by rewrite Hnode, Hs.
Qed.

(** The operator table computes what its rows say. *)
Lemma evaluateRule_holds json rule :
  evaluateRule E json rule = inl true <-> spec_holds E json rule.
Proof.
  split.
  - unfold evaluateRule. destruct (Operator rule) eqn:Hop.
    + intros [= Heq]. apply holds_eq; [done|]. by apply equal_spec.
    + intros [= Heq%negb_true_iff]. apply holds_neq; [done|].
      rewrite <- equal_spec. congruence.
    + destruct (contains _ _) as [b|] eqn:Hcontains; [|done]. intros [= ->].
      apply contains_spec in Hcontains as (items & Hitems & Hb).
      symmetry in Hb. apply existsb_equal in Hb as (item & Hin & Hitem).
      by eapply holds_incl.
    + destruct (contains _ _) as [b|] eqn:Hcontains; [|done].
      intros [= Hb%negb_true_iff]. subst b.
      apply contains_spec in Hcontains as (items & Hitems & Hb).
      eapply holds_excl; [done..|]. intros item Hin Hitem.
      assert (existsb (fun item => equal (Some item) (Value rule)) items = true)
        by (apply existsb_equal; eauto).
      congruence.
    + destruct (Compile E (Value rule)) as [re|err] eqn:Hre; [|done].
      intros [= (s & Hs & Hmatch)%matched_spec]. by eapply holds_matches.
  - unfold evaluateRule.
    intros [Hop Hs | Hop Hs | items item Hop Hitems Hin Hitem | items Hop Hitems Hnone
            | re s Hop Hre Hs Hmatch]; rewrite Hop.
    + apply equal_spec in Hs. by rewrite Hs.
    + rewrite <- equal_spec in Hs. by apply not_true_is_false in Hs as ->.
    + assert (contains (resolve (Selector rule) json) (Value rule) = Some true) as ->;
        [|done].
      apply contains_spec. exists items. split; [done|].
      symmetry. apply existsb_equal. eauto.
    + assert (contains (resolve (Selector rule) json) (Value rule) = Some false) as ->;
        [|done].
      apply contains_spec. exists items. split; [done|].
      symmetry. apply not_true_is_false. intros (item & Hin & Hitem)%existsb_equal.
      by apply (Hnone item).
    + rewrite Hre. f_equal. apply matched_spec. eauto.
Qed.

Lemma evaluateRule_invalid json rule err :
  evaluateRule E json rule = inr err <-> spec_invalid E rule err.
Proof.
  unfold evaluateRule, spec_invalid. split.
  - destruct (Operator rule); try done.
    + by destruct (contains _ _).
    + by destruct (contains _ _).
    + destruct (Compile E (Value rule)); [done|]. by intros [= ->].
  - by intros [-> ->].
Qed.

Lemma evaluateRule_fails json rule :
  evaluateRule E json rule = inl false <-> spec_fails E json rule.
Proof.
  unfold spec_fails. split.
  - intros Heval. split.
    + rewrite <- evaluateRule_holds. congruence.
    + intros err. rewrite <- (evaluateRule_invalid json). congruence.
  - intros [Hholds Hinvalid]. destruct (evaluateRule E json rule) as [[]|err] eqn:Heval.
    + by apply evaluateRule_holds in Heval.
    + done.
    + by apply (evaluateRule_invalid json), Hinvalid in Heval.
Qed.

(** A rule holds, fails, or is a [matches] rule whose value does not
    compile. *)
Lemma rule_cases json rule :
  spec_holds E json rule \/ spec_fails E json rule \/ exists err, spec_invalid E rule err.
Proof.
  destruct (evaluateRule E json rule) as [[]|err] eqn:Heval.
  - left. by apply evaluateRule_holds.
  - right; left. by apply evaluateRule_fails.
  - right; right. exists err. by apply (evaluateRule_invalid json).
Qed.

Lemma Call_all_hold rules json :
  Forall (spec_holds E json) rules <-> Call E rules json = (true, None).
Proof.
  induction rules as [|rule rules IH]; simpl; [done|].
  rewrite Forall_cons, <- evaluateRule_holds, IH.
  destruct (evaluateRule E json rule) as [[]|err]; split; try done; by intros [? ?].
Qed.

Lemma Call_first_offender before rule after json :
  Forall (spec_holds E json) before ->
  Call E (before ++ rule :: after) json
  = match evaluateRule E json rule with
    | inl true => Call E after json
    | inl false => (false, Some (Errorf unauthorizedErrorMsg))
    | inr err => (false, Some err)
    end.
Proof.
  induction 1 as [|r before Hr%evaluateRule_holds _ IH]; simpl; [done|].
  by rewrite Hr.
Qed.

(** The rules that hold up to the first one that does not. *)
Lemma first_offender rules json :
  Forall (spec_holds E json) rules
  \/ exists before rule after,
       rules = before ++ rule :: after /\ Forall (spec_holds E json) before
       /\ (spec_fails E json rule \/ exists err, spec_invalid E rule err).
Proof.
  induction rules as [|rule rules IH]; [by left|].
  destruct (rule_cases json rule) as [Hrule | Hrule].
  - destruct IH as [Hall | (before & r & after & -> & Hbefore & Hr)].
    + left. by constructor.
    + right. exists (rule :: before), r, after. split; [done|]. split; [by constructor|done].
  - right. by exists [], rule, rules.
Qed.

(** C4.  For every engine of regular expressions, every rule list and every
    authorization JSON: [Call] returns [(true, nil)] when every rule holds,
    and only then; otherwise the first rule, in the order of the list, that
    does not hold decides: [(false, Unauthorized)] when that rule fails,
    [(false, err)] when it is a [matches] rule whose value does not compile
    with the error [err].  So [Call] returns [(false, Unauthorized)] when
    some rule fails and the value of every [matches] rule compiles, and the
    parse error of a rule when some value does not compile and no rule
    fails.  The rule list always falls under one of the cases, and the
    empty list returns [(true, nil)]. *)
Theorem pattern_matching_result rules json :
  (Forall (spec_holds E json) rules -> Call E rules json = (true, None))
  /\ (forall before rule after,
      rules = before ++ rule :: after -> Forall (spec_holds E json) before ->
      (spec_fails E json rule -> Call E rules json = (false, Some (Errorf "Unauthorized")))
      /\ (forall err, spec_invalid E rule err -> Call E rules json = (false, Some err)))
  /\ (Exists (spec_fails E json) rules ->
      Forall (fun rule => forall err, ~ spec_invalid E rule err) rules ->
      Call E rules json = (false, Some (Errorf "Unauthorized")))
  /\ (Exists (fun rule => exists err, spec_invalid E rule err) rules ->
      Forall (fun rule => ~ spec_fails E json rule) rules ->
      exists rule err,
        rule ∈ rules /\ spec_invalid E rule err /\ Call E rules json = (false, Some err))
  /\ (Forall (spec_holds E json) rules
      \/ exists before rule after,
           rules = before ++ rule :: after /\ Forall (spec_holds E json) before
           /\ (spec_fails E json rule \/ exists err, spec_invalid E rule err))
  /\ (Call E rules json = (true, None) -> Forall (spec_holds E json) rules)
  /\ Call E [] json = (true, None).
Proof.
  assert (forall before rule after,
      rules = before ++ rule :: after -> Forall (spec_holds E json) before ->
      (spec_fails E json rule -> Call E rules json = (false, Some (Errorf "Unauthorized")))
      /\ (forall err, spec_invalid E rule err -> Call E rules json = (false, Some err)))
    as Hfirst.
  { intros before rule after -> Hbefore. rewrite (Call_first_offender _ _ _ _ Hbefore).
    split.
    - by intros ->%evaluateRule_fails.
    - by intros err ->%(evaluateRule_invalid json). }
  repeat apply conj.
  - apply Call_all_hold.
  - exact Hfirst.
  - intros Hfails Hvalid.
    destruct (first_offender rules json)
      as [Hall | (before & rule & after & Heq & Hbefore & [Hrule | [err Herr]])].
    + apply Exists_exists in Hfails as (r & Hin & [Hr _]).
      rewrite Forall_forall in Hall. by apply Hall in Hin.
    + by apply (proj1 (Hfirst before rule after Heq Hbefore)).
    + exfalso. subst rules. apply Forall_app in Hvalid as [_ Hvalid].
      apply Forall_cons in Hvalid as [Hvalid _]. by apply (Hvalid err).
  - intros Hinvalid Hnone.
    destruct (first_offender rules json)
      as [Hall | (before & rule & after & Heq & Hbefore & [Hrule | [err Herr]])].
    + apply Exists_exists in Hinvalid as (r & Hin & err & Hop & Hre).
      rewrite Forall_forall in Hall. apply Hall in Hin.
      apply evaluateRule_holds in Hin. unfold evaluateRule in Hin.
      rewrite Hop, Hre in Hin. done.
    + exfalso. subst rules. apply Forall_app in Hnone as [_ Hnone].
      by apply Forall_cons in Hnone as [Hnone _].
    + exists rule, err. split; [|split; [done|]].
      * subst rules. apply elem_of_app. right. apply elem_of_cons. by left.
      * by apply (proj2 (Hfirst before rule after Heq Hbefore)).
  - apply first_offender.
  - apply Call_all_hold.
  - done.
Qed.

End PatternMatching.

Section TestCall.

Import authorization.

Lemma pattern_matching_result_witness :
  Call (scenario.fragment scenario.quoted) scenario.rulesAllowed scenario.authJSON
  = (true, None)
  /\ Call (scenario.fragment scenario.quoted) scenario.rulesDenied scenario.authJSON
     = (false, Some (Errorf "Unauthorized"))
  /\ Call (scenario.fragment scenario.quoted)
       [scenario.rule scenario.secretHeader OpEq "no-one-knows"; scenario.invalid]
       scenario.authJSON
     = (false, Some (Errorf "error parsing regexp: invalid character class range: `t-a`"))
  /\ Call (scenario.fragment scenario.quoted)
       [scenario.rule scenario.secretHeader OpMatches "(.+)-knows"] scenario.authJSON
     = (true, None)
  /\ Call (scenario.fragment scenario.quoted)
       [scenario.rule scenario.secretHeader OpMatches "(\d)+"] scenario.authJSON
     = (false, Some (Errorf "Unauthorized"))
  /\ exists rule err,
       rule ∈ [scenario.rule scenario.secretHeader OpEq "no-one-knows"; scenario.invalid]
       /\ spec_invalid (scenario.fragment scenario.quoted) rule err
       /\ Call (scenario.fragment scenario.quoted)
            [scenario.rule scenario.secretHeader OpEq "no-one-knows"; scenario.invalid]
            scenario.authJSON
          = (false, Some err).
Proof.
  split; [|split; [|split; [|split; [|split]]]]; cycle 3.
  - apply (proj1 (pattern_matching_result (scenario.fragment scenario.quoted) _
                    scenario.authJSON)).
    constructor; [apply evaluateRule_holds; vm_compute; reflexivity | constructor].
  - apply (proj1 (proj1 (proj2 (pattern_matching_result (scenario.fragment scenario.quoted)
                                  _ scenario.authJSON))
                    [] _ [] eq_refl ltac:(constructor))).
    apply evaluateRule_fails. vm_compute. reflexivity.
  - apply (proj1 (proj2 (proj2 (proj2 (pattern_matching_result
                                         (scenario.fragment scenario.quoted)
                                         _ scenario.authJSON))))).
    + apply Exists_cons_tl, Exists_cons_hd.
      exists (scenario.parseError regexp.ErrInvalidCharRange "t-a").
      split; [reflexivity | vm_compute; reflexivity].
    + constructor; [|constructor; [|constructor]].
      * intros [Hnot _]. apply Hnot, evaluateRule_holds. vm_compute. reflexivity.
      * intros [_ Hvalid].
        apply (Hvalid (scenario.parseError regexp.ErrInvalidCharRange "t-a")).
        split; [reflexivity | vm_compute; reflexivity].
  - apply (proj1 (pattern_matching_result (scenario.fragment scenario.quoted)
                    scenario.rulesAllowed scenario.authJSON)).
    repeat (constructor; [apply evaluateRule_holds; vm_compute; reflexivity|]).
    constructor.
  - apply (proj1 (proj2 (proj2 (pattern_matching_result (scenario.fragment scenario.quoted)
                                  scenario.rulesDenied scenario.authJSON)))).
    + apply Exists_cons_tl, Exists_cons_hd. apply evaluateRule_fails.
      vm_compute. reflexivity.
    + repeat (constructor; [intros err [Hop _]; discriminate Hop|]). constructor.
  - apply (proj2 (proj1 (proj2 (pattern_matching_result (scenario.fragment scenario.quoted)
                                  _ scenario.authJSON))
                    [scenario.rule scenario.secretHeader OpEq "no-one-knows"]
                    scenario.invalid [] eq_refl
                    ltac:(constructor;
                            [apply evaluateRule_holds; vm_compute; reflexivity
                            |constructor]))).
    split; [reflexivity | vm_compute; reflexivity].
Defined.

(** C4 as it is written asks for two results on a list that has both a
    failing rule and a [matches] rule whose value does not compile:
    [(false, Unauthorized)] because some rule fails, and [(false, parse
    error)] because a value does not compile.  [Call] returns the one that
    the first of the two rules decides. *)
Lemma failing_and_invalid_rules :
  spec_fails (scenario.fragment scenario.quoted) scenario.authJSON scenario.failing
  /\ spec_invalid (scenario.fragment scenario.quoted) scenario.invalid
       (scenario.parseError regexp.ErrInvalidCharRange "t-a")
  /\ Call (scenario.fragment scenario.quoted) [scenario.failing; scenario.invalid]
       scenario.authJSON
     = (false, Some (Errorf "Unauthorized"))
  /\ Call (scenario.fragment scenario.quoted) [scenario.failing; scenario.invalid]
       scenario.authJSON
     <> (false, Some (scenario.parseError regexp.ErrInvalidCharRange "t-a"))
  /\ Call (scenario.fragment scenario.quoted) [scenario.invalid; scenario.failing]
       scenario.authJSON
     = (false, Some (scenario.parseError regexp.ErrInvalidCharRange "t-a"))
  /\ Call (scenario.fragment scenario.quoted) [scenario.invalid; scenario.failing]
       scenario.authJSON
     <> (false, Some (Errorf "Unauthorized")).
Proof.
  split; [|split; [|split; [|split; [|split]]]].
  - apply evaluateRule_fails. vm_compute. reflexivity.
  - split; [reflexivity | vm_compute; reflexivity].
  - vm_compute. reflexivity.
  - vm_compute. discriminate.
  - vm_compute. reflexivity.
  - vm_compute. discriminate.
Qed.

(** The cases of [TestCall], in its order. *)
Example TestCall_eq_same :
  scenario.testCall [scenario.rule scenario.secretHeader OpEq "no-one-knows"] = scenario.allowed.
Proof. vm_compute. reflexivity. Qed.

Example TestCall_eq_different :
  scenario.testCall [scenario.rule scenario.secretHeader OpEq "other-expected"] = scenario.unauthorized.
Proof. vm_compute. reflexivity. Qed.

Example TestCall_neq_different :
  scenario.testCall [scenario.rule scenario.secretHeader OpNeq "other-expected"] = scenario.allowed.
Proof. vm_compute. reflexivity. Qed.

Example TestCall_neq_same :
  scenario.testCall [scenario.rule scenario.secretHeader OpNeq "no-one-knows"] = scenario.unauthorized.
Proof. vm_compute. reflexivity. Qed.

Example TestCall_incl_found : scenario.testCall [scenario.rule scenario.letters OpIncl "a"] = scenario.allowed.
Proof. vm_compute. reflexivity. Qed.

Example TestCall_incl_not_found :
  scenario.testCall [scenario.rule scenario.letters OpIncl "d"] = scenario.unauthorized.
Proof. vm_compute. reflexivity. Qed.

Example TestCall_excl_not_found : scenario.testCall [scenario.rule scenario.letters OpExcl "d"] = scenario.allowed.
Proof. vm_compute. reflexivity. Qed.

Example TestCall_excl_found :
  scenario.testCall [scenario.rule scenario.letters OpExcl "b"] = scenario.unauthorized.
Proof. vm_compute. reflexivity. Qed.

Example TestCall_regex_matches :
  scenario.testCall [scenario.rule scenario.secretHeader OpMatches "(.+)-knows"] = scenario.allowed.
Proof. vm_compute. reflexivity. Qed.

Example TestCall_regex_does_not_match :
  scenario.testCall [scenario.rule scenario.secretHeader OpMatches "(\d)+"] = scenario.unauthorized.
Proof. vm_compute. reflexivity. Qed.

(** [assert.ErrorContains(t, err, "error parsing regexp")], whatever part
    of the expression the error quotes. *)
Example TestCall_invalid_regex (offending : string -> string) :
  exists rest,
    Call (scenario.fragment offending) [scenario.invalid] scenario.authJSON
    = (false, Some (Errorf ("error parsing regexp" ++ rest)%string)).
Proof.
  exists (": invalid character class range: `" ++ offending "$$^[not-a-regex" ++ "`")%string.
  vm_compute. reflexivity.
Qed.

Example TestCall_multiple_rules : scenario.testCall scenario.rulesAllowed = scenario.allowed.
Proof. vm_compute. reflexivity. Qed.

Example TestCall_multiple_rules_one_unauthorized : scenario.testCall scenario.rulesDenied = scenario.unauthorized.
Proof. vm_compute. reflexivity. Qed.

Example TestCall_rules_empty : scenario.testCall [] = scenario.allowed.
Proof. vm_compute. reflexivity. Qed.

(** The selector engine on the authorization JSON of [TestCall]: an index
    into the sequence, with or without leading zeros; an index past its
    end, a segment that is no number and a key that is absent are
    missing. *)
Example resolve_index :
  resolve "auth.metadata.letters.1" scenario.authJSON = Some (VString "b")
  /\ resolve "auth.metadata.letters.002" scenario.authJSON = Some (VString "c")
  /\ resolve "auth.metadata.letters.3" scenario.authJSON = None
  /\ resolve "auth.metadata.letters.first" scenario.authJSON = None
  /\ resolve "auth.metadata.digits" scenario.authJSON = None.
Proof. vm_compute. repeat split; reflexivity. Qed.

(** A missing selector fails [eq], also against the empty text, and [incl],
    [excl] and [matches]; [neq] holds on it. *)
Example missing_selector :
  scenario.testCall [scenario.rule "auth.absent" OpEq EmptyString] = scenario.unauthorized
  /\ scenario.testCall [scenario.rule "auth.absent" OpIncl "a"] = scenario.unauthorized
  /\ scenario.testCall [scenario.rule "auth.absent" OpExcl "a"] = scenario.unauthorized
  /\ scenario.testCall [scenario.rule "auth.absent" OpMatches "a*"] = scenario.unauthorized
  /\ scenario.testCall [scenario.rule "auth.absent" OpNeq "a"] = scenario.allowed.
Proof. vm_compute. repeat split; reflexivity. Qed.

End TestCall.

(** * Further properties of the code *)

(** ** The credential locator *)

Section LocatorMore.

Local Open Scope string_scope.

Variable headers : gmap string string.
Variable path : string.

(** X1.  A location other than the four that [GetCredentialsFromReq] knows
    is answered with the location-not-supported error, whatever the
    request holds. *)
Theorem unsupported_location (c : auth_credentials.AuthCredential)
    (httpReq : envoy_auth.HttpRequest) :
  auth_credentials.In c <> "custom_header" ->
  auth_credentials.In c <> "authorization_header" ->
  auth_credentials.In c <> "cookie" ->
  auth_credentials.In c <> "query" ->
  auth_credentials.GetCredentialsFromReq c httpReq
  = Err (Errorf "the credential location is not supported").
Proof.
  intros H1 H2 H3 H4. unfold auth_credentials.GetCredentialsFromReq.
  apply String.eqb_neq in H1, H2, H3, H4.
  unfold auth_credentials.inCustomHeader, auth_credentials.inAuthHeader,
    auth_credentials.inCookieHeader, auth_credentials.inQuery.
  by rewrite H1, H2, H3, H4.
Qed.

(** X2.  [NewAuthCredential] never builds a credential with an empty key
    selector or an empty location. *)
Theorem NewAuthCredential_never_empty (selector location : string) :
  auth_credentials.KeySelector (auth_credentials.NewAuthCredential selector location)
  <> EmptyString
  /\ auth_credentials.In (auth_credentials.NewAuthCredential selector location)
     <> EmptyString.
Proof.
  unfold auth_credentials.NewAuthCredential. simpl. split.
  - destruct (String.eqb_spec selector EmptyString); [discriminate | done].
  - destruct (String.eqb_spec location EmptyString); [discriminate | done].
Qed.

(** X3.  The credential that [NewAuthCredential] builds from two empty
    strings reads the bearer token of the [authorization] header. *)
Theorem default_credential_reads_bearer (token : string) :
  headers !! "authorization" = Some ("Bearer " ++ token) ->
  auth_credentials.GetCredentialsFromReq
    (auth_credentials.NewAuthCredential EmptyString EmptyString)
    {| envoy_auth.Headers := headers; envoy_auth.Path := path |}
  = Ok token.
Proof.
  intros Hauth.
  change (auth_credentials.getCredFromAuthHeader headers "Bearer" = Ok token).
  unfold auth_credentials.getCredFromAuthHeader. rewrite Hauth.
  change ("Bearer" ++ " ") with "Bearer ".
  by rewrite HasPrefix_append, TrimPrefix_append.
Qed.

(** X4.  With [in = "custom_header"] and a key selector of ASCII bytes, the
    header is looked up under the key selector with its upper-case letters
    lowered, and under no other name: the locator returns the raw value
    found there, and the credential-not-found error when there is none,
    also when the map holds the name as it was written.  (A key selector
    with a byte above 0x7F, which Go lower-cases rune by rune, is not
    covered.) *)
Theorem custom_header_lookup_is_lower_cased (keySelector : string) :
  strings.isASCII keySelector = true ->
  exists lower,
    strings.ToLower keySelector = Some lower
    /\ list_ascii_of_string lower
       = map strings.lowerByte (list_ascii_of_string keySelector)
    /\ (forall cred,
          auth_credentials.extract keySelector "custom_header" headers path = Ok cred
          <-> headers !! lower = Some cred)
    /\ (auth_credentials.extract keySelector "custom_header" headers path
        = Err auth_credentials.notFoundErr
        <-> headers !! lower = None).
Proof.
  intros Hascii.
  exists (string_of_list_ascii (map strings.lowerByte (list_ascii_of_string keySelector))).
  assert (strings.ToLower keySelector
          = Some (string_of_list_ascii
                    (map strings.lowerByte (list_ascii_of_string keySelector)))) as Hlower
    by (unfold strings.ToLower; by rewrite Hascii).
  split; [done|]. split; [apply list_ascii_of_string_of_list_ascii|].
  change (auth_credentials.extract keySelector "custom_header" headers path)
    with (auth_credentials.getCredFromCustomHeader headers keySelector).
  unfold auth_credentials.getCredFromCustomHeader. rewrite Hlower.
  destruct (headers !! _) as [v|]; split; try intros cred; split;
    intros H; try done; congruence.
Qed.

(** X5.  A credential returned from the [authorization] header is what
    follows the key selector and one space there: the locator never
    returns anything else, and it ends in a credential or in the
    credential-not-found error. *)
Theorem authorization_header_sound (keySelector : string) :
  (forall cred,
      auth_credentials.extract keySelector "authorization_header" headers path = Ok cred ->
      headers !! "authorization" = Some (keySelector ++ " " ++ cred))
  /\ ((exists cred,
          auth_credentials.extract keySelector "authorization_header" headers path = Ok cred)
      \/ auth_credentials.extract keySelector "authorization_header" headers path
         = Err auth_credentials.notFoundErr).
Proof.
  change (auth_credentials.extract keySelector "authorization_header" headers path)
    with (auth_credentials.getCredFromAuthHeader headers keySelector).
  unfold auth_credentials.getCredFromAuthHeader.
  destruct (headers !! "authorization") as [header|]; [|split; [done | by right]].
  destruct (strings.HasPrefix header (keySelector ++ " ")) eqn:Hp;
    [|split; [done | by right]].
  split; [|left; by eexists].
  intros cred [= <-]. apply HasPrefix_inv in Hp as [rest ->].
  by rewrite TrimPrefix_append, append_assoc.
Qed.

(** Every way the cookie loop can end. *)
Lemma cookieParts_cases (parts : list string) (keySelector : string) :
  (Forall (fun p => head (strings.Split (strings.TrimSpace p) "=") <> Some keySelector) parts
   /\ auth_credentials.cookieParts parts keySelector = Err auth_credentials.notFoundErr)
  \/ exists before part after,
      parts = (before ++ part :: after)%list
      /\ Forall (fun p => head (strings.Split (strings.TrimSpace p) "=") <> Some keySelector)
           before
      /\ head (strings.Split (strings.TrimSpace part) "=") = Some keySelector
      /\ auth_credentials.cookieParts parts keySelector
         = auth_credentials.index (strings.Split (strings.TrimSpace part) "=") 1.
Proof.
  induction parts as [|p parts IH]; simpl.
  - left. by split.
  - pose proof (Split_nonempty "=" (strings.TrimSpace p)) as Hne.
    destruct (strings.Split (strings.TrimSpace p) "=") as [|key values] eqn:Hsplit;
      [done|]. simpl.
    destruct (String.eqb_spec key keySelector) as [->|Hkey].
    + right. exists [], p, parts. rewrite Hsplit. by repeat split.
    + assert (head (strings.Split (strings.TrimSpace p) "=") <> Some keySelector) as Hp.
      { rewrite Hsplit. simpl. congruence. }
      destruct IH as [[Hall ->] | (before & part & after & -> & Hbefore & Hpart & ->)].
      * left. split; [by constructor | done].
      * right. exists (p :: before), part, after. repeat split; [by constructor | done].
Qed.

(** X6.  The cookie loop answers with the first part, in the order of the
    header, whose key is the key selector, and returns the text between
    the first and the second [=] of that part (the whole value when it
    holds no [=]); later parts with the same key are not looked at. *)
Theorem cookie_first_match (keySelector header part cred : string)
    (before after more : list string) :
  headers !! "cookie" = Some header ->
  strings.Split header ";" = (before ++ part :: after)%list ->
  Forall (fun p => head (strings.Split (strings.TrimSpace p) "=") <> Some keySelector)
    before ->
  strings.Split (strings.TrimSpace part) "=" = keySelector :: cred :: more ->
  auth_credentials.extract keySelector "cookie" headers path = Ok cred.
Proof.
  intros Hcookie Hsplit Hbefore Hpart.
  change (auth_credentials.extract keySelector "cookie" headers path)
    with (auth_credentials.getFromCookieHeader headers keySelector).
  unfold auth_credentials.getFromCookieHeader. rewrite Hcookie, Hsplit.
  clear Hcookie Hsplit.
  induction Hbefore as [|p before Hp _ IH]; simpl.
  - rewrite Hpart. simpl. by rewrite String.eqb_refl.
  - pose proof (Split_nonempty "=" (strings.TrimSpace p)) as Hne.
    destruct (strings.Split (strings.TrimSpace p) "=") as [|key values]; [done|].
    simpl in *. destruct (String.eqb_spec key keySelector) as [->|_]; [done | exact IH].
Qed.

(** X7.  The cookie locator answers with the credential-not-found error when
    there is no [cookie] header, and when no part of the header has the key
    selector as its key. *)
Theorem cookie_not_found (keySelector : string) :
  (headers !! "cookie" = None ->
   auth_credentials.extract keySelector "cookie" headers path
   = Err auth_credentials.notFoundErr)
  /\ (forall header,
      headers !! "cookie" = Some header ->
      Forall (fun p => head (strings.Split (strings.TrimSpace p) "=") <> Some keySelector)
        (strings.Split header ";") ->
      auth_credentials.extract keySelector "cookie" headers path
      = Err auth_credentials.notFoundErr).
Proof.
  change (auth_credentials.extract keySelector "cookie" headers path)
    with (auth_credentials.getFromCookieHeader headers keySelector).
  unfold auth_credentials.getFromCookieHeader. split.
  - by intros ->.
  - intros header -> Hall.
    destruct (cookieParts_cases (strings.Split header ";") keySelector)
      as [[_ ->] | (before & part & after & Heq & _ & Hpart & _)]; [done|].
    rewrite Heq in Hall. apply Forall_app in Hall as [_ Hall].
    by apply Forall_cons in Hall as [Hno _].
Qed.

(** X8.  A credential returned by the cookie locator is the second of the
    [=]-separated pieces of a part of the [cookie] header whose first piece
    is the key selector, and no earlier part has that key. *)
Theorem cookie_sound (keySelector cred : string) :
  auth_credentials.extract keySelector "cookie" headers path = Ok cred ->
  exists header before part after more,
    headers !! "cookie" = Some header
    /\ strings.Split header ";" = (before ++ part :: after)%list
    /\ Forall (fun p => head (strings.Split (strings.TrimSpace p) "=") <> Some keySelector)
         before
    /\ strings.Split (strings.TrimSpace part) "=" = keySelector :: cred :: more.
Proof.
  change (auth_credentials.extract keySelector "cookie" headers path)
    with (auth_credentials.getFromCookieHeader headers keySelector).
  unfold auth_credentials.getFromCookieHeader.
  destruct (headers !! "cookie") as [header|]; [|done].
  destruct (cookieParts_cases (strings.Split header ";") keySelector)
    as [[_ ->] | (before & part & after & Heq & Hbefore & Hpart & ->)]; [done|].
  intros Hindex.
  destruct (strings.Split (strings.TrimSpace part) "=") as [|key [|value more]] eqn:Hs;
    try done.
  simpl in Hpart, Hindex. injection Hpart as ->. injection Hindex as ->.
  by exists header, before, part, after, more.
Qed.

End LocatorMore.

Section LocatorMoreWitnesses.

Local Open Scope string_scope.

Lemma unsupported_location_witness :
  auth_credentials.GetCredentialsFromReq
    {| auth_credentials.KeySelector := "token"; auth_credentials.In := "body" |}
    {| envoy_auth.Headers := ∅; envoy_auth.Path := "/" |}
  = Err (Errorf "the credential location is not supported").
Proof. apply unsupported_location; discriminate. Defined.

Lemma default_credential_reads_bearer_witness :
  auth_credentials.GetCredentialsFromReq
    (auth_credentials.NewAuthCredential EmptyString EmptyString)
    {| envoy_auth.Headers := {[ "authorization" := "Bearer abc" ]};
       envoy_auth.Path := "/" |}
  = Ok "abc".
Proof.
  apply (default_credential_reads_bearer {[ "authorization" := "Bearer abc" ]} "/" "abc").
  vm_compute. reflexivity.
Defined.

Lemma custom_header_lookup_is_lower_cased_witness :
  auth_credentials.extract "X-API-Key" "custom_header" {[ "X-API-Key" := "k" ]} "/"
  = Err auth_credentials.notFoundErr
  /\ auth_credentials.extract "X-API-Key" "custom_header" {[ "x-api-key" := "k" ]} "/"
     = Ok "k".
Proof.
  split.
  - destruct (custom_header_lookup_is_lower_cased {[ "X-API-Key" := "k" ]} "/"
                "X-API-Key" eq_refl) as (lower & [= <-] & _ & _ & Hnone).
    apply Hnone. vm_compute. reflexivity.
  - destruct (custom_header_lookup_is_lower_cased {[ "x-api-key" := "k" ]} "/"
                "X-API-Key" eq_refl) as (lower & [= <-] & _ & Hsome & _).
    apply Hsome. vm_compute. reflexivity.
Defined.

Lemma authorization_header_sound_witness :
  ({[ "authorization" := "Bearer abc" ]} : gmap string string) !! "authorization"
  = Some ("Bearer" ++ " " ++ "abc").
Proof.
  apply (proj1 (authorization_header_sound {[ "authorization" := "Bearer abc" ]} "/"
                  "Bearer")).
  vm_compute. reflexivity.
Defined.

Lemma cookie_first_match_witness :
  auth_credentials.extract "token" "cookie"
    {[ "cookie" := "a=1; token=x=y; token=z" ]} "/" = Ok "x".
Proof.
  apply (cookie_first_match {[ "cookie" := "a=1; token=x=y; token=z" ]} "/" "token"
           "a=1; token=x=y; token=z" " token=x=y" "x" ["a=1"] [" token=z"] ["y"]).
  - vm_compute. reflexivity.
  - vm_compute. reflexivity.
  - constructor; [|constructor]. vm_compute. discriminate.
  - vm_compute. reflexivity.
Defined.

Lemma cookie_not_found_witness :
  auth_credentials.extract "token" "cookie" {[ "cookie" := "a=1; b=2" ]} "/"
  = Err auth_credentials.notFoundErr.
Proof.
  apply (proj2 (cookie_not_found {[ "cookie" := "a=1; b=2" ]} "/" "token") "a=1; b=2").
  - vm_compute. reflexivity.
  - change (strings.Split "a=1; b=2" ";") with ["a=1"; " b=2"].
    constructor; [vm_compute; discriminate|].
    constructor; [vm_compute; discriminate|]. constructor.
Defined.

Lemma cookie_sound_witness :
  exists header before part after more,
    ({[ "cookie" := "a=1; token=xyz" ]} : gmap string string) !! "cookie" = Some header
    /\ strings.Split header ";" = (before ++ part :: after)%list
    /\ Forall (fun p => head (strings.Split (strings.TrimSpace p) "=") <> Some "token")
         before
    /\ strings.Split (strings.TrimSpace part) "=" = "token" :: "xyz" :: more.
Proof.
  apply (cookie_sound {[ "cookie" := "a=1; token=xyz" ]} "/" "token" "xyz").
  vm_compute. reflexivity.
Defined.

End LocatorMoreWitnesses.

(** ** The concurrent runner *)

Section RunnerMore.

Import service.

Variable es : strategy.

Lemma inFlight_app wg1 wg2 : inFlight (wg1 ++ wg2) = inFlight wg1 + inFlight wg2.
Proof.
  induction wg1 as [|[c|c] wg1 IH]; simpl; [done | done | by rewrite IH].
Qed.

Lemma inFlight_spawned authConfigs : inFlight (map Spawned authConfigs) = 0.
Proof. induction authConfigs as [|c cs IH]; simpl; done. Qed.

(** X9.  Every evaluator sends at most one response: the evaluators of the
    responses on the closed channel are, with their multiplicities, among
    the configs the runner was given, so the channel never holds more
    responses than there are configs. *)
Theorem runner_at_most_one_response authConfigs ch :
  evaluateAuthConfigs authConfigs es ch ->
  map Evaluator ch ⊆+ authConfigs /\ length ch <= length authConfigs.
Proof.
  intros Hrun. split.
  - by apply (closed_channel_accounted es).
  - by apply (closed_channel_length es).
Qed.

(** X10.  A response that reports a failure carries no object: on every
    channel, a failed response has a nil [Object] and a non-nil [Error]. *)
Theorem failed_response_carries_no_object authConfigs ch resp :
  evaluateAuthConfigs authConfigs es ch ->
  resp ∈ ch -> Success resp = false ->
  Object resp = VNull /\ is_Some (Error resp).
Proof.
  intros Hrun Hin Hfail. split.
  - apply (closed_channel_well_formed es) in Hrun.
    by apply (proj1 (Forall_forall _ _) Hrun).
  - by apply failed_has_error.
Qed.

(** As long as the context is not cancelled, nothing is lost: every config
    is in the wait group or has its response on the channel. *)
Lemma uncancelled_accounted authConfigs r :
  rtc (step es) (spawn authConfigs) r ->
  ctxCancelled r = false ->
  map Evaluator (respChannel r) ++ map configOf (waitGroup r) ≡ₚ authConfigs.
Proof.
  intros Hrtc.
  eapply (rtc_ind_r (fun r => ctxCancelled r = false ->
            map Evaluator (respChannel r) ++ map configOf (waitGroup r) ≡ₚ authConfigs));
    [| |exact Hrtc].
  - intros _. unfold spawn. simpl. rewrite <- list_fmap_compose.
    by rewrite list_fmap_id.
  - clear r Hrtc. intros r r' _ Hstep IH.
    destruct Hstep as
      [r | r before after config err Hwg Hctx | r before after config Hwg _
       | r before after config call resp cb Hwg Hcall]; simpl.
    + done.
    + intros Hfalse. rewrite Hfalse in Hctx. done.
    + intros Hfalse. rewrite <- (IH Hfalse), Hwg. by rewrite !map_app.
    + intros Hfire.
      assert (ctxCancelled r = false) as Hfalse.
      { destruct cb as [[]|]; [done | exact Hfire]. }
      rewrite <- (IH Hfalse), Hwg.
      apply evaluateAuthConfig_called in Hcall as (resp' & -> & Hev & _). simpl.
      rewrite !map_app. simpl. rewrite Hev.
      rewrite <- !(assoc_L (++)). apply Permutation_app_head. simpl.
      by rewrite Permutation_middle.
Qed.

(** X11.  When the context is still not cancelled at the moment the wait
    group is done, every config has sent its response: the evaluators of
    the responses on the channel are the configs, in some order. *)
Theorem uncancelled_runner_loses_nothing authConfigs final :
  rtc (step es) (spawn authConfigs) final ->
  waitGroup final = [] ->
  ctxCancelled final = false ->
  map Evaluator (respChannel final) ≡ₚ authConfigs.
Proof.
  intros Hrtc Hwg Hctx.
  pose proof (uncancelled_accounted _ _ Hrtc Hctx) as H.
  by rewrite Hwg, app_nil_r in H.
Qed.

(** What triggers the cancellation, as an invariant of the step relation,
    where a response is sent and its callback runs in one step. *)
Lemma cancel_trigger authConfigs r :
  rtc (step es) (spawn authConfigs) r ->
  (es = evaluateOneAuthConfig ->
   Exists (fun resp => Success resp = true) (respChannel r) -> ctxCancelled r = true)
  /\ (es = evaluateAllAuthConfigs ->
      Exists failed (respChannel r) -> ctxCancelled r = true).
Proof.
  intros Hrtc.
  eapply (rtc_ind_r (fun r =>
            (es = evaluateOneAuthConfig ->
             Exists (fun resp => Success resp = true) (respChannel r) ->
             ctxCancelled r = true)
            /\ (es = evaluateAllAuthConfigs ->
                Exists failed (respChannel r) -> ctxCancelled r = true)));
    [| |exact Hrtc].
  - simpl. split; intros _ H; by apply Exists_nil in H.
  - clear r Hrtc. intros r r' _ Hstep [IH1 IH2].
    destruct Hstep as
      [r | r before after config err Hwg Hctx | r before after config Hwg _
       | r before after config call resp cb Hwg Hcall]; simpl; try done.
    apply evaluateAuthConfig_called in Hcall as (resp' & -> & _ & Hcase). simpl.
    split; intros Hes [Hold | Hnew]%Exists_app.
    + rewrite (IH1 Hes Hold). by destruct cb as [[]|].
    + apply Exists_cons in Hnew as [Hnew | Hnil]; [|by apply Exists_nil in Hnil].
      destruct Hcase as [(_ & _ & _ & ->) | (Hfail & _)]; [|congruence].
      by rewrite Hes.
    + rewrite (IH2 Hes Hold). by destruct cb as [[]|].
    + apply Exists_cons in Hnew as [Hnew | Hnil]; [|by apply Exists_nil in Hnil].
      destruct Hcase as [(Hs & _) | (_ & _ & _ & ->)]; [unfold failed in Hnew; congruence|].
      by rewrite Hes.
Qed.

(** X12.  When the wait group is done, every goroutine that sent a response
    has run its callback: under the first-success strategy the context is
    cancelled if a successful response is on the channel; under the
    all-succeed strategy, if a failed response is. *)
Theorem strategy_cancels authConfigs final :
  rtc (step es) (spawn authConfigs) final ->
  waitGroup final = [] ->
  (es = evaluateOneAuthConfig ->
   Exists (fun resp => Success resp = true) (respChannel final) ->
   ctxCancelled final = true)
  /\ (es = evaluateAllAuthConfigs ->
      Exists failed (respChannel final) -> ctxCancelled final = true).
Proof. intros Hrtc _. by apply (cancel_trigger authConfigs). Qed.

(** Once the context is cancelled it stays so, no goroutine enters
    [config.Call] any more, and every call in flight sends its response. *)
Lemma cancelled_drains r r' :
  ctxCancelled r = true ->
  rtc (step es) r r' ->
  ctxCancelled r' = true
  /\ length (respChannel r') + inFlight (waitGroup r')
     = length (respChannel r) + inFlight (waitGroup r).
Proof.
  intros Hctx Hrtc.
  eapply (rtc_ind_r (fun r' =>
            ctxCancelled r' = true
            /\ length (respChannel r') + inFlight (waitGroup r')
               = length (respChannel r) + inFlight (waitGroup r)));
    [| |exact Hrtc]; [done|].
  clear r' Hrtc. intros r1 r2 _ Hstep [IHc IH].
  destruct Hstep as
      [r1 | r1 before after config err Hwg Hcheck | r1 before after config Hwg Hcheck
       | r1 before after config call resp cb Hwg Hcall]; simpl.
  - done.
  - split; [done|]. rewrite <- IH, Hwg, !inFlight_app. simpl. done.
  - rewrite IHc in Hcheck. done.
  - split; [rewrite IHc; by destruct cb as [[]|]|].
    apply evaluateAuthConfig_called in Hcall as (resp' & -> & _). simpl.
    rewrite <- IH, Hwg, !inFlight_app, length_app. simpl. lia.
Qed.


(** From a start under a cancelled context the channel stays empty. *)
Lemma cancelled_start_empty authConfigs final :
  rtc (step es) (spawnCancelled authConfigs) final ->
  waitGroup final = [] ->
  respChannel final = [].
Proof.
  intros Hrtc Hwg.
  destruct (cancelled_drains (spawnCancelled authConfigs) final eq_refl Hrtc)
    as [_ Hlen].
  rewrite Hwg in Hlen. simpl in Hlen. rewrite inFlight_spawned in Hlen.
  destruct (respChannel final); [done | simpl in Hlen; lia].
Qed.

(** X14.  Under a context that is cancelled when the goroutines start, no
    evaluator is called at all and the channel is closed empty. *)
Theorem cancelled_before_start_sends_nothing authConfigs final :
  rtc (step es) (spawnCancelled authConfigs) final ->
  waitGroup final = [] ->
  respChannel final = [].
Proof. apply cancelled_start_empty. Qed.

(** The run in which the parent context is cancelled before any goroutine
    has passed [CheckContext]. *)
Lemma cancelled_run authConfigs : evaluateAuthConfigs authConfigs es [].
Proof.
  destruct (runner_finishes es (fun _ => (VNull, None)) (spawnCancelled authConfigs))
    as (final & Hrtc & Hwg & _).
  exists final. split; [|split; [done|]].
  - eapply rtc_l; [|exact Hrtc]. apply (step_parent_cancel es (spawn authConfigs)).
  - by eapply cancelled_start_empty.
Qed.

(** The sequential schedule, with the state it ends in. *)
Lemma sequential_rtc call authConfigs cancelled sent :
  rtc (step es)
    {| ctxCancelled := cancelled; waitGroup := map Spawned authConfigs;
       respChannel := sent |}
    {| ctxCancelled := sequentialCancelled es call authConfigs cancelled;
       waitGroup := [];
       respChannel := sent ++ sequential es call authConfigs cancelled |}.
Proof.
  revert cancelled sent.
  induction authConfigs as [|config rest IH]; intros cancelled sent.
  - simpl. by rewrite app_nil_r.
  - rewrite sequential_cons.
    change (sequentialCancelled es call (config :: rest) cancelled)
      with (let '(_, cb) :=
              evaluateAuthConfig config (CheckContext cancelled) (call config)
                (callbacks es).1 (callbacks es).2 in
            sequentialCancelled es call rest (fire cb cancelled)).
    destruct cancelled.
    + simpl. eapply rtc_l; [|apply (IH true sent)].
      by apply (step_skip es
                  {| ctxCancelled := true; waitGroup := map Spawned (config :: rest);
                     respChannel := sent |} [] (map Spawned rest) config
                  (Errorf "context canceled")).
    + unfold CheckContext.
      destruct (evaluateAuthConfig config None (call config) (callbacks es).1
                  (callbacks es).2) as [resp cb] eqn:Hcall.
      eapply rtc_l.
      { by apply (step_enter es
                    {| ctxCancelled := false; waitGroup := map Spawned (config :: rest);
                       respChannel := sent |} [] (map Spawned rest) config). }
      eapply rtc_l.
      { by apply (step_return es
                    {| ctxCancelled := false;
                       waitGroup := Calling config :: map Spawned rest;
                       respChannel := sent |} [] (map Spawned rest) config
                    (call config) resp cb). }
      simpl.
      replace (sent ++ send resp [] ++ sequential es call rest (fire cb false))
        with (send resp sent ++ sequential es call rest (fire cb false));
        [apply IH|].
      destruct resp; simpl; [by rewrite <- (assoc_L (++)) | done].
Qed.

End RunnerMore.

Section RunnerMoreWitnesses.

Import service.

Lemma runner_at_most_one_response_witness :
  length (sequential evaluateOneAuthConfig scenario.call
            (IdentityConfigs scenario.api) false) <= 2.
Proof.
  exact (proj2 (runner_at_most_one_response evaluateOneAuthConfig
                  (IdentityConfigs scenario.api) _
                  (sequential_run evaluateOneAuthConfig scenario.call
                     (IdentityConfigs scenario.api)))).
Defined.

Lemma failed_response_carries_no_object_witness :
  Object (newEvaluationResponse (IdentityConfig 1%N) VNull
            (Some (Errorf "credential not found"))) = VNull
  /\ is_Some (Error (newEvaluationResponse (IdentityConfig 1%N) VNull
                       (Some (Errorf "credential not found")))).
Proof.
  apply (failed_response_carries_no_object evaluateOneAuthConfig
           (IdentityConfigs scenario.api)
           (sequential evaluateOneAuthConfig scenario.call
              (IdentityConfigs scenario.api) false)).
  - apply sequential_run.
  - apply list_elem_of_here.
  - reflexivity.
Defined.

Lemma uncancelled_runner_loses_nothing_witness :
  map Evaluator (sequential evaluateAnyAuthConfig scenario.call
                   (MetadataConfigs scenario.api) false)
  ≡ₚ MetadataConfigs scenario.api.
Proof.
  apply (uncancelled_runner_loses_nothing evaluateAnyAuthConfig
           (MetadataConfigs scenario.api)
           {| ctxCancelled := false; waitGroup := [];
              respChannel := sequential evaluateAnyAuthConfig scenario.call
                               (MetadataConfigs scenario.api) false |}).
  - exact (sequential_rtc evaluateAnyAuthConfig scenario.call
             (MetadataConfigs scenario.api) false []).
  - reflexivity.
  - reflexivity.
Defined.

Lemma strategy_cancels_witness :
  sequentialCancelled evaluateOneAuthConfig scenario.call
    (IdentityConfigs scenario.api) false = true.
Proof.
  refine (proj1 (strategy_cancels evaluateOneAuthConfig (IdentityConfigs scenario.api)
                   {| ctxCancelled :=
                        sequentialCancelled evaluateOneAuthConfig scenario.call
                          (IdentityConfigs scenario.api) false;
                      waitGroup := [];
                      respChannel := sequential evaluateOneAuthConfig scenario.call
                                       (IdentityConfigs scenario.api) false |}
                   _ eq_refl) eq_refl _).
  - exact (sequential_rtc evaluateOneAuthConfig scenario.call
             (IdentityConfigs scenario.api) false []).
  - apply Exists_cons_tl, Exists_cons_hd. reflexivity.
Defined.


Lemma cancelled_before_start_sends_nothing_witness :
  sequential evaluateOneAuthConfig scenario.call (IdentityConfigs scenario.api) true = [].
Proof.
  apply (cancelled_before_start_sends_nothing evaluateOneAuthConfig
           (IdentityConfigs scenario.api)
           {| ctxCancelled := true; waitGroup := [];
              respChannel := sequential evaluateOneAuthConfig scenario.call
                               (IdentityConfigs scenario.api) true |}).
  - exact (sequential_rtc evaluateOneAuthConfig scenario.call
             (IdentityConfigs scenario.api) true []).
  - reflexivity.
Defined.

End RunnerMoreWitnesses.

(** ** The three phases and [Evaluate] *)

Section PhasesMore.

Import service.

Implicit Types (ch : list EvaluationResponse) (pipeline : AuthPipeline).

Lemma authorization_loop_failure stored resp rest pipeline :
  Forall (fun r => Success r = true) stored -> failed resp ->
  exists pipeline',
    evaluateAuthorizationConfigs (stored ++ resp :: rest) pipeline
    = (pipeline', Error resp, rest)
    /\ Authorization pipeline' = foldl storeAuthorization (Authorization pipeline) stored
    /\ Identity pipeline' = Identity pipeline
    /\ Metadata pipeline' = Metadata pipeline.
Proof.
  intros Hstored Hresp. revert pipeline.
  induction Hstored as [|r stored Hr _ IH]; intros pipeline; simpl.
  - unfold failed in Hresp. rewrite Hresp. by exists pipeline.
  - rewrite Hr.
    destruct (IH (setAuthorization pipeline (asAuthorizationConfig (Evaluator r)) (Object r)))
      as (pipeline' & Heq & Ha & Hi & Hm).
    exists pipeline'. by rewrite Heq, Ha, Hi, Hm.
Qed.

Lemma authorization_loop_success ch pipeline :
  Forall (fun r => Success r = true) ch ->
  exists pipeline',
    evaluateAuthorizationConfigs ch pipeline = (pipeline', None, [])
    /\ Authorization pipeline' = foldl storeAuthorization (Authorization pipeline) ch
    /\ Identity pipeline' = Identity pipeline
    /\ Metadata pipeline' = Metadata pipeline.
Proof.
  intros Hall. revert pipeline.
  induction Hall as [|r ch Hr _ IH]; intros pipeline; simpl.
  - by exists pipeline.
  - rewrite Hr.
    destruct (IH (setAuthorization pipeline (asAuthorizationConfig (Evaluator r)) (Object r)))
      as (pipeline' & Heq & Ha & Hi & Hm).
    exists pipeline'. by rewrite Heq, Ha, Hi, Hm.
Qed.

(** X15.  Over the channel that the all-succeed runner fills: the
    authorization phase stores the objects of the successful responses
    read before the first failed one, returns the error of that one and
    leaves the later responses unread; when every response is a success it
    stores them all and returns no error.  The identity and metadata maps
    are not touched. *)
Theorem authorization_phase_result authConfigs ch pipeline :
  evaluateAuthConfigs authConfigs evaluateAllAuthConfigs ch ->
  (forall stored resp rest,
      ch = stored ++ resp :: rest ->
      Forall (fun r => Success r = true) stored -> failed resp ->
      is_Some (Error resp) /\ Evaluator resp ∈ authConfigs
      /\ exists pipeline',
          evaluateAuthorizationConfigs ch pipeline = (pipeline', Error resp, rest)
          /\ Authorization pipeline'
             = foldl storeAuthorization (Authorization pipeline) stored
          /\ Identity pipeline' = Identity pipeline
          /\ Metadata pipeline' = Metadata pipeline)
  /\ (Forall (fun r => Success r = true) ch ->
      exists pipeline',
        evaluateAuthorizationConfigs ch pipeline = (pipeline', None, [])
        /\ Authorization pipeline' = foldl storeAuthorization (Authorization pipeline) ch
        /\ Identity pipeline' = Identity pipeline
        /\ Metadata pipeline' = Metadata pipeline).
Proof.
  intros Hrun. split.
  - intros stored resp rest -> Hstored Hresp.
    split; [by apply failed_has_error|]. split.
    + eapply closed_channel_evaluator; [exact Hrun|].
      apply elem_of_app. right. apply list_elem_of_here.
    + by apply authorization_loop_failure.
  - apply authorization_loop_success.
Qed.

Lemma identity_loop_fields ch lastError pipeline :
  let pipeline' := (identityLoop ch lastError pipeline).1.1 in
  Request pipeline' = Request pipeline /\ API pipeline' = API pipeline
  /\ Metadata pipeline' = Metadata pipeline
  /\ Authorization pipeline' = Authorization pipeline
  /\ forall k, is_Some (Identity pipeline !! k) -> is_Some (Identity pipeline' !! k).
Proof.
  revert lastError. induction ch as [|r ch IH]; intros lastError; simpl; [done|].
  destruct (Success r); [|apply IH]. simpl. repeat split.
  intros k Hk. apply lookup_insert_is_Some. destruct (decide (asIdentityConfig (Evaluator r) = k));
    [by left | by right].
Qed.

Lemma metadata_loop_keeps ch pipeline k :
  is_Some (Metadata pipeline !! k) ->
  is_Some (Metadata (evaluateMetadataConfigs ch pipeline) !! k).
Proof.
  revert pipeline. induction ch as [|r ch IH]; intros pipeline Hk; simpl; [done|].
  destruct (Success r); apply IH; [|done]. simpl.
  apply lookup_insert_is_Some. destruct (decide (asMetadataConfig (Evaluator r) = k));
    [by left | by right].
Qed.

Lemma authorization_loop_fields ch pipeline :
  let pipeline' := (evaluateAuthorizationConfigs ch pipeline).1.1 in
  Request pipeline' = Request pipeline /\ API pipeline' = API pipeline
  /\ Identity pipeline' = Identity pipeline
  /\ Metadata pipeline' = Metadata pipeline
  /\ forall k, is_Some (Authorization pipeline !! k) -> is_Some (Authorization pipeline' !! k).
Proof.
  revert pipeline. induction ch as [|r ch IH]; intros pipeline; simpl; [done|].
  destruct (Success r); [|done].
  destruct (IH (setAuthorization pipeline (asAuthorizationConfig (Evaluator r)) (Object r)))
    as (-> & -> & -> & -> & Hkeep).
  repeat split. intros k Hk. apply Hkeep. simpl.
  apply lookup_insert_is_Some. destruct (decide (asAuthorizationConfig (Evaluator r) = k));
    [by left | by right].
Qed.

(** X16.  [Evaluate] never removes an entry from the three maps and never
    changes the request or the API that [GetRequest], [GetHttp] and
    [GetAPI] hand to the evaluators, whatever the channels carry and
    whether it allows or denies. *)
Theorem evaluate_keeps identityCh metadataCh authorizationCh pipeline :
  let pipeline' := (Evaluate identityCh metadataCh authorizationCh pipeline).1 in
  GetRequest pipeline' = GetRequest pipeline
  /\ GetHttp pipeline' = GetHttp pipeline
  /\ GetAPI pipeline' = GetAPI pipeline
  /\ (forall k, is_Some (Identity pipeline !! k) -> is_Some (Identity pipeline' !! k))
  /\ (forall k, is_Some (Metadata pipeline !! k) -> is_Some (Metadata pipeline' !! k))
  /\ (forall k, is_Some (Authorization pipeline !! k)
                -> is_Some (Authorization pipeline' !! k)).
Proof.
  unfold Evaluate, evaluateIdentityConfigs, GetRequest, GetHttp, GetAPI.
  pose proof (identity_loop_fields identityCh None pipeline) as Hid.
  destruct (identityLoop identityCh None pipeline) as [[p1 e1] rest1].
  simpl in Hid. destruct Hid as (Hr1 & Ha1 & Hm1 & Hz1 & Hk1).
  destruct e1 as [e1|]; simpl.
  { rewrite Hr1, Ha1, Hm1, Hz1. by repeat split. }
  pose proof (evaluateMetadataConfigs_fields metadataCh p1) as (_ & Hi2 & Hz2 & Hr2 & Ha2).
  pose proof (authorization_loop_fields authorizationCh (evaluateMetadataConfigs metadataCh p1))
    as Hau.
  destruct (evaluateAuthorizationConfigs authorizationCh (evaluateMetadataConfigs metadataCh p1))
    as [[p3 e3] rest3].
  simpl in Hau. destruct Hau as (Hr3 & Ha3 & Hi3 & Hm3 & Hk3).
  assert (Request p3 = Request pipeline /\ API p3 = API pipeline
          /\ (forall k, is_Some (Identity pipeline !! k) -> is_Some (Identity p3 !! k))
          /\ (forall k, is_Some (Metadata pipeline !! k) -> is_Some (Metadata p3 !! k))
          /\ (forall k, is_Some (Authorization pipeline !! k)
                        -> is_Some (Authorization p3 !! k))) as (HR & HA & HI & HM & HZ).
  { repeat split.
    - by rewrite Hr3, Hr2.
    - by rewrite Ha3, Ha2.
    - intros k Hk. rewrite Hi3, Hi2. by apply Hk1.
    - intros k Hk. rewrite Hm3. apply metadata_loop_keeps. by rewrite Hm1.
    - intros k Hk. apply Hk3. by rewrite Hz2, Hz1. }
  destruct e3; simpl; rewrite HR, HA; by repeat split.
Qed.

(** X17.  When [Evaluate] returns an error, either every identity response
    failed, the error is that of the last one and the pipeline is as it
    was, metadata and authorization not having been evaluated; or the
    identity phase returned no error and the error is that of the first
    failed authorization response, the authorization map holding the
    objects of the successful ones read before it. *)
Theorem evaluate_denial identityCh metadataCh authorizationCh pipeline pipeline' err :
  Evaluate identityCh metadataCh authorizationCh pipeline = (pipeline', Some err) ->
  (Forall failed identityCh
   /\ (exists before resp, identityCh = before ++ [resp] /\ Error resp = Some err)
   /\ pipeline' = pipeline)
  \/ exists pipeline1 unread stored resp rest,
      evaluateIdentityConfigs identityCh pipeline = (pipeline1, None, unread)
      /\ authorizationCh = stored ++ resp :: rest
      /\ Forall (fun r => Success r = true) stored
      /\ failed resp /\ Error resp = Some err
      /\ Identity pipeline' = Identity pipeline1
      /\ Metadata pipeline' = Metadata (evaluateMetadataConfigs metadataCh pipeline1)
      /\ Authorization pipeline'
         = foldl storeAuthorization (Authorization pipeline) stored.
Proof.
  unfold Evaluate, evaluateIdentityConfigs.
  pose proof (identity_loop_fields identityCh None pipeline) as Hfields.
  destruct (identityLoop identityCh None pipeline) as [[p1 e1] rest1] eqn:Hid.
  simpl in Hfields. destruct Hfields as (_ & _ & _ & Hz1 & _).
  destruct e1 as [e1|].
  - intros [= <- <-]. left.
    apply identityLoop_cases in Hid
      as [(? & ? & _ & _ & _ & _ & ?) | (Hall & -> & _ & Hlast)]; [done|].
    destruct Hlast as [[_ ?] | (before & resp & -> & Herr)]; [done|].
    repeat split; [done | by exists before, resp].
  - destruct (evaluateAuthorizationConfigs authorizationCh
                (evaluateMetadataConfigs metadataCh p1)) as [[p3 e3] rest3] eqn:Hauth.
    destruct e3 as [e3|]; [|done]. intros [= <- <-]. right.
    apply evaluateAuthorizationConfigs_cases in Hauth
      as (stored & Hstored & Hauthz & Hident & Hmeta & Hcase).
    destruct Hcase as [(_ & ? & _) | (resp & -> & Hresp & Herr)]; [done|].
    destruct (evaluateMetadataConfigs_fields metadataCh p1) as (_ & Hi2 & Hz2 & _).
    exists p1, rest1, stored, resp, rest3.
    repeat split; try done.
    + by rewrite Hident, Hi2.
    + by rewrite Hauthz, Hz2, Hz1.
Qed.

End PhasesMore.

Section PhasesMoreWitnesses.

Import service.

Lemma authorization_phase_result_witness :
  (exists pipeline',
      evaluateAuthorizationConfigs
        (sequential evaluateAllAuthConfigs scenario.deny
           (AuthorizationConfigs scenario.api) false)
        (NewAuthPipeline scenario.request scenario.api)
      = (pipeline', Some (Errorf "invalid token"), [])
      /\ Authorization pipeline' = ∅)
  /\ exists pipeline',
      evaluateAuthorizationConfigs
        (sequential evaluateAllAuthConfigs scenario.call
           (AuthorizationConfigs scenario.api) false)
        (NewAuthPipeline scenario.request scenario.api)
      = (pipeline', None, [])
      /\ Authorization pipeline' = <[6%N := VBool true]> (<[5%N := VBool true]> ∅).
Proof.
  split.
  - destruct (proj1 (authorization_phase_result (AuthorizationConfigs scenario.api) _
                       (NewAuthPipeline scenario.request scenario.api)
                       (sequential_run evaluateAllAuthConfigs scenario.deny
                          (AuthorizationConfigs scenario.api)))
                []
                (newEvaluationResponse (AuthorizationConfig 5%N) VNull
                   (Some (Errorf "invalid token")))
                [] eq_refl (Forall_nil_2 _) eq_refl)
      as (_ & _ & pipeline' & Heq & Hauth & _).
    exists pipeline'. split; [exact Heq | exact Hauth].
  - destruct (proj2 (authorization_phase_result (AuthorizationConfigs scenario.api) _
                       (NewAuthPipeline scenario.request scenario.api)
                       (sequential_run evaluateAllAuthConfigs scenario.call
                          (AuthorizationConfigs scenario.api))))
      as (pipeline' & Heq & Hauth & _).
    + repeat constructor.
    + exists pipeline'. split; [exact Heq | exact Hauth].
Defined.

Lemma evaluate_denial_witness :
  exists pipeline1 unread stored resp rest,
    evaluateIdentityConfigs
      (sequential evaluateOneAuthConfig scenario.call (IdentityConfigs scenario.api) false)
      (NewAuthPipeline scenario.request scenario.api)
    = (pipeline1, None, unread)
    /\ sequential evaluateAllAuthConfigs scenario.deny
         (AuthorizationConfigs scenario.api) false
       = stored ++ resp :: rest
    /\ Forall (fun r => Success r = true) stored
    /\ failed resp /\ Error resp = Some (Errorf "invalid token").
Proof.
  destruct (evaluate_denial
              (sequential evaluateOneAuthConfig scenario.call
                 (IdentityConfigs scenario.api) false)
              (sequential evaluateAnyAuthConfig scenario.call
                 (MetadataConfigs scenario.api) false)
              (sequential evaluateAllAuthConfigs scenario.deny
                 (AuthorizationConfigs scenario.api) false)
              (NewAuthPipeline scenario.request scenario.api)
              _ (Errorf "invalid token") eq_refl)
    as [(Hall & _) | (p1 & unread & stored & resp & rest & H1 & H2 & H3 & H4 & H5 & _)].
  - exfalso. apply Forall_cons in Hall as [_ Hall].
    apply Forall_cons in Hall as [Hfail _]. discriminate Hfail.
  - by exists p1, unread, stored, resp, rest.
Defined.

End PhasesMoreWitnesses.

(** ** Reading the resolved state *)

Section ResolvedMore.

Import service.

Implicit Types (order : list (ptr * value)) (m : gmap ptr value).

(** X18.  When at most one entry of the identity map is not nil,
    [GetResolvedIdentity] does not depend on the order in which Go visits
    the map: it returns that entry, and [(nil, nil)] when there is none. *)
Theorem resolved_identity_unique m order :
  ranges m order ->
  (forall k v k' v',
      m !! k = Some v -> v <> VNull -> m !! k' = Some v' -> v' <> VNull -> k = k') ->
  (forall k v, m !! k = Some v -> v <> VNull -> GetResolvedIdentity order = (Some k, v))
  /\ ((forall k v, m !! k = Some v -> v = VNull) ->
      GetResolvedIdentity order = (None, VNull)).
Proof.
  intros Hr Huniq.
  destruct (GetResolvedIdentity_cases order)
    as [[Hall ->] | (before & k0 & v0 & after & Horder & _ & Hv0 & ->)].
  - split; [|done]. intros k v Hkv Hv.
    apply (ranges_elem _ _ _ _ Hr) in Hkv.
    by apply (proj1 (Forall_forall _ _) Hall) in Hkv.
  - assert (m !! k0 = Some v0) as Hk0.
    { apply (ranges_elem _ _ _ _ Hr). rewrite Horder.
      apply elem_of_app. right. apply list_elem_of_here. }
    split.
    + intros k v Hkv Hv.
      assert (k = k0) as -> by (by eapply Huniq).
      congruence.
    + intros Hnil. by apply Hnil in Hk0.
Qed.

(** X19.  On a fresh pipeline, what the identity phase stored is what
    [GetResolvedIdentity] returns, in every order of the visit: the config
    and the object of the first successful response, and [(nil, nil)] when
    that object is nil. *)
Theorem identity_round_trip req api before resp rest order :
  Forall failed before -> Success resp = true ->
  ranges (Identity (evaluateIdentityConfigs (before ++ resp :: rest)
                      (NewAuthPipeline req api)).1.1) order ->
  GetResolvedIdentity order
  = if notNil (Object resp)
    then (Some (asIdentityConfig (Evaluator resp)), Object resp)
    else (None, VNull).
Proof.
  intros Hbefore Hresp. unfold evaluateIdentityConfigs.
  rewrite (identityLoop_first_success _ _ _ _ _ Hbefore Hresp). simpl.
  unfold ranges. rewrite insert_empty, map_to_list_singleton.
  intros ->%Permutation_singleton_r. simpl.
  by destruct (notNil (Object resp)).
Qed.

(** X20.  [GetResolvedMetadata] does not depend on the order in which Go
    visits the metadata map: it holds the entries whose object is not nil,
    and only those. *)
Theorem resolved_metadata_order_independent m order1 order2 :
  ranges m order1 -> ranges m order2 ->
  GetResolvedMetadata order1 = GetResolvedMetadata order2
  /\ forall k v,
      GetResolvedMetadata order1 !! k = Some v <-> m !! k = Some v /\ v <> VNull.
Proof.
  intros H1 H2. split; [|intros k v; by apply GetResolvedMetadata_lookup].
  apply map_eq. intros k. apply option_eq. intros v.
  by rewrite (GetResolvedMetadata_lookup _ _ _ _ H1), (GetResolvedMetadata_lookup _ _ _ _ H2).
Qed.

End ResolvedMore.

Section ResolvedMoreWitnesses.

Import service.

Lemma resolved_identity_unique_witness :
  GetResolvedIdentity (map_to_list (Identity scenario.resolved))
  = (Some 2%N, VString "alice").
Proof.
  refine (proj1 (resolved_identity_unique (Identity scenario.resolved) _ _ _)
            2%N (VString "alice") _ _).
  - unfold ranges. reflexivity.
  - intros k v k' v' Hk _ Hk' _.
    unfold scenario.resolved in Hk, Hk'. simpl in Hk, Hk'.
    apply lookup_singleton_Some in Hk as [<- _].
    by apply lookup_singleton_Some in Hk' as [<- _].
  - vm_compute. reflexivity.
  - discriminate.
Defined.

Lemma identity_round_trip_witness :
  GetResolvedIdentity [(2%N, VString "alice")] = (Some 2%N, VString "alice").
Proof.
  refine (identity_round_trip scenario.request scenario.api
            [newEvaluationResponse (IdentityConfig 1%N) VNull
               (Some (Errorf "credential not found"))]
            (newEvaluationResponse (IdentityConfig 2%N) (VString "alice") None)
            [] [(2%N, VString "alice")] _ _ _).
  - repeat constructor.
  - reflexivity.
  - unfold ranges. vm_compute. reflexivity.
Defined.

Lemma resolved_metadata_order_independent_witness :
  GetResolvedMetadata [(3%N, VString "DE"); (4%N, VNull)]
  = GetResolvedMetadata [(4%N, VNull); (3%N, VString "DE")].
Proof.
  refine (proj1 (resolved_metadata_order_independent (Metadata scenario.resolved)
                   [(3%N, VString "DE"); (4%N, VNull)]
                   [(4%N, VNull); (3%N, VString "DE")] _ _)).
  - unfold ranges.
    change (map_to_list (Metadata scenario.resolved))
      with (map_to_list (<[3%N := VString "DE"]> ({[ 4%N := VNull ]} : gmap ptr value))).
    rewrite map_to_list_insert by (vm_compute; reflexivity).
    by rewrite map_to_list_singleton.
  - unfold ranges.
    change (map_to_list (Metadata scenario.resolved))
      with (map_to_list (<[3%N := VString "DE"]> ({[ 4%N := VNull ]} : gmap ptr value))).
    rewrite map_to_list_insert by (vm_compute; reflexivity).
    rewrite map_to_list_singleton. apply Permutation_swap.
Defined.

End ResolvedMoreWitnesses.

(** ** Cancellation and the verdict *)

Section Verdict.

Import service.

Implicit Types (ch : list EvaluationResponse) (pipeline : AuthPipeline).

(** X21.  When the parent context is cancelled before the goroutines of a
    phase pass [CheckContext], no evaluator is called, each loop reads an
    empty channel, and [Evaluate] returns no error and stores nothing:
    every pipeline, whatever its configs, has such a run. *)
Theorem cancelled_context_allows pipeline : Evaluate_run pipeline pipeline None.
Proof.
  eapply (run_authorization pipeline [] [] [] pipeline []);
    try apply cancelled_run; reflexivity.
Qed.

Lemma foldl_storeAuthorization_keeps stored (m : gmap ptr value) k :
  is_Some (m !! k) -> is_Some (foldl storeAuthorization m stored !! k).
Proof.
  revert m. induction stored as [|r stored IH]; intros m Hk; simpl; [done|].
  apply IH. unfold storeAuthorization. apply lookup_insert_is_Some.
  destruct (decide (asAuthorizationConfig (Evaluator r) = k)); [by left | by right].
Qed.

Lemma foldl_storeAuthorization_present stored (m : gmap ptr value) r :
  r ∈ stored ->
  is_Some (foldl storeAuthorization m stored !! asAuthorizationConfig (Evaluator r)).
Proof.
  revert m. induction stored as [|r0 stored IH]; intros m; simpl.
  - by intros ?%elem_of_nil.
  - intros [-> | Hin]%elem_of_cons; [|by apply IH].
    apply foldl_storeAuthorization_keeps. unfold storeAuthorization.
    rewrite lookup_insert_eq. by eexists.
Qed.

(** X22.  When the context of the authorization phase is never cancelled,
    every authorization config has answered with a success: the phase
    returns no error, reads the channel to its end, and every config has
    an entry in the authorization map. *)
Theorem uncancelled_authorization_stores_all authConfigs final pipeline :
  rtc (step evaluateAllAuthConfigs) (spawn authConfigs) final ->
  waitGroup final = [] ->
  ctxCancelled final = false ->
  exists pipeline',
    evaluateAuthorizationConfigs (respChannel final) pipeline = (pipeline', None, [])
    /\ forall config,
        config ∈ authConfigs ->
        is_Some (Authorization pipeline' !! asAuthorizationConfig config).
Proof.
  intros Hrtc Hwg Hctx.
  assert (Forall (fun r => Success r = true) (respChannel final)) as Hall.
  { apply Forall_forall. intros r Hin.
    destruct (Success r) eqn:Hr; [done|]. exfalso.
    destruct (cancel_trigger evaluateAllAuthConfigs _ _ Hrtc) as [_ Hcancel].
    rewrite Hcancel in Hctx; [done | done |].
    apply Exists_exists. by exists r. }
  destruct (authorization_loop_success _ pipeline Hall) as (pipeline' & Heq & Hauth & _).
  exists pipeline'. split; [done|].
  intros config Hin.
  pose proof (uncancelled_accounted evaluateAllAuthConfigs _ _ Hrtc Hctx) as Hperm.
  rewrite Hwg, app_nil_r in Hperm. rewrite <- Hperm in Hin.
  apply list_elem_of_fmap in Hin as (r & -> & Hr).
  rewrite Hauth. by apply foldl_storeAuthorization_present.
Qed.

(** X23.  When the context of the identity phase is never cancelled and
    there is at least one identity config, every config has answered with
    a failure: the phase returns an error and leaves the pipeline as it
    was. *)
Theorem uncancelled_identity_denies authConfigs final pipeline :
  rtc (step evaluateOneAuthConfig) (spawn authConfigs) final ->
  waitGroup final = [] ->
  ctxCancelled final = false ->
  authConfigs <> [] ->
  length (respChannel final) = length authConfigs
  /\ exists err,
      evaluateIdentityConfigs (respChannel final) pipeline = (pipeline, Some err, []).
Proof.
  intros Hrtc Hwg Hctx Hne.
  pose proof (uncancelled_accounted evaluateOneAuthConfig _ _ Hrtc Hctx) as Hperm.
  rewrite Hwg, app_nil_r in Hperm.
  assert (length (respChannel final) = length authConfigs) as Hlen.
  { by rewrite <- Hperm, length_map. }
  split; [done|].
  assert (Forall failed (respChannel final)) as Hall.
  { apply Forall_forall. intros r Hin. unfold failed.
    destruct (Success r) eqn:Hr; [|done]. exfalso.
    destruct (cancel_trigger evaluateOneAuthConfig _ _ Hrtc) as [Hcancel _].
    rewrite Hcancel in Hctx; [done | done |].
    apply Exists_exists. by exists r. }
  destruct (respChannel final) as [|r0 ch] using rev_ind.
  - destruct authConfigs; [done | simpl in Hlen; lia].
  - unfold evaluateIdentityConfigs. rewrite (identityLoop_all_failed _ _ _ _ Hall).
    apply Forall_app in Hall as [_ Hr0]. apply Forall_cons in Hr0 as [Hr0 _].
    apply failed_has_error in Hr0 as [err ->]. by exists err.
Qed.

End Verdict.

Section VerdictWitnesses.

Import service.

Lemma uncancelled_authorization_stores_all_witness :
  exists pipeline',
    evaluateAuthorizationConfigs
      (sequential evaluateAllAuthConfigs scenario.call
         (AuthorizationConfigs scenario.api) false)
      (NewAuthPipeline scenario.request scenario.api)
    = (pipeline', None, [])
    /\ forall config,
        config ∈ AuthorizationConfigs scenario.api ->
        is_Some (Authorization pipeline' !! asAuthorizationConfig config).
Proof.
  apply (uncancelled_authorization_stores_all (AuthorizationConfigs scenario.api)
           {| ctxCancelled := false; waitGroup := [];
              respChannel := sequential evaluateAllAuthConfigs scenario.call
                               (AuthorizationConfigs scenario.api) false |}).
  - exact (sequential_rtc evaluateAllAuthConfigs scenario.call
             (AuthorizationConfigs scenario.api) false []).
  - reflexivity.
  - reflexivity.
Defined.

Lemma uncancelled_identity_denies_witness :
  exists err,
    evaluateIdentityConfigs
      (sequential evaluateOneAuthConfig scenario.deny (IdentityConfigs scenario.api) false)
      (NewAuthPipeline scenario.request scenario.api)
    = (NewAuthPipeline scenario.request scenario.api, Some err, []).
Proof.
  apply (proj2 (uncancelled_identity_denies (IdentityConfigs scenario.api)
                  {| ctxCancelled := false; waitGroup := [];
                     respChannel := sequential evaluateOneAuthConfig scenario.deny
                                      (IdentityConfigs scenario.api) false |}
                  (NewAuthPipeline scenario.request scenario.api)
                  (sequential_rtc evaluateOneAuthConfig scenario.deny
                     (IdentityConfigs scenario.api) false [])
                  eq_refl eq_refl ltac:(discriminate))).
Defined.

End VerdictWitnesses.

(** ** The query locator on plain keys *)

Section QueryParse.

Import regexp.
Local Open Scope string_scope.

(** A letter, digit or underscore has no meaning of its own in a pattern. *)
Lemma isWordChar_plain (c : ascii) :
  isWordChar c = true ->
  Ascii.eqb c "|" = false /\ Ascii.eqb c ")" = false /\ isRepeatOp c = false
  /\ Ascii.eqb c "(" = false /\ Ascii.eqb c "[" = false /\ Ascii.eqb c "." = false
  /\ Ascii.eqb c "^" = false /\ Ascii.eqb c "$" = false /\ Ascii.eqb c "\" = false
  /\ Ascii.eqb c "{" = false /\ (code c <? 128)%N = true.
Proof.
  destruct c as [[] [] [] [] [] [] [] []]; vm_compute;
    try (intros H; discriminate H);
    intros _; repeat (split; [reflexivity|]); reflexivity.
Qed.

Lemma parseRepeat_plain (a : Syntax) (c : ascii) (s : string) :
  isRepeatOp c = false -> parseRepeat a (String c s) = Parsed (a, String c s).
Proof. intros H. simpl. by rewrite H. Qed.

(** A run of plain bytes in front of a byte that is no repetition operator
    is parsed into [literal]. *)
Lemma parseConcat_literal (key : string) (c : ascii) (rest : string) (st : pstate)
    (fuel : nat) :
  isWord key = true -> isRepeatOp c = false ->
  parseConcat (String.length key + S fuel) (key ++ String c rest) st
  = match parseConcat (S fuel) (String c rest) st with
    | Parsed (b, rest', st') => Parsed (literal key b, rest', st')
    | other => other
    end.
Proof.
  intros Hkey Hc.
  remember (parseConcat (S fuel) (String c rest) st) as tail eqn:Htail.
  induction key as [|k key IH].
  - change (String.length EmptyString + S fuel) with (S fuel).
    change (EmptyString ++ String c rest) with (String c rest).
    rewrite <- Htail. by destruct tail as [[[b r] st']| |].
  - unfold isWord in Hkey. simpl in Hkey. apply andb_true_iff in Hkey as [Hk Hkey].
    specialize (IH Hkey).
    destruct (isWordChar_plain k Hk)
      as (H1 & H2 & H3 & H4 & H5 & H6 & H7 & H8 & H9 & H10 & _).
    change (String.length (String k key) + S fuel) with (S (String.length key + S fuel)).
    change (String k key ++ String c rest) with (String k (key ++ String c rest)).
    assert (exists c' s', key ++ String c rest = String c' s' /\ isRepeatOp c' = false)
      as (c' & s' & Heq & Hc').
    { destruct key as [|k' key'].
      - by exists c, rest.
      - exists k', (key' ++ String c rest). split; [done|].
        simpl in Hkey. apply andb_true_iff in Hkey as [Hk' _].
        by destruct (isWordChar_plain k' Hk') as (_ & _ & ? & _). }
    cbn [parseConcat]. rewrite H1, H2, H3. simpl orb. cbv iota.
    replace (String.length key + S fuel) with (S (String.length key + fuel)) at 1 by lia.
    cbn [parseAtom]. rewrite H4, H5, H6, H7, H8, H9, H10.
    rewrite Heq at 1. rewrite (parseRepeat_plain _ _ _ Hc'). rewrite <- Heq.
    replace (S (String.length key + fuel)) with (String.length key + S fuel) by lia.
    rewrite IH.
    by destruct tail as [[[b r] st']| |].
Qed.

Lemma parseAlternation_S fuel s st :
  parseAlternation (S fuel) s st
  = match parseConcat fuel s st with
    | Parsed (a, String c rest, st1) =>
        if Ascii.eqb c "|"
        then match parseAlternation fuel rest st1 with
             | Parsed (b, rest', st2) => Parsed (Alternate a b, rest', st2)
             | other => other
             end
        else Parsed (a, String c rest, st1)
    | other => other
    end.
Proof. reflexivity. Qed.

Lemma parseConcat_S fuel c s st :
  parseConcat (S fuel) (String c s) st
  = if Ascii.eqb c "|" || Ascii.eqb c ")" then Parsed (EmptyMatch, String c s, st)
    else if isRepeatOp c then SyntaxError ErrMissingRepeatArgument
    else
      match parseAtom fuel (String c s) st with
      | Parsed (a, rest, st1) =>
          match parseRepeat a rest with
          | Parsed (a', rest') =>
              match parseConcat fuel rest' st1 with
              | Parsed (b, rest'', st2) => Parsed (mkConcat a' b, rest'', st2)
              | other => other
              end
          | SyntaxError e => SyntaxError e
          | Unsupported => Unsupported
          end
      | other => other
      end.
Proof. reflexivity. Qed.

Lemma mkConcat_literal (a : Syntax) (key : string) (negate : bool) (ranges : list (N * N)) :
  mkConcat a (literal key (CharClass negate ranges))
  = Concat a (literal key (CharClass negate ranges)).
Proof.
  destruct key as [|c key]; [done|]. simpl.
  by destruct (literal key (CharClass negate ranges)).
Qed.

(** The parser on the pattern of [getCredFromQuery] for a plain key. *)
Lemma parse_query (key : string) (g : nat) :
  isWord key = true ->
  parseAlternation (5 + (String.length key + S (10 + g)))
    ("([?&]" ++ key ++ "=)(?P<credValue>[^&]*)") {| numCap := 0; groupNames := [] |}
  = Parsed (querySyntax key, EmptyString, {| numCap := 2; groupNames := ["credValue"] |}).
Proof.
  intros Hkey.
  remember (String.length key + S (10 + g)) as X eqn:HX.
  set (st1 := {| numCap := 1; groupNames := [] |}).
  set (tail := ")(?P<credValue>[^&]*)").
  assert (exists c' s', key ++ String "=" tail = String c' s' /\ isRepeatOp c' = false)
    as (c' & s' & Heq & Hc').
  { destruct key as [|k' key'].
    - by eexists _, _.
    - exists k', (key' ++ String "=" tail). split; [done|].
      unfold isWord in Hkey. simpl in Hkey. apply andb_true_iff in Hkey as [Hk' _].
      by destruct (isWordChar_plain k' Hk') as (_ & _ & ? & _). }
  assert (parseConcat X (key ++ String "=" tail) st1
          = Parsed (literal key (CharClass false [(61, 61)]%N), tail, st1)) as T2.
  { rewrite HX. by rewrite parseConcat_literal. }
  set (class := CharClass false [(63, 63); (38, 38)]%N).
  set (equals := CharClass false [(61, 61)]%N).
  set (body := String "[" (String "?" (String "&" (String "]" (key ++ String "=" tail))))).
  assert (parseConcat (S X) body st1
          = Parsed (Concat class (literal key equals), tail, st1)) as T3.
  { unfold body. rewrite parseConcat_S. simpl orb. cbv iota.
    assert (parseAtom X (String "[" (String "?" (String "&" (String "]"
                                  (key ++ String "=" tail))))) st1
            = Parsed (class, key ++ String "=" tail, st1)) as ->.
    { replace X with (S (String.length key + (10 + g))) by lia.
      rewrite Heq. reflexivity. }
    rewrite Heq, (parseRepeat_plain _ _ _ Hc'), <- Heq, T2.
    unfold equals. by rewrite mkConcat_literal. }
  assert (parseAtom (S (S (S X))) (String "(" body) {| numCap := 0; groupNames := [] |}
          = Parsed (Capture 1 EmptyString (Concat class (literal key equals)),
                    "(?P<credValue>[^&]*)", st1)) as T5.
  { change (closeGroup (Capture 1 EmptyString) (parseAlternation (S (S X)) body st1)
            = Parsed (Capture 1 EmptyString (Concat class (literal key equals)),
                      "(?P<credValue>[^&]*)", st1)).
    by rewrite parseAlternation_S, T3. }
  assert (parseConcat (S (S (S X))) "(?P<credValue>[^&]*)" st1
          = Parsed (Capture 2 "credValue" (Star (CharClass true [(38, 38)]%N)),
                    EmptyString, {| numCap := 2; groupNames := ["credValue"] |})) as T6.
  { replace X with (S (S (S (String.length key + (8 + g))))) by lia. reflexivity. }
  change (parseAlternation (S (S (S (S (S X))))) (String "(" body)
            {| numCap := 0; groupNames := [] |}
          = Parsed (querySyntax key, EmptyString,
                    {| numCap := 2; groupNames := ["credValue"] |})).
  rewrite parseAlternation_S, parseConcat_S. simpl orb. cbv iota.
  rewrite T5.
  rewrite (parseRepeat_plain _ "(" "?P<credValue>[^&]*)" eq_refl).
  by rewrite T6.
Qed.

Lemma isASCII_append (a b : string) :
  strings.isASCII (a ++ b) = strings.isASCII a && strings.isASCII b.
Proof.
  unfold strings.isASCII. induction a as [|c a IH]; [done|].
  change (String c a ++ b) with (String c (a ++ b)). simpl. by rewrite IH, andb_assoc.
Qed.

Lemma isWord_isASCII (key : string) : isWord key = true -> strings.isASCII key = true.
Proof.
  unfold isWord, strings.isASCII. induction key as [|c key IH]; [done|]. simpl.
  intros [Hc Hkey]%andb_true_iff. rewrite (IH Hkey), andb_true_r.
  by destruct (isWordChar_plain c Hc) as (_ & _ & _ & _ & _ & _ & _ & _ & _ & _ & ?).
Qed.

(** [regexp.Compile] on the pattern of [getCredFromQuery] for a plain key. *)
Lemma Compile_query (key : string) :
  isWord key = true -> String.length key <= 972 ->
  Compile ("([?&]" ++ key ++ "=)(?P<credValue>[^&]*)")
  = Parsed {| syntax := querySyntax key; numSubexp := 2 |}.
Proof.
  intros Hkey Hlen. unfold Compile.
  rewrite !isASCII_append, (isWord_isASCII _ Hkey). simpl negb.
  rewrite !length_append.
  change (String.length "([?&]") with 5.
  change (String.length "=)(?P<credValue>[^&]*)") with 22.
  destruct (Nat.ltb_spec 1000 (5 + (String.length key + 22))) as [?|_]; [lia|].
  simpl orb. cbv iota.
  replace (3 * (5 + (String.length key + 22)) + 3)
    with (5 + (String.length key + S (10 + (2 * String.length key + 68)))) by lia.
  by rewrite parse_query.
Qed.

End QueryParse.

Section QueryMatch.

Import regexp.
Local Open Scope string_scope.

Lemma inRanges_single (d c : ascii) : inRanges d [(code c, code c)] = Ascii.eqb d c.
Proof.
  unfold inRanges. simpl. rewrite orb_false_r.
  destruct (Ascii.eqb_spec d c) as [->|Hne].
  - by rewrite N.leb_refl.
  - apply andb_false_iff.
    destruct (N.leb_spec (code c) (code d)) as [H1|]; [|by left].
    destruct (N.leb_spec (code d) (code c)) as [H2|]; [|by right].
    exfalso. apply Hne. unfold code in *.
    rewrite <- (ascii_N_embedding d), <- (ascii_N_embedding c). f_equal. lia.
Qed.

Lemma HasPrefix_cons (d c : ascii) (s p : string) :
  strings.HasPrefix (String d s) (String c p) = Ascii.eqb d c && strings.HasPrefix s p.
Proof.
  unfold strings.HasPrefix, strings.len.
  cbn [String.length substring String.eqb Nat.leb].
  destruct (Ascii.eqb d c); destruct (String.length p <=? String.length s)%nat; done.
Qed.

Lemma HasPrefix_empty_l (p : string) (c : ascii) :
  strings.HasPrefix EmptyString (String c p) = false.
Proof. reflexivity. Qed.

Lemma TrimPrefix_cons (c : ascii) (s p : string) :
  strings.HasPrefix s p = true ->
  strings.TrimPrefix (String c s) (String c p) = strings.TrimPrefix s p.
Proof.
  intros Hp. unfold strings.TrimPrefix.
  rewrite HasPrefix_cons, Ascii.eqb_refl, Hp. reflexivity.
Qed.

Lemma TrimPrefix_empty (s : string) : strings.TrimPrefix s EmptyString = s.
Proof.
  unfold strings.TrimPrefix, strings.len.
  assert (strings.HasPrefix s EmptyString = true) as -> by (by destruct s).
  simpl. rewrite Nat.sub_0_r. apply substring_full.
Qed.

Lemma run_class fuel negate ranges pos s caps k :
  run (S fuel) (CharClass negate ranges) pos s caps k
  = match s with
    | EmptyString => NoMatch
    | String c s' =>
        if xorb negate (inRanges c ranges) then k (S pos) s' caps else NoMatch
    end.
Proof. reflexivity. Qed.

Lemma run_concat fuel a b pos s caps k :
  run (S fuel) (Concat a b) pos s caps k
  = run fuel a pos s caps (fun p1 s1 c1 => run fuel b p1 s1 c1 k).
Proof. reflexivity. Qed.

Lemma run_capture fuel index name a pos s caps k :
  run (S fuel) (Capture index name a) pos s caps k
  = run fuel a pos s caps (fun p1 s1 c1 => k p1 s1 ((index, (pos, p1)) :: c1)).
Proof. reflexivity. Qed.

Lemma run_star fuel a pos s caps k :
  run (S fuel) (Star a) pos s caps k
  = match run fuel a pos s caps
            (fun p1 s1 c1 =>
               if (pos <? p1)%nat then run fuel (Star a) p1 s1 c1 k else NoMatch) with
    | NoMatch => k pos s caps
    | other => other
    end.
Proof. reflexivity. Qed.

(** Matching the bytes of the key and the [=] behind it. *)
Lemma run_literal (key : string) (fuel pos : nat) (s : string) (caps : captures)
    (k : nat -> string -> captures -> outcome) :
  String.length key < fuel ->
  run fuel (literal key equals) pos s caps k
  = if strings.HasPrefix s (key ++ "=")
    then k (pos + S (String.length key)) (strings.TrimPrefix s (key ++ "=")) caps
    else NoMatch.
Proof.
  revert fuel pos s. induction key as [|c key IH]; intros fuel pos s Hfuel.
  - destruct fuel as [|fuel]; [simpl in Hfuel; lia|].
    change (EmptyString ++ "=") with "=".
    change (literal EmptyString equals) with (CharClass false [(code "=", code "=")]).
    rewrite run_class.
    destruct s as [|d s]; [done|].
    rewrite HasPrefix_cons, inRanges_single. simpl xorb.
    destruct (Ascii.eqb_spec d "=") as [->|Hne]; [|done].
    simpl andb.
    assert (strings.HasPrefix s EmptyString = true) as Hs by (by destruct s).
    rewrite Hs, (TrimPrefix_cons _ _ _ Hs).
    rewrite TrimPrefix_empty. f_equal. simpl. lia.
  - destruct fuel as [|fuel]; [simpl in Hfuel; lia|].
    change (String c key ++ "=") with (String c (key ++ "=")).
    change (literal (String c key) equals)
      with (mkConcat (CharClass false [(code c, code c)]) (literal key equals)).
    unfold equals at 1. rewrite mkConcat_literal. fold equals.
    rewrite run_concat.
    destruct fuel as [|fuel]; [simpl in Hfuel; lia|].
    rewrite run_class.
    destruct s as [|d s]; [done|].
    rewrite HasPrefix_cons, inRanges_single. simpl xorb.
    destruct (Ascii.eqb_spec d c) as [->|Hne]; [|done]. simpl andb.
    rewrite IH by (simpl in Hfuel; lia).
    destruct (strings.HasPrefix s (key ++ "=")) eqn:Hp; [|done].
    rewrite (TrimPrefix_cons _ _ _ Hp). f_equal. simpl. lia.
Qed.

(** The greedy [[^&]*] in front of the end of the match. *)
Lemma run_star_notAmp (s : string) (fuel pos start : nat) (caps : captures) :
  S (String.length s) < fuel ->
  run fuel (Star notAmp) pos s caps
    (fun p1 _ c1 => Matched p1 ((2, (start, p1)) :: c1))
  = Matched (pos + String.length (auth_credentials.untilAmp s))
      ((2, (start, pos + String.length (auth_credentials.untilAmp s))) :: caps).
Proof.
  revert fuel pos. induction s as [|c s IH]; intros fuel pos Hfuel.
  - destruct fuel as [|[|fuel]]; [simpl in Hfuel; lia | simpl in Hfuel; lia |].
    rewrite run_star. unfold notAmp at 1. rewrite run_class. simpl.
    by rewrite Nat.add_0_r.
  - destruct fuel as [|[|fuel]]; [simpl in Hfuel; lia | simpl in Hfuel; lia |].
    rewrite run_star. unfold notAmp at 1. rewrite run_class.
    change (inRanges c [(38%N, 38%N)]) with (inRanges c [(code "&", code "&")]).
    rewrite inRanges_single. simpl auth_credentials.untilAmp.
    destruct (Ascii.eqb c "&"); simpl xorb; cbv iota.
    + simpl. by rewrite Nat.add_0_r.
    + assert ((pos <? S pos)%nat = true) as -> by (apply Nat.ltb_lt; lia).
      rewrite IH by (simpl in Hfuel; lia).
      simpl String.length. by rewrite Nat.add_succ_r.
Qed.

Lemma inRanges_mark_amp (c : ascii) :
  inRanges c [(63, 63); (38, 38)]%N = Ascii.eqb c "?" || Ascii.eqb c "&".
Proof.
  rewrite <- !inRanges_single. unfold inRanges. simpl. by rewrite !orb_false_r.
Qed.

Lemma untilAmp_prefix (v : string) : exists r, v = auth_credentials.untilAmp v ++ r.
Proof.
  induction v as [|c v [r IH]]; [by exists EmptyString|]. simpl.
  destruct (Ascii.eqb c "&"); [by eexists|].
  exists r. change (String c v = String c (auth_credentials.untilAmp v ++ r)). by f_equal.
Qed.

Lemma substring_middle (a b c : string) :
  substring (String.length a) (String.length b) (a ++ b ++ c) = b.
Proof.
  induction a as [|x a IH]; [|exact IH].
  change (substring 0 (String.length b) (b ++ c) = b). apply substring_zero_append.
Qed.

(** The query pattern at one offset of the path. *)
Lemma run_query (key : string) (fuel pos : nat) (s : string) :
  String.length key + 5 <= fuel -> String.length s + 5 <= fuel ->
  run fuel (querySyntax key) pos s [] (fun p _ c => Matched p c)
  = match s with
    | EmptyString => NoMatch
    | String c s' =>
        if (Ascii.eqb c "?" || Ascii.eqb c "&") && strings.HasPrefix s' (key ++ "=")
        then
          let first := S pos + S (String.length key) in
          let last :=
            first + String.length
                      (auth_credentials.untilAmp (strings.TrimPrefix s' (key ++ "="))) in
          Matched last [(2, (first, last)); (1, (pos, first))]
        else NoMatch
    end.
Proof.
  intros Hkey Hs.
  destruct fuel as [|[|[|[|fuel]]]]; try lia.
  unfold querySyntax. rewrite run_concat, run_capture, run_concat, run_class.
  destruct s as [|c s']; [done|].
  rewrite inRanges_mark_amp. simpl xorb.
  destruct (Ascii.eqb c "?" || Ascii.eqb c "&"); [|done]. simpl andb.
  fold equals. rewrite run_literal by lia.
  destruct (strings.HasPrefix s' (key ++ "=")) eqn:Hp; [|done].
  rewrite run_capture. fold notAmp. cbv beta.
  rewrite run_star_notAmp; [done|].
  apply HasPrefix_inv in Hp as [v ->]. rewrite TrimPrefix_append.
  simpl in Hs. rewrite length_append in Hs. lia.
Qed.

(** The leftmost match of the query pattern is the first occurrence that
    the literal search finds. *)
Lemma search_query (key : string) (fuel : nat) (s pre : string) :
  String.length key + 5 <= fuel -> String.length s + 5 <= fuel ->
  (auth_credentials.spec_literalQuery s key = Err auth_credentials.notFoundErr
   /\ search fuel (querySyntax key) (String.length pre) s = NotFound)
  \/ exists v start stop caps,
      auth_credentials.spec_literalQuery s key = Ok v
      /\ search fuel (querySyntax key) (String.length pre) s = Found start stop caps
      /\ submatch (pre ++ s) caps 2 = v.
Proof.
  intros Hkey. revert pre. induction s as [|c s IH]; intros pre Hs.
  - left. split; [done|].
    change (search fuel (querySyntax key) (String.length pre) EmptyString)
      with (match run fuel (querySyntax key) (String.length pre) EmptyString []
                    (fun p _ c => Matched p c) with
            | Matched stop caps => Found (String.length pre) stop caps
            | OutOfFuel => GaveUp
            | NoMatch => NotFound
            end).
    by rewrite run_query.
  - change (search fuel (querySyntax key) (String.length pre) (String c s))
      with (match run fuel (querySyntax key) (String.length pre) (String c s) []
                    (fun p _ c => Matched p c) with
            | Matched stop caps => Found (String.length pre) stop caps
            | OutOfFuel => GaveUp
            | NoMatch => search fuel (querySyntax key) (S (String.length pre)) s
            end).
    rewrite run_query by done.
    change (auth_credentials.spec_literalQuery (String c s) key)
      with (if (Ascii.eqb c "?" || Ascii.eqb c "&")
               && strings.HasPrefix s (key ++ "=")
            then Ok (auth_credentials.untilAmp (strings.TrimPrefix s (key ++ "=")))
            else auth_credentials.spec_literalQuery s key).
    destruct ((Ascii.eqb c "?" || Ascii.eqb c "&") && strings.HasPrefix s (key ++ "="))
      eqn:Hcond.
    + right. eexists _, _, _, _. split; [done|]. split; [done|].
      apply andb_true_iff in Hcond as [_ Hp].
      apply HasPrefix_inv in Hp as [v ->]. rewrite TrimPrefix_append.
      destruct (untilAmp_prefix v) as [r Hv].
      unfold submatch. simpl. unfold slice.
      set (u := auth_credentials.untilAmp v) in *.
      rewrite Hv at 1.
      replace (pre ++ String c ((key ++ "=") ++ u ++ r))
        with ((pre ++ String c (key ++ "=")) ++ u ++ r).
      * assert (String.length (pre ++ String c (key ++ "="))
                = S (String.length pre + S (String.length key))) as Hlen.
        { rewrite length_append. simpl. rewrite length_append. simpl. lia. }
        match goal with
        | |- substring ?a ?n _ = _ =>
            replace n with (String.length u) by lia;
            replace a with (String.length (pre ++ String c (key ++ "="))) by lia
        end.
        apply substring_middle.
      * rewrite append_assoc. f_equal.
    + assert (S (String.length pre) = String.length (pre ++ String c EmptyString)) as ->.
      { rewrite length_append. simpl. lia. }
      assert (pre ++ String c s = (pre ++ String c EmptyString) ++ s) as ->.
      { by rewrite append_assoc. }
      apply IH. simpl in Hs. lia.
Qed.

End QueryMatch.

Section QueryPlain.

Import regexp.
Local Open Scope string_scope.

Lemma size_literal (key : string) : String.length key < size (literal key equals).
Proof.
  induction key as [|c key IH]; [simpl; lia|].
  change (literal (String c key) equals)
    with (mkConcat (CharClass false [(code c, code c)]) (literal key equals)).
  unfold equals at 1. rewrite mkConcat_literal. fold equals. simpl. lia.
Qed.

Lemma subexpNames_literal (key : string) : subexpNames (literal key equals) = [].
Proof.
  induction key as [|c key IH]; [done|].
  change (literal (String c key) equals)
    with (mkConcat (CharClass false [(code c, code c)]) (literal key equals)).
  unfold equals at 1. rewrite mkConcat_literal. fold equals. simpl. by rewrite IH.
Qed.

Lemma untilAmp_free (v : string) : strings.free_of "&" (auth_credentials.untilAmp v).
Proof.
  induction v as [|c v IH]; [done|]. simpl.
  destruct (Ascii.eqb_spec c "&"); [done|]. by split.
Qed.

Lemma spec_literalQuery_free (path key cred : string) :
  auth_credentials.spec_literalQuery path key = Ok cred -> strings.free_of "&" cred.
Proof.
  induction path as [|c path IH]; [done|]. simpl.
  destruct ((Ascii.eqb c "?" || Ascii.eqb c "&")
            && strings.HasPrefix path (key ++ "=")); [|exact IH].
  intros [= <-]. apply untilAmp_free.
Qed.

(** X24.  For a key selector of letters, digits and underscores (and an
    ASCII path) the query locator finds what a literal search finds: the
    text after the first [?key=] or [&key=] of the path, up to the next [&]
    or to the end; it returns the credential-not-found error when there is
    no such occurrence, and never a credential with a [&] in it. *)
Theorem query_plain_key (path key : string) :
  isWord key = true -> String.length key <= 972 -> strings.isASCII path = true ->
  auth_credentials.getCredFromQuery path key = auth_credentials.spec_literalQuery path key
  /\ forall cred,
      auth_credentials.getCredFromQuery path key = Ok cred -> strings.free_of "&" cred.
Proof.
  intros Hkey Hlen Hpath.
  assert (auth_credentials.getCredFromQuery path key
          = auth_credentials.spec_literalQuery path key) as Heq.
  { unfold auth_credentials.getCredFromQuery, auth_credentials.credValue.
    change ("([?&]" ++ key ++ "=)(?P<" ++ "credValue" ++ ">[^&]*)")
      with ("([?&]" ++ key ++ "=)(?P<credValue>[^&]*)").
    rewrite (Compile_query key Hkey Hlen).
    unfold FindStringSubmatch. rewrite Hpath. simpl negb. cbv iota.
    set (re := {| syntax := querySyntax key; numSubexp := 2 |}).
    assert (SubexpIndex re "credValue" = 2%Z) as Hindex.
    { unfold SubexpIndex, re, querySyntax. simpl.
      fold equals. by rewrite subexpNames_literal. }
    assert (String.length key + 5 <= matchFuel re path
            /\ String.length path + 5 <= matchFuel re path) as [Hf1 Hf2].
    { unfold matchFuel, re, querySyntax. simpl. fold equals.
      pose proof (size_literal key). nia. }
    destruct (search_query key (matchFuel re path) path EmptyString Hf1 Hf2)
      as [[-> Hsearch] | (v & start & stop & caps & -> & Hsearch & Hsub)];
      simpl in Hsearch; unfold re in *; simpl syntax; rewrite Hsearch.
    - done.
    - simpl. rewrite Hindex. change (EmptyString ++ path) with path in Hsub.
      by rewrite <- Hsub. }
  split; [done|]. rewrite Heq. apply spec_literalQuery_free.
Qed.

End QueryPlain.

Lemma query_plain_key_witness :
  auth_credentials.getCredFromQuery "/p?foo=1&token=xyz&bar=2" "token" = Ok "xyz".
Proof.
  destruct (query_plain_key "/p?foo=1&token=xyz&bar=2" "token") as [-> _];
    [reflexivity|simpl; lia|reflexivity|reflexivity].
Defined.
